(** * WebGPU backend memory allocator (graph_builder/backend/webgpu/allocator.py)

    A shallow embedding of [Allocation], [MemoryLayout] and [Allocator],
    followed by the properties of the allocation pass.

    Python integers are [Z]; dictionaries are stdpp [gmap]s; the free list
    is a Python list of [(offset, size)] tuples and is a [list (Z * Z)];
    exceptions are explicit in the [result] type.

    The graph classes live outside this module: a variable is the record of
    the attributes read here, an operator its kind, inputs and outputs, and
    the graph the list of its inputs with its operators in the order
    [util.listup_operator_in_order] yields them. [Allocator.allocate],
    which only collects the values through [util] functions and renames
    them, is not part of the embedding. *)

From Stdlib Require Import ZArith Lia.
From stdpp Require Import gmap strings list fin_maps countable.

Local Open Scope Z_scope.

(** ** Values of the graph *)

(** A [Variable] object ([Var] here), reduced to the attributes the allocator reads:
    [name], [size], whether it is a [ConstantVariable], and the length of
    its [input_to] collection. A dictionary keyed by the Python object is
    keyed by this record. *)
Record Var := mkVar {
  name : string;
  size : Z;
  is_constant : bool;        (* isinstance(var, ConstantVariable) *)
  len_input_to : Z           (* len(var.input_to) *)
}.

#[global] Instance Var_eq_dec : EqDecision Var.
Proof. solve_decision. Defined.

#[global] Instance Var_countable : Countable Var.
Proof.
  refine (inj_countable'
    (fun v => (name v, size v, is_constant v, len_input_to v))
    (fun t => match t with (n, s, c, f) => mkVar n s c f end) _).
  intros []; reflexivity.
Defined.

(** A node handed to the allocator is a variable, or a [VariableAlias]
    object ([self]) that points to its [original]. *)
Inductive Node :=
| Plain (v : Var)
| VariableAlias (self original : Var).

(** [if isinstance(var, VariableAlias): var = var.original] *)
Definition resolve (n : Node) : Var :=
  match n with
  | Plain v => v
  | VariableAlias _ o => o
  end.

(** The object itself, where the code uses a node without resolving it. *)
Definition node_obj (n : Node) : Var :=
  match n with
  | Plain v => v
  | VariableAlias s _ => s
  end.

(** An operator: [isinstance(op, Flatten)], [op.inputs.values()],
    [op.outputs.values()]. *)
Record Operator := mkOperator {
  is_flatten : bool;
  inputs : list Node;
  outputs : list Node
}.

(** The graph as the allocator sees it: [graph.inputs.values()] and the
    result of [util.listup_operator_in_order(graph)]. *)
Record Graph := mkGraph {
  graph_inputs : list Node;
  operators_in_order : list Operator
}.

(** ** Exceptions *)

(** The exceptions the code can raise, and [OutOfFuel] for a coalescing
    loop cut short by its bound (shown not to happen). *)
Inductive exn := KeyError | ValueError | IndexError | TypeError | OutOfFuel.

Inductive result (A : Type) :=
| Ok (a : A)
| Raise (e : exn).
Arguments Ok {A} a.
Arguments Raise {A} e.

#[global] Instance result_ret : MRet result := fun A a => Ok a.

#[global] Instance result_bind : MBind result := fun A B k r =>
  match r with
  | Ok a => k a
  | Raise e => Raise e
  end.

(** [for x in xs: st = f x st], stopping at the first exception. *)
Fixpoint for_each {A S} (f : A -> S -> result S) (xs : list A) (st : S)
  : result S :=
  match xs with
  | [] => Ok st
  | x :: xs' => st' ← f x st; for_each f xs' st'
  end.

(** ** Allocation and MemoryLayout *)

Record Allocation := mkAllocation {
  variable : Var;
  offset : Z
}.

(** [Allocation.size] *)
Definition alloc_size (a : Allocation) : Z := size (variable a).

(** [MemoryLayout.__dict__] *)
Abbreviation MemoryLayout := (gmap string Allocation).

(** [MemoryLayout.size]: the property recomputes the maximum on each call. *)
Definition layout_size (l : MemoryLayout) : Z :=
  map_fold (fun _ a sz => Z.max (offset a + alloc_size a) sz) 0 l.

(** [MemoryLayout.__contains__] *)
Definition layout_contains (l : MemoryLayout) (var : Var) : bool :=
  bool_decide (is_Some (l !! name var)).

(** [MemoryLayout.__getitem__] *)
Definition layout_get (l : MemoryLayout) (var : Var) : result Allocation :=
  match l !! name var with
  | Some a => Ok a
  | None => Raise KeyError
  end.

(** [MemoryLayout.append(var, offset=-1)]: what the method does once it
    runs. *)
Definition append (l : MemoryLayout) (var : Node) (ofs : Z) : MemoryLayout :=
  let ofs := if ofs =? -1 then layout_size l else ofs in
  let var := resolve var in
  <[name var := mkAllocation var ofs]> l.

(** The call [layout.append(var, offset)]. The entries of a layout are
    stored in the instance [__dict__] ([self.__dict__ = {}],
    [self.__dict__[var.name] = Allocation(var, offset)]), where they are
    found before the methods of the class: once a value named ["append"]
    is stored, [layout.append] is that allocation and the call raises
    [TypeError]. [size] is a property and [__getitem__], [__contains__] are
    looked up on the class, so no entry hides them. *)
Definition call_append (l : MemoryLayout) (var : Node) (ofs : Z)
  : result MemoryLayout :=
  if bool_decide (is_Some (l !! "append")) then Raise TypeError
  else Ok (append l var ofs).

(** ** The free list *)

Abbreviation Space := (Z * Z)%type.

(** [list.remove(x)]: drops the first element equal to [x], [ValueError]
    when there is none. *)
Fixpoint list_remove (x : Space) (l : list Space) : result (list Space) :=
  match l with
  | [] => Raise ValueError
  | y :: l' =>
      if decide (y = x) then Ok l'
      else l'' ← list_remove x l'; Ok (y :: l'')
  end.

(** [sorted(l, key=lambda x: x[1])]: a stable sort on the size. *)
Fixpoint insert_by_size (x : Space) (l : list Space) : list Space :=
  match l with
  | [] => [x]
  | y :: l' => if x.2 <=? y.2 then x :: y :: l' else y :: insert_by_size x l'
  end.

Definition sorted_by_size (l : list Space) : list Space :=
  foldr insert_by_size [] l.

(** [spaces = sorted([space for space in free_list if space[1] >= size],
    key=lambda x: x[1])] *)
Definition sufficient_spaces (free_list : list Space) (sz : Z) : list Space :=
  sorted_by_size (filter (fun space => sz <= space.2) free_list).

(** One turn of [for space2 in list(free_list)]: the two adjacency tests,
    the second one against the [space1] the first one may have replaced. *)
Definition merge_step (space2 : Space) (st : list Space * Space * bool)
  : result (list Space * Space * bool) :=
  let '(free_list, space1, flag_changed) := st in
  '(free_list, space1, flag_changed) ←
    (if space2.1 + space2.2 =? space1.1 then
       free_list ← list_remove space1 free_list;
       free_list ← list_remove space2 free_list;
       let space1 := (space2.1, space2.2 + space1.2) in
       Ok (free_list ++ [space1], space1, true)
     else Ok (free_list, space1, flag_changed));
  if space2.1 =? space1.1 + space1.2 then
    free_list ← list_remove space1 free_list;
    free_list ← list_remove space2 free_list;
    let space1 := (space1.1, space2.2 + space1.2) in
    Ok (free_list ++ [space1], space1, true)
  else Ok (free_list, space1, flag_changed).

(** [while flag_changed: ...]. Each turn iterates over a snapshot of the
    free list. [fuel] bounds the number of turns; [coalesce_fuel] below shows
    that the bound used by [release] is never reached. *)
Fixpoint coalesce (fuel : nat) (free_list : list Space) (space1 : Space)
  : result (list Space) :=
  match fuel with
  | O => Raise OutOfFuel
  | S fuel' =>
      '(free_list', space1', flag_changed) ←
        for_each merge_step free_list (free_list, space1, false);
      if (flag_changed : bool) then coalesce fuel' free_list' space1'
      else Ok free_list'
  end.

(** [free_list.append(space1)] followed by the coalescing loop. *)
Definition release (free_list : list Space) (space1 : Space)
  : result (list Space) :=
  let free_list := free_list ++ [space1] in
  coalesce (S (length free_list)) free_list space1.

(** ** Allocator.allocate_variables *)

Record State := mkState {
  layout : MemoryLayout;
  retain_count : gmap Var Z;
  free_list : list Space;
  inplace_allocation_dict : gmap Var Var
}.

(** [d[k]] on a dictionary. *)
Definition dict_get {K V} `{Countable K} (d : gmap K V) (k : K) : result V :=
  match d !! k with
  | Some v => Ok v
  | None => Raise KeyError
  end.

(** The general case of the output loop (the [else] branch). *)
Definition allocate_general (var : Var) (st : State) : result State :=
  let sz := size var in
  let spaces := sufficient_spaces (free_list st) sz in
  let retain_count := <[var := len_input_to var]> (retain_count st) in
  match spaces with
  | space :: _ =>
      free_list ← list_remove space (free_list st);
      layout ← call_append (layout st) (Plain var) space.1;
      let free_list :=
        if size var <? space.2
        then free_list ++ [(space.1 + size var, space.2 - size var)]
        else free_list in
      Ok (mkState layout retain_count free_list (inplace_allocation_dict st))
  | [] =>
      layout ← call_append (layout st) (Plain var) (-1);
      Ok (mkState layout retain_count (free_list st)
                  (inplace_allocation_dict st))
  end.

(** The [isinstance(op, Flatten)] branch of the output loop. *)
Definition allocate_inplace (op : Operator) (var : Var) (st : State)
  : result State :=
  match inputs op with
  | [] => Raise IndexError
  | var_in :: _ =>
      let var_in := node_obj var_in in
      a ← layout_get (layout st) var_in;
      layout ← call_append (layout st) (Plain var) (offset a);
      let inplace := <[var := var_in]> (inplace_allocation_dict st) in
      c ← dict_get (retain_count st) var_in;
      Ok (mkState layout (<[var_in := c + len_input_to var]> (retain_count st))
                  (free_list st) inplace)
  end.

(** Body of [for var in op.outputs.values()]. *)
Definition process_output (op : Operator) (var : Node) (st : State)
  : result State :=
  let var := resolve var in
  if is_constant var then Ok st
  else if layout_contains (layout st) var then Ok st
  else if is_flatten op then allocate_inplace op var st
  else allocate_general var st.

(** Body of [for var in op.inputs.values()]. *)
Definition process_input (var : Node) (st : State) : result State :=
  let var := resolve var in
  if is_constant var then Ok st
  else
    let v2 := default var (inplace_allocation_dict st !! var) in
    c ← dict_get (retain_count st) v2;
    let retain_count := <[v2 := c - 1]> (retain_count st) in
    if c - 1 =? 0 then
      allocation ← layout_get (layout st) v2;
      let space1 := (offset allocation, alloc_size allocation) in
      free_list ← release (free_list st) space1;
      Ok (mkState (layout st) retain_count free_list
                  (inplace_allocation_dict st))
    else
      Ok (mkState (layout st) retain_count (free_list st)
                  (inplace_allocation_dict st)).

(** Body of [for op in util.listup_operator_in_order(graph)]. *)
Definition process_operator (op : Operator) (st : State) : result State :=
  st ← for_each (process_output op) (outputs op) st;
  for_each process_input (inputs op) st.

(** Body of [for var in graph.inputs.values()]. *)
Definition seed_input (var : Node) (l : MemoryLayout) : result MemoryLayout :=
  let var := resolve var in
  if is_constant var then Ok l else call_append l (Plain var) (-1).

(** The state in which the operator loop starts. *)
Definition initial_state (graph : Graph) (variables : list Var) : result State :=
  l ← for_each seed_input (graph_inputs graph) ∅;
  Ok (mkState l (list_to_map ((fun v => (v, 0)) <$> variables)) [] ∅).

(** [allocate_variables] with the local variables it ends with. *)
Definition allocate_variables_state (graph : Graph) (variables : list Var)
  : result State :=
  st ← initial_state graph variables;
  for_each process_operator (operators_in_order graph) st.

Definition allocate_variables (graph : Graph) (variables : list Var)
  : result MemoryLayout :=
  st ← allocate_variables_state graph variables;
  Ok (layout st).

(** ** Allocator.allocate_constants: the first loop *)

Definition pack_constant (constant : Var) (l : MemoryLayout)
  : result MemoryLayout :=
  if layout_contains l constant then Ok l
  else call_append l (Plain constant) (-1).

(** [for constant in constants: ...] from the empty layout. *)
Definition constants_layout (constants : list Var) : result MemoryLayout :=
  for_each pack_constant constants ∅.

(** * Notions the properties are stated with *)

(** ** Sizes and offsets *)

(** Where an allocation ends. *)
Definition extent (a : Allocation) : Z := offset a + alloc_size a.

(** The offset [append] stores: the end of the arena for the default
    argument [-1], the given offset otherwise. *)
Definition append_offset (l : MemoryLayout) (ofs : Z) : Z :=
  if ofs =? -1 then layout_size l else ofs.

(** ** Packed constants *)

(** The constants that are not skipped: the first one of each name. *)
Fixpoint distinct_by_name (seen : list string) (cs : list Var) : list Var :=
  match cs with
  | [] => []
  | c :: cs' =>
      if bool_decide (name c ∈ seen) then distinct_by_name seen cs'
      else c :: distinct_by_name (name c :: seen) cs'
  end.

(** Back-to-back allocations from [start] on, in list order. *)
Fixpoint packed (start : Z) (cs : list Var) : list (string * Allocation) :=
  match cs with
  | [] => []
  | c :: cs' => (name c, mkAllocation c start) :: packed (start + size c) cs'
  end.

Definition sum_sizes (cs : list Var) : Z := foldr (fun c acc => size c + acc) 0 cs.

(** ** Best fit *)


(** ** Byte-adjacent blocks *)

(** [x] is not byte-adjacent to [s]: it neither ends where [s] starts nor
    starts where [s] ends (the negation of the two tests of the loop). *)
Definition apart (x s : Space) : Prop :=
  x.1 + x.2 <> s.1 /\ x.1 <> s.1 + s.2.

(** ** Scenarios *)

(** The offset recorded for a value. *)
Definition offset_in (l : MemoryLayout) (v : Var) : option Z :=
  offset <$> l !! name v.

(** The state after the first [n] operators of the graph. *)
Definition state_after (n : nat) (graph : Graph) (variables : list Var)
  : result State :=
  st ← initial_state graph variables;
  for_each process_operator (take n (operators_in_order graph)) st.

(** A linear chain [X -> Op1 -> Y -> Op2 -> Z]: one graph input of size 4,
    [Y] of size 4 consumed once, [Z] of size 4 never consumed. *)
Module LinearChain.
Definition X := mkVar "X" 4 false 1.
Definition Y := mkVar "Y" 4 false 1.
Definition Z := mkVar "Z" 4 false 0.
Definition Op1 := mkOperator false [Plain X] [Plain Y].
Definition Op2 := mkOperator false [Plain Y] [Plain Z].
Definition graph := mkGraph [Plain X] [Op1; Op2].
Definition variables := [X; Y; Z].

(** What is observed of a state: the offsets of [X], [Y] and [Z], the
    retain count of [X], the free list and the layout's size. *)
Definition observe (st : State) :=
  (offset_in (layout st) X, offset_in (layout st) Y, offset_in (layout st) Z,
   retain_count st !! X, free_list st, layout_size (layout st)).

End LinearChain.

(** [X -> Flatten -> Y -> ReLU -> Z] with [X] the graph input. *)
Module FlattenChain.
Section scenario.

Variables X Y Z : Var.

Definition Flatten := mkOperator true [Plain X] [Plain Y].
Definition ReLU := mkOperator false [Plain Y] [Plain Z].
Definition graph := mkGraph [Plain X] [Flatten; ReLU].
Definition variables := [X; Y; Z].

End scenario.

(** The scenario with 4 elements in every value. *)
Definition X4 := mkVar "X" 4 false 1.
Definition Y4 := mkVar "Y" 4 false 1.
Definition Z4 := mkVar "Z" 4 false 0.

(** The same chain behind an operator that produces [X] from a graph input
    [P], so that [X] is not at the start of the arena. *)
Definition P4 := mkVar "P" 4 false 1.
Definition produced_graph := mkGraph [Plain P4] [
  mkOperator false [Plain P4] [Plain X4]; Flatten X4 Y4; ReLU Y4 Z4].
Definition produced_variables := [P4; X4; Y4; Z4].

End FlattenChain.

(** Releasing an empty block [(o, 0)] into [fl]: what the loop can hold
    while the snapshot's blocks of [fl] are visited: the free list with the empty block still in it, or the free
    list alone, with a neighbour of the empty block playing [space1]. *)
Definition zero_inv (fl : list Space) (o : Z)
    (st : list Space * Space * bool) : Prop :=
  (st.1.1 ≡ₚ fl ++ [(o, 0)] /\ st.1.2 = (o, 0)) \/
  (st.1.1 ≡ₚ fl /\ st.1.2 ∈ fl /\ (st.1.2.1 = o \/ st.1.2.1 + st.1.2.2 = o)).

(** A value of size 0 between two operators: [X -> Op1 -> V -> Op2 -> Z]. *)
Module ZeroSize.
Definition X := mkVar "X" 4 false 1.
Definition V := mkVar "V" 0 false 1.
Definition Zout := mkVar "Z" 4 false 0.
Definition Op1 := mkOperator false [Plain X] [Plain V].
Definition Op2 := mkOperator false [Plain V] [Plain Zout].
Definition graph := mkGraph [Plain X] [Op1; Op2].
Definition variables := [X; V; Zout].

(** A graph on which a value of size 0 is released and the pass
    completes. Two graph inputs are released through [Flatten] operators,
    [I2] twice, which leaves the blocks [(2, 2)] and [(4, 4)] side by
    side in the free list when [V0], stored at offset 4, is released. *)
Definition I1 := mkVar "I1" 2 false 1.
Definition I2 := mkVar "I2" 2 false 2.
Definition C := mkVar "C" 1 true 3.
Definition V0 := mkVar "V0" 0 false 1.
Definition W := mkVar "W" 4 false 1.
Definition Y1 := mkVar "Y1" 2 false 1.
Definition Y2 := mkVar "Y2" 2 false 1.
Definition Y3 := mkVar "Y3" 2 false 1.
Definition T := mkVar "T" 16 false 0.
Definition U := mkVar "U" 4 false 0.
Definition Q := mkVar "Q" 16 false 0.
Definition R := mkVar "R" 1 false 0.
Definition merged_graph := mkGraph [Plain I1; Plain I2] [
  mkOperator false [Plain C] [Plain V0];
  mkOperator false [Plain C] [Plain W];
  mkOperator true [Plain I2] [Plain Y1];
  mkOperator true [Plain I1] [Plain Y2];
  mkOperator false [Plain W] [Plain T];
  mkOperator true [Plain I2] [Plain Y3];
  mkOperator false [Plain C] [Plain U];
  mkOperator false [Plain V0] [Plain Q];
  mkOperator false [Plain Y1; Plain Y2; Plain Y3] [Plain R]].
Definition merged_variables := [I1; I2; V0; W; Y1; Y2; Y3; T; U; Q; R].

End ZeroSize.

(** Two adjacent blocks are released while another free block has the size
    of their union. *)
Module TieBreak.
Definition I := mkVar "I" 1 false 5.
Definition P := mkVar "P" 8 false 1.
Definition G := mkVar "G" 1 false 0.
Definition A := mkVar "A" 4 false 1.
Definition B := mkVar "B" 4 false 1.
Definition K := mkVar "K" 1 false 0.
Definition W := mkVar "W" 8 false 0.
Definition graph := mkGraph [Plain I] [
  mkOperator false [Plain I] [Plain P];
  mkOperator false [Plain I] [Plain G];
  mkOperator false [Plain I] [Plain A];
  mkOperator false [Plain I] [Plain B];
  mkOperator false [Plain P; Plain A; Plain B] [Plain K];
  mkOperator false [Plain I] [Plain W]].
Definition variables := [I; P; G; A; B; K; W].

End TieBreak.

(** ** Bytes covered by the free list *)

(** Element [p] of the arena lies in the block. *)
Definition in_block (b : Space) (p : Z) : Prop := b.1 <= p < b.1 + b.2.

#[global] Instance in_block_dec b p : Decision (in_block b p).
Proof. unfold in_block. apply _. Defined.

(** 1 when the block holds element [p], 0 otherwise. *)
Definition holds (b : Space) (p : Z) : nat :=
  if decide (in_block b p) then 1%nat else 0%nat.

(** The number of blocks of the list that hold element [p]. *)
Definition cover (fl : list Space) (p : Z) : nat :=
  length (filter (fun b => in_block b p) fl).

(** Blocks at non-negative offsets, of non-negative size. *)
Definition sane (b : Space) : Prop := 0 <= b.1 /\ 0 <= b.2.

(** ** The pass as a sequence of events *)

(** The operator loop visits, for each operator in order, its outputs and
    then its inputs. *)
Inductive event :=
| Produce (op : Operator) (var : Node)
| Consume (var : Node).

Definition events_of (op : Operator) : list event :=
  (Produce op <$> outputs op) ++ (Consume <$> inputs op).

Definition events (ops : list Operator) : list event :=
  concat (events_of <$> ops).

Definition step (e : event) (st : State) : result State :=
  match e with
  | Produce op var => process_output op var st
  | Consume var => process_input var st
  end.

(** The value whose block the event releases, if any: the backing value of
    a consumed input whose retain count is about to reach 0. *)
Definition released_by (e : event) (st : State) : option Var :=
  match e with
  | Produce _ _ => None
  | Consume var =>
      let var := resolve var in
      if is_constant var then None
      else
        let v2 := default var (inplace_allocation_dict st !! var) in
        match retain_count st !! v2 with
        | Some c => if c - 1 =? 0 then Some v2 else None
        | None => None
        end
  end.

(** The values released while the events run from [st]. *)
Fixpoint released (es : list event) (st : State) : list Var :=
  match es with
  | [] => []
  | e :: es' =>
      option_list (released_by e st) ++
      match step e st with
      | Ok st' => released es' st'
      | Raise _ => []
      end
  end.

(** The values released during [allocate_variables]. *)
Definition released_during (graph : Graph) (variables : list Var) : list Var :=
  match initial_state graph variables with
  | Ok st => released (events (operators_in_order graph)) st
  | Raise _ => []
  end.

(** ** The invariant of a pass without pass-through operators *)

(** The block of an allocation. *)
Definition block (a : Allocation) : Space := (offset a, alloc_size a).

(** No element of the arena lies in both blocks. *)
Definition disjoint_blocks (b c : Space) : Prop :=
  forall p, ~ (in_block b p /\ in_block c p).

(** The entries of a layout are filed under their value's name, at
    non-negative offsets, with non-negative sizes. *)
Definition entries_ok (l : MemoryLayout) : Prop :=
  forall n a, l !! n = Some a ->
    name (variable a) = n /\ 0 <= offset a /\ 0 <= alloc_size a.

(** [R] lists the values released so far. Elements of the arena are held
    by at most one block of the free list or one live value, never both. *)
Record good_state (R : list Var) (st : State) : Prop := {
  good_entries : entries_ok (layout st);
  good_free : Forall sane (free_list st);
  good_arena : forall p, (0 < cover (free_list st) p)%nat ->
                 p < layout_size (layout st);
  good_cover : forall p, (cover (free_list st) p <= 1)%nat;
  good_live_free : forall n a, layout st !! n = Some a -> variable a ∉ R ->
                     forall p, in_block (block a) p ->
                       cover (free_list st) p = 0%nat;
  good_live_live : forall n1 n2 a1 a2, n1 <> n2 ->
                     layout st !! n1 = Some a1 -> layout st !! n2 = Some a2 ->
                     variable a1 ∉ R -> variable a2 ∉ R ->
                     disjoint_blocks (block a1) (block a2);
  good_released : forall v, v ∈ R ->
                    (forall c, retain_count st !! v = Some c -> c <= 0) /\
                    exists a, layout st !! name v = Some a /\ variable a = v;
  good_retained : forall v c, retain_count st !! v = Some c -> 0 < c ->
                    exists a, layout st !! name v = Some a /\ variable a = v;
  good_no_alias : inplace_allocation_dict st = ∅
}.

(** Seeding the graph inputs. *)
Definition seeded_ok (l : MemoryLayout) : Prop :=
  entries_ok l /\
  forall n1 n2 a1 a2, n1 <> n2 -> l !! n1 = Some a1 -> l !! n2 = Some a2 ->
    disjoint_blocks (block a1) (block a2).

(** Events of a pass without pass-through operators, on values of
    non-negative size. *)
Definition plain_event (e : event) : Prop :=
  match e with
  | Produce op var => is_flatten op = false /\ 0 <= size (resolve var)
  | Consume _ => True
  end.

(** ** Graphs without pass-through operators *)

Definition no_pass_through (graph : Graph) : Prop :=
  Forall (fun op => is_flatten op = false) (operators_in_order graph).

Definition sizes_nonneg (graph : Graph) : Prop :=
  (forall n, n ∈ graph_inputs graph -> 0 <= size (resolve n)) /\
  Forall (fun op => forall n, n ∈ outputs op -> 0 <= size (resolve n))
         (operators_in_order graph).

(** A chain of four values: [Y] is released after [Op2] and its block
    serves [W]. *)
Module Reuse.
Definition X := mkVar "X" 4 false 1.
Definition Y := mkVar "Y" 4 false 1.
Definition Z := mkVar "Z" 4 false 1.
Definition W := mkVar "W" 4 false 0.
Definition graph := mkGraph [Plain X] [
  mkOperator false [Plain X] [Plain Y];
  mkOperator false [Plain Y] [Plain Z];
  mkOperator false [Plain Z] [Plain W]].
Definition variables := [X; Y; Z; W].

End Reuse.

(** A graph input consumed by two [Flatten] operators is released twice,
    and the two copies of its block serve [Z1] and [Z2]. *)
Module DoubleRelease.
Definition X := mkVar "X" 4 false 2.
Definition Y1 := mkVar "Y1" 4 false 1.
Definition Y2 := mkVar "Y2" 4 false 1.
Definition Z1 := mkVar "Z1" 4 false 0.
Definition Z2 := mkVar "Z2" 4 false 0.
Definition graph := mkGraph [Plain X] [
  mkOperator true [Plain X] [Plain Y1];
  mkOperator true [Plain X] [Plain Y2];
  mkOperator false [Plain Y1] [Plain Z1];
  mkOperator false [Plain Y2] [Plain Z2]].
Definition variables := [X; Y1; Y2; Z1; Z2].

End DoubleRelease.

(** The output of a [Flatten] that nobody consumes: [V] shares the block
    of [X], which is released once the [Flatten] has consumed it and then
    serves [W]. *)
Module DeadAlias.
Definition I := mkVar "I" 4 false 2.
Definition X := mkVar "X" 4 false 1.
Definition V := mkVar "V" 4 false 0.
Definition W := mkVar "W" 4 false 0.
Definition graph := mkGraph [Plain I] [
  mkOperator false [Plain I] [Plain X];
  mkOperator true [Plain X] [Plain V];
  mkOperator false [Plain I] [Plain W]].
Definition variables := [I; X; V; W].

End DeadAlias.

(** * The rest of the module *)

(** ** Serializable projections *)

(** [Allocation._to_serializable_] *)
Record SerializedAllocation := mkSerializedAllocation {
  s_name : string;
  s_offset : Z;
  s_size : Z
}.

Definition allocation_to_serializable (a : Allocation) : SerializedAllocation :=
  {| s_name := name (variable a); s_offset := offset a; s_size := alloc_size a |}.

(** [MemoryLayout._to_serializable_]: ["total_size"] and ["allocation"],
    the dictionary comprehension [{a.variable.name: a for _, a in ...}].
    The comprehension files every allocation again, under its value's name;
    the order of the entries matters only when two of them carry the same
    name. *)
Definition layout_to_serializable (l : MemoryLayout)
  : Z * gmap string Allocation :=
  (layout_size l,
   map_fold (fun _ a acc => <[name (variable a) := a]> acc) ∅ l).

(** The layouts that [MemoryLayout()] and [append] build. *)
Inductive built : MemoryLayout -> Prop :=
| built_empty : built ∅
| built_append l var ofs : built l -> built (append l var ofs).

(** Every allocation is filed under the name of its value. *)
Definition keyed_by_name (l : MemoryLayout) : Prop :=
  forall n a, l !! n = Some a -> name (variable a) = n.

(** ** Free lists without overlap *)

(** Blocks of positive size no two of which hold a common element. *)
Definition clean (fl : list Space) : Prop :=
  Forall (fun b => 0 < b.2) fl /\ forall p, (cover fl p <= 1)%nat.

(** [x] lies inside [s]. *)
Definition inside (x s : Space) : Prop :=
  0 < x.2 /\ s.1 <= x.1 /\ x.1 + x.2 <= s.1 + s.2.

(** What a turn of the loop keeps, for the part [xs] of the snapshot still
    to be visited: the free list is clean, [space1] is in it, and every
    block still to come is in the free list or inside [space1]. *)
Definition pass_inv (xs : list Space) (st : list Space * Space * bool) : Prop :=
  clean st.1.1 /\ st.1.2 ∈ st.1.1 /\
  Forall (fun x => x ∈ st.1.1 \/ inside x st.1.2) xs.

(** ** The values of a graph *)

(** [v] is a graph input or an output of an operator, aliases resolved. *)
Definition produced_in (graph : Graph) (v : Var) : Prop :=
  (exists n, n ∈ graph_inputs graph /\ resolve n = v) \/
  (exists op n, op ∈ operators_in_order graph /\ n ∈ outputs op /\
                resolve n = v).

(** The entries of a layout are values of the graph that are not constant,
    each under its own name. *)
Definition entries_from (graph : Graph) (l : MemoryLayout) : Prop :=
  forall n a, l !! n = Some a ->
    name (variable a) = n /\ is_constant (variable a) = false /\
    produced_in graph (variable a).

(** No offset is negative, in the layout or in the free list. *)
Definition offsets_nonneg (st : State) : Prop :=
  (forall n a, layout st !! n = Some a -> 0 <= offset a) /\
  Forall (fun b => 0 <= b.1) (free_list st).



(** ** Graphs on which the pass completes *)

Definition sizes_positive (graph : Graph) : Prop :=
  (forall n, n ∈ graph_inputs graph -> 0 < size (resolve n)) /\
  Forall (fun op => forall n, n ∈ outputs op -> 0 < size (resolve n))
         (operators_in_order graph).


(** What is asked of one event for it to complete. *)
Definition ready_event (variables : list Var) (e : event) : Prop :=
  match e with
  | Produce op var => is_flatten op = false /\ 0 < size (resolve var)
  | Consume var => is_constant (resolve var) = false ->
                   resolve var ∈ variables
  end.

(** ** The arena and the sizes it holds *)

(** The sum of the sizes of the allocations of a layout. *)
Definition total_sizes (l : MemoryLayout) : Z :=
  map_fold (fun _ a acc => alloc_size a + acc) 0 l.

(** The names under which the seed loop files the graph inputs. *)
Definition seeded_names (ins : list Node) : list string :=
  name <$> filter (fun v => is_constant v = false) (resolve <$> ins).

(** What the pass keeps on any graph: sizes are not negative, every free
    block ends inside the arena, and the arena is no longer than the sizes
    it holds. *)
Definition arena_inv (st : State) : Prop :=
  (forall n a, layout st !! n = Some a -> 0 <= alloc_size a) /\
  Forall (fun b => b.1 + b.2 <= layout_size (layout st)) (free_list st) /\
  layout_size (layout st) <= total_sizes (layout st).

(** ** Allocator.allocate_constants

    A constant is a [ConstantVariable] with its [data.flatten()], a list of
    elements of some type [A]; the buffer holds elements of type [F]
    ([np.float32]), and [to_float32] is the conversion an assignment into
    the buffer applies to each element. *)

(** [np.zeros(n, dtype=np.float32)]: a negative length is refused. *)
Definition np_zeros {F} (zero : F) (n : Z) : result (list F) :=
  if n <? 0 then Raise ValueError else Ok (replicate (Z.to_nat n) zero).

(** A bound of a slice of a sequence of length [len]: negative bounds count
    from the end, and bounds are clipped to the sequence. *)
Definition slice_index (len i : Z) : Z :=
  if i <? 0 then Z.max (i + len) 0 else Z.min i len.

(** [buffer[start:stop] = values] on one-dimensional arrays: the values
    must be as many as the slice is long, or a single one, which is then
    repeated; otherwise the shapes cannot be broadcast. *)
Definition assign_slice {F} (buffer : list F) (start stop : Z)
    (values : list F) : result (list F) :=
  let len := Z.of_nat (length buffer) in
  let lo := slice_index len start in
  let hi := Z.max lo (slice_index len stop) in
  let m := Z.to_nat (hi - lo) in
  if decide (length values = m) then
    Ok (take (Z.to_nat lo) buffer ++ values ++ drop (Z.to_nat hi) buffer)
  else
    match values with
    | [v] => Ok (take (Z.to_nat lo) buffer ++ replicate m v
                 ++ drop (Z.to_nat hi) buffer)
    | _ => Raise ValueError
    end.

(** Body of the second [for constant in constants]. *)
Definition write_constant {A F} (to_float32 : A -> F) (l : MemoryLayout)
    (constant : Var * list A) (buffer : list F) : result (list F) :=
  allocation ← layout_get l constant.1;
  assign_slice buffer (offset allocation)
               (offset allocation + alloc_size allocation)
               (to_float32 <$> constant.2).

(** [Allocator.allocate_constants]: the layout, then the buffer. *)
Definition allocate_constants {A F} (zero : F) (to_float32 : A -> F)
    (constants : list (Var * list A)) : result (MemoryLayout * list F) :=
  layout ← constants_layout (fst <$> constants);
  buffer ← np_zeros zero (layout_size layout);
  buffer ← for_each (write_constant to_float32 layout) constants buffer;
  Ok (layout, buffer).

(** ** Chains of adjacent blocks *)

(** The blocks of sizes [sizes] laid one behind the other from offset
    [a]. *)
Fixpoint chain (a : Z) (sizes : list Z) : list Space :=
  match sizes with
  | [] => []
  | s :: sizes' => (a, s) :: chain (a + s) sizes'
  end.

Definition chain_size (sizes : list Z) : Z := foldr Z.add 0 sizes.

(** Releasing blocks one after the other. *)
Definition release_all (blocks : list Space) (fl : list Space)
  : result (list Space) :=
  for_each (fun b fl => release fl b) blocks fl.

(** A piece of the chain [ch]: it is not empty, starts where a block of
    the chain starts and ends where one ends. *)
Definition piece (ch : list Space) (s : Space) : Prop :=
  0 < s.2 /\ (exists b, b ∈ ch /\ b.1 = s.1) /\
  (exists b, b ∈ ch /\ b.1 + b.2 = s.1 + s.2).

(** No block of the list ends where a block of the list starts. *)
Definition settled (fl : list Space) : Prop :=
  forall x y, x ∈ fl -> y ∈ fl -> x.1 + x.2 <> y.1.

(** What the releases of a chain keep, for the pieces [G] in the free list
    and the blocks [D] released so far. *)
Definition pieces_inv (ch G D : list Space) : Prop :=
  clean G /\ Forall sane G /\ Forall (piece ch) G /\ settled G /\
  forall p, cover G p = cover D p.

(** A graph input that carries the name of the method [append]. *)
Module Shadowed.
Definition P := mkVar "append" 4 false 1.
Definition Y := mkVar "Y" 4 false 0.
Definition graph := mkGraph [Plain P] [
  mkOperator false [Plain P] [Plain Y]].
Definition variables := [P; Y].

End Shadowed.

(** * Properties *)

(** ** MemoryLayout.size *)

Lemma layout_size_empty : layout_size ∅ = 0.
Proof. unfold layout_size. by rewrite map_fold_empty. Qed.

Lemma layout_size_insert_fresh (l : MemoryLayout) n a :
  l !! n = None ->
  layout_size (<[n:=a]> l) = Z.max (extent a) (layout_size l).
Proof.
  intros Hn. unfold layout_size, extent.
  rewrite map_fold_insert_L; [done| |done].
  intros; lia.
Qed.

Lemma layout_size_insert (l : MemoryLayout) n a :
  layout_size (<[n:=a]> l) = Z.max (extent a) (layout_size (delete n l)).
Proof.
  rewrite <- insert_delete_eq.
  apply layout_size_insert_fresh, lookup_delete_eq.
Qed.

Lemma layout_size_nonneg (l : MemoryLayout) : 0 <= layout_size l.
Proof.
  unfold layout_size.
  apply (map_fold_weak_ind (fun sz _ => 0 <= sz)); [lia|].
  intros; lia.
Qed.

Lemma layout_size_ub (l : MemoryLayout) n a :
  l !! n = Some a -> extent a <= layout_size l.
Proof.
  revert n a. induction l as [|k b m Hk IH] using map_ind; intros n a Hl.
  - by rewrite lookup_empty in Hl.
  - rewrite layout_size_insert_fresh by done.
    destruct (decide (k = n)) as [->|Hne].
    + rewrite lookup_insert_eq in Hl. simplify_eq. lia.
    + rewrite lookup_insert_ne in Hl by done.
      specialize (IH _ _ Hl). lia.
Qed.

Lemma layout_size_attained (l : MemoryLayout) :
  layout_size l = 0 \/
  exists n a, l !! n = Some a /\ layout_size l = extent a.
Proof.
  induction l as [|k b m Hk IH] using map_ind.
  - left. apply layout_size_empty.
  - rewrite layout_size_insert_fresh by done.
    destruct (Z.max_spec (extent b) (layout_size m)) as [[Hlt ->]|[Hle ->]].
    + destruct IH as [IH|(n & a & Hn & IH)]; [by left|].
      right. exists n, a. split; [|done].
      rewrite lookup_insert_ne; [done|]. intros ->. congruence.
    + right. exists k, b. by rewrite lookup_insert_eq.
Qed.

Lemma layout_size_append l var ofs :
  layout_size (append l var ofs)
  = Z.max (append_offset l ofs + size (resolve var))
          (layout_size (delete (name (resolve var)) l)).
Proof. unfold append. by rewrite layout_size_insert. Qed.

(** C9. [MemoryLayout.size] is a function of the dictionary only: it is 0
    for the empty layout, never negative, an upper bound of [offset + size]
    of every allocation, and reached by one of them (unless it is 0; always,
    in a layout that is not empty and whose allocations end at or after 0);
    after an [append], also one that overwrites an entry, it is the maximum
    of the new allocation's end and of the size of the layout without the
    overwritten entry. *)
Theorem layout_size_is_recomputed_max (l : MemoryLayout) :
  layout_size (∅ : MemoryLayout) = 0 /\
  0 <= layout_size l /\
  (forall n a, l !! n = Some a -> offset a + alloc_size a <= layout_size l) /\
  (layout_size l = 0 \/
   exists n a, l !! n = Some a /\ layout_size l = offset a + alloc_size a) /\
  (l <> ∅ ->
   (forall n a, l !! n = Some a -> 0 <= offset a + alloc_size a) ->
   exists n a, l !! n = Some a /\ layout_size l = offset a + alloc_size a) /\
  (forall var ofs,
     layout_size (append l var ofs)
     = Z.max (append_offset l ofs + size (resolve var))
             (layout_size (delete (name (resolve var)) l))).
Proof.
  split; [apply layout_size_empty|].
  split; [apply layout_size_nonneg|].
  split; [apply layout_size_ub|].
  split; [apply layout_size_attained|].
  split; [|apply layout_size_append].
  intros Hne Hpos.
  destruct (layout_size_attained l) as [H0|H]; [|done].
  destruct (map_choose l Hne) as (n & a & Hn).
  exists n, a. split; [done|].
  pose proof (Hpos _ _ Hn). pose proof (layout_size_ub _ _ _ Hn).
  unfold extent in *. lia.
Qed.

(** ** The call of [append] *)

Lemma call_append_Ok l var ofs :
  l !! "append" = None -> call_append l var ofs = Ok (append l var ofs).
Proof.
  intros H. unfold call_append.
  rewrite bool_decide_eq_false_2; [done|]. rewrite H. by intros [? ?].
Qed.

Lemma call_append_inv l var ofs l' :
  call_append l var ofs = Ok l' ->
  l !! "append" = None /\ l' = append l var ofs.
Proof.
  unfold call_append. case_bool_decide as H; [done|]. intros [= <-].
  split; [|done]. destruct (l !! "append") eqn:E; [|done].
  destruct H. by eexists.
Qed.

Lemma call_append_Raise l var ofs e :
  call_append l var ofs = Raise e ->
  is_Some (l !! "append") /\ e = TypeError.
Proof. unfold call_append. case_bool_decide as H; [|done]. by intros [= <-]. Qed.

Lemma call_append_shadowed l var ofs :
  is_Some (l !! "append") -> call_append l var ofs = Raise TypeError.
Proof. intros H. unfold call_append. by rewrite bool_decide_eq_true_2. Qed.

(** ** Allocator.allocate_constants *)

Lemma distinct_by_name_fresh seen cs c :
  c ∈ distinct_by_name seen cs -> name c ∉ seen.
Proof.
  revert seen. induction cs as [|d cs IH]; intros seen; simpl.
  - by intros ?%elem_of_nil.
  - case_bool_decide as Hd.
    + apply IH.
    + intros [->|Hc]%elem_of_cons; [done|].
      apply IH in Hc. set_solver.
Qed.

Lemma distinct_by_name_NoDup seen cs :
  NoDup (name <$> distinct_by_name seen cs).
Proof.
  revert seen. induction cs as [|d cs IH]; intros seen; simpl.
  - constructor.
  - case_bool_decide as Hd; [apply IH|].
    rewrite fmap_cons. constructor; [|apply IH].
    intros (c & Hc & Hin)%list_elem_of_fmap.
    apply distinct_by_name_fresh in Hin. set_solver.
Qed.

Lemma distinct_by_name_covers seen cs c :
  c ∈ cs -> name c ∈ seen \/ name c ∈ name <$> distinct_by_name seen cs.
Proof.
  revert seen. induction cs as [|d cs IH]; intros seen; simpl.
  - by intros ?%elem_of_nil.
  - intros [->|Hc]%elem_of_cons.
    + case_bool_decide; [by left|]. right. rewrite fmap_cons. set_solver.
    + case_bool_decide.
      * by apply IH.
      * destruct (IH (name d :: seen) Hc) as [Hs|Hs].
        -- apply elem_of_cons in Hs as [Hs|Hs]; [|by left].
           right. rewrite fmap_cons, Hs. set_solver.
        -- right. rewrite fmap_cons. set_solver.
Qed.

Lemma bind_Ok {A B} (a : A) (k : A -> result B) : (Ok a ≫= k) = k a.
Proof. reflexivity. Qed.

Lemma bind_Raise {A B} e (k : A -> result B) : (Raise e ≫= k) = Raise e.
Proof. reflexivity. Qed.

Lemma bind_Ok_inv {A B} (r : result A) (k : A -> result B) b :
  r ≫= k = Ok b -> exists a, r = Ok a /\ k a = Ok b.
Proof. destruct r as [a|e]; [|done]. intros H. by exists a. Qed.

Lemma for_each_cons {A S} (f : A -> S -> result S) x xs st :
  for_each f (x :: xs) st = f x st ≫= for_each f xs.
Proof. reflexivity. Qed.

Lemma for_each_app {A S} (f : A -> S -> result S) xs ys st :
  for_each f (xs ++ ys) st = for_each f xs st ≫= for_each f ys.
Proof.
  revert st. induction xs as [|x xs IH]; intros st; [done|].
  rewrite <- app_comm_cons, !for_each_cons.
  destruct (f x st); simpl; [apply IH|done].
Qed.

Lemma pack_constant_present l c :
  is_Some (l !! name c) -> pack_constant c l = Ok l.
Proof.
  intros H. unfold pack_constant, layout_contains.
  by rewrite bool_decide_eq_true_2.
Qed.

Lemma pack_constant_absent l c :
  l !! name c = None -> pack_constant c l = call_append l (Plain c) (-1).
Proof.
  intros H. unfold pack_constant, layout_contains.
  rewrite bool_decide_eq_false_2; [done|]. rewrite H. by intros [? ?].
Qed.

Lemma pack_constants_loop cs : forall (l : MemoryLayout) seen L,
  (forall n, n ∈ seen <-> is_Some (l !! n)) ->
  (forall c, c ∈ cs -> 0 <= size c) ->
  for_each pack_constant cs l = Ok L ->
  (forall n a, L !! n = Some a <->
     l !! n = Some a \/
     (n, a) ∈ packed (layout_size l) (distinct_by_name seen cs)) /\
  layout_size L = layout_size l + sum_sizes (distinct_by_name seen cs).
Proof.
  induction cs as [|c cs IH]; intros l seen L Hseen Hsz.
  - intros [= <-]. split; [|simpl; lia].
    intros n a. split; [by left|]. intros [?|?%elem_of_nil]; done.
  - assert (Hsz' : forall d, d ∈ cs -> 0 <= size d)
      by (intros; apply Hsz, elem_of_cons; auto).
    assert (Hc : 0 <= size c) by (apply Hsz, elem_of_cons; auto).
    rewrite for_each_cons. cbn [distinct_by_name].
    destruct (decide (name c ∈ seen)) as [Hin|Hin].
    { rewrite pack_constant_present by (by apply Hseen).
      rewrite bool_decide_eq_true_2 by done. rewrite bind_Ok.
      by apply IH. }
    assert (Hfresh : l !! name c = None).
    { destruct (l !! name c) eqn:E; [|done]. exfalso.
      apply Hin, Hseen. eauto. }
    rewrite pack_constant_absent by done.
    rewrite bool_decide_eq_false_2 by done.
    intros (l' & [_ Hl']%call_append_inv & Hrest)%bind_Ok_inv.
    cbn [packed sum_sizes foldr].
    assert (Hsize : layout_size l' = layout_size l + size c).
    { subst l'. unfold append. simpl.
      rewrite layout_size_insert_fresh by done. unfold extent, alloc_size. simpl. lia. }
    destruct (IH l' (name c :: seen) L) as (Hlk & Htot); [|done|done|].
    { intros n. subst l'. unfold append. simpl.
      rewrite elem_of_cons, Hseen.
      destruct (decide (n = name c)) as [->|Hne].
      - rewrite lookup_insert_eq. naive_solver.
      - rewrite lookup_insert_ne by done. naive_solver. }
    split.
    * intros n a. rewrite Hlk, Hsize, elem_of_cons.
      subst l'. unfold append. simpl.
      destruct (decide (n = name c)) as [->|Hne].
      -- rewrite lookup_insert_eq, Hfresh.
         split.
         ++ intros [Ha|Hp]; [right; left; congruence|by right; right].
         ++ intros [?|[?|Hp]]; [done|left; congruence|by right].
      -- rewrite lookup_insert_ne by done.
         split.
         ++ intros [Ha|Hp]; [by left|by right; right].
         ++ intros [?|[?|Hp]]; [by left|congruence|by right].
    * rewrite Htot, Hsize. unfold sum_sizes. lia.
Qed.


Lemma distinct_by_name_first seen cs d :
  d ∈ distinct_by_name seen cs ->
  find (fun x => bool_decide (name x = name d)) cs = Some d.
Proof.
  revert seen. induction cs as [|c cs IH]; intros seen; cbn [distinct_by_name find].
  - by intros ?%elem_of_nil.
  - destruct (decide (name c ∈ seen)) as [Hin|Hin].
    + rewrite (bool_decide_eq_true_2 (_ ∈ _)) by done.
      intros Hd. pose proof (distinct_by_name_fresh _ _ _ Hd) as Hfr.
      rewrite bool_decide_eq_false_2 by congruence. by eapply IH.
    + rewrite (bool_decide_eq_false_2 (_ ∈ _)) by done.
      intros [->|Hd]%elem_of_cons.
      * by rewrite bool_decide_eq_true_2.
      * pose proof (distinct_by_name_fresh _ _ _ Hd) as Hfr.
        rewrite bool_decide_eq_false_2; [by eapply IH|].
        intros Heq. apply Hfr. rewrite Heq. apply elem_of_cons. by left.
Qed.

Lemma slice_index_range len i : 0 <= len -> 0 <= slice_index len i <= len.
Proof. intros H. unfold slice_index. destruct (i <? 0) eqn:E; lia. Qed.

Lemma assign_slice_length {F} (buffer : list F) start stop values out :
  assign_slice buffer start stop values = Ok out ->
  length out = length buffer.
Proof.
  unfold assign_slice.
  pose proof (slice_index_range (Z.of_nat (length buffer)) start
                ltac:(lia)) as Hlo.
  pose proof (slice_index_range (Z.of_nat (length buffer)) stop
                ltac:(lia)) as Hhi.
  set (lo := slice_index _ start) in *. set (hi := slice_index _ stop) in *.
  case_decide as Hlen.
  - intros [= <-]. rewrite !length_app, length_take, length_drop. lia.
  - destruct values as [|v [|? ?]]; [done| |done].
    intros [= <-].
    rewrite !length_app, length_take, length_drop, length_replicate. lia.
Qed.

Lemma write_constants_length {A F} (to_float32 : A -> F) (L : MemoryLayout)
    (cs : list (Var * list A)) : forall buffer out : list F,
  for_each (write_constant to_float32 L) cs buffer = Ok out ->
  length out = length buffer.
Proof.
  induction cs as [|c cs IH]; intros buffer out; [by intros [= <-]|].
  rewrite for_each_cons. intros (b1 & E1 & Hrest)%bind_Ok_inv.
  rewrite (IH _ _ Hrest). unfold write_constant in E1.
  apply bind_Ok_inv in E1 as (a & _ & E1). by eapply assign_slice_length.
Qed.

(** C8. Whenever [allocate_constants] returns, for constants of
    non-negative size, its layout holds exactly the back-to-back packing,
    from offset 0 and in input order, of the first constant of each name:
    no name occurs twice, every input constant's name is there and is bound
    to the first constant of that name, and the layout's size is the sum of
    the sizes of these distinct constants; the buffer is as long as the
    layout is large. *)
Theorem allocate_constants_packed {A F} (zero : F) (to_float32 : A -> F)
    (constants : list (Var * list A)) (L : MemoryLayout) (buffer : list F) :
  (forall c, c ∈ fst <$> constants -> 0 <= size c) ->
  allocate_constants zero to_float32 constants = Ok (L, buffer) ->
  NoDup (name <$> distinct_by_name [] (fst <$> constants)) /\
  (forall n a, L !! n = Some a <->
               (n, a) ∈ packed 0 (distinct_by_name [] (fst <$> constants))) /\
  (forall c, c ∈ fst <$> constants ->
     exists a, L !! name c = Some a /\
       find (fun x => bool_decide (name x = name c)) (fst <$> constants)
       = Some (variable a)) /\
  layout_size L = sum_sizes (distinct_by_name [] (fst <$> constants)) /\
  Z.of_nat (length buffer) = layout_size L.
Proof.
  intros Hsz. unfold allocate_constants, constants_layout.
  intros (L0 & HL & Hbuf)%bind_Ok_inv.
  apply bind_Ok_inv in Hbuf as (b0 & Hzero & Hbuf).
  apply bind_Ok_inv in Hbuf as (b1 & Hwrite & [= <- <-]).
  destruct (pack_constants_loop (fst <$> constants) ∅ [] L0) as (Hlk & Htot);
    [|done|done|].
  { intros n. rewrite lookup_empty, elem_of_nil. split; [done|by intros [? ?]]. }
  rewrite layout_size_empty in *.
  assert (Hlk' : forall n a, L0 !! n = Some a <->
            (n, a) ∈ packed 0 (distinct_by_name [] (fst <$> constants))).
  { intros n a. rewrite Hlk, lookup_empty. naive_solver. }
  split; [apply distinct_by_name_NoDup|].
  split; [done|]. split; [|split; [lia|]].
  - intros c Hc.
    destruct (distinct_by_name_covers [] _ _ Hc) as [?%elem_of_nil|Hn]; [done|].
    apply list_elem_of_fmap in Hn as (d & Hnd & Hd).
    assert (Hex : exists a,
              (name d, a) ∈ packed 0 (distinct_by_name [] (fst <$> constants))
              /\ variable a = d).
    { clear -Hd. generalize 0. revert Hd.
      generalize (distinct_by_name [] (fst <$> constants)). intros l.
      induction l as [|e l IH]; intros Hd z; [by apply elem_of_nil in Hd|].
      apply elem_of_cons in Hd as [->|Hd]; cbn [packed].
      - eexists. split; [apply elem_of_cons; by left|done].
      - destruct (IH Hd (z + size e)) as (a & Ha & Hv).
        exists a. split; [apply elem_of_cons; by right|done]. }
    destruct Hex as (a & Ha & Hv).
    exists a. rewrite Hnd. split; [by apply Hlk'|].
    rewrite Hv. by eapply distinct_by_name_first.
  - rewrite (write_constants_length _ _ _ _ _ Hwrite).
    unfold np_zeros in Hzero. destruct (layout_size L0 <? 0) eqn:E; [done|].
    injection Hzero as <-. rewrite length_replicate.
    apply Z.ltb_ge in E. lia.
Qed.

(** ** The free list: removal and best fit *)

Lemma list_remove_app x (l1 l2 : list Space) :
  x ∉ l1 -> list_remove x (l1 ++ x :: l2) = Ok (l1 ++ l2).
Proof.
  induction l1 as [|y l1 IH]; intros Hx; simpl.
  - by rewrite decide_True.
  - rewrite decide_False by (intros ->; apply Hx, elem_of_cons; auto).
    rewrite IH; [done|]. intros ?. apply Hx, elem_of_cons; auto.
Qed.

Lemma list_remove_Ok x (l l' : list Space) :
  list_remove x l = Ok l' ->
  exists l1 l2, l = l1 ++ x :: l2 /\ l' = l1 ++ l2 /\ (x ∉ l1).
Proof.
  revert l'. induction l as [|y l IH]; intros l'; simpl; [done|].
  destruct (decide (y = x)) as [->|Hne].
  - intros [= <-]. exists [], l. split; [done|]. split; [done|].
    by intros ?%elem_of_nil.
  - destruct (list_remove x l) as [l''|] eqn:E; simpl; [|done].
    intros [= <-]. destruct (IH _ eq_refl) as (l1 & l2 & -> & -> & Hx).
    exists (y :: l1), l2. split; [done|]. split; [done|].
    intros [?|?]%elem_of_cons; [congruence|done].
Qed.

Lemma list_remove_Raise x (l : list Space) e :
  list_remove x l = Raise e -> (x ∉ l) /\ e = ValueError.
Proof.
  induction l as [|y l IH]; simpl.
  - intros [= <-]. split; [by intros ?%elem_of_nil|done].
  - destruct (decide (y = x)) as [->|Hne]; [done|].
    destruct (list_remove x l) as [l''|e'] eqn:E; simpl; [done|].
    intros [= <-]. destruct (IH eq_refl) as [Hx ->]. split; [|done].
    intros [?|?]%elem_of_cons; [congruence|done].
Qed.

Lemma sufficient_spaces_cons a fl sz :
  sufficient_spaces (a :: fl) sz
  = if decide (sz <= a.2) then insert_by_size a (sufficient_spaces fl sz)
    else sufficient_spaces fl sz.
Proof.
  unfold sufficient_spaces. rewrite filter_cons.
  by destruct (decide (sz <= a.2)).
Qed.

Lemma sufficient_spaces_nil fl sz :
  sufficient_spaces fl sz = [] -> forall y, y ∈ fl -> y.2 < sz.
Proof.
  induction fl as [|a fl IH]; [by intros _ y ?%elem_of_nil|].
  rewrite sufficient_spaces_cons.
  destruct (decide (sz <= a.2)) as [Ha|Ha].
  - destruct (sufficient_spaces fl sz) as [|b s]; simpl; [done|].
    by destruct (a.2 <=? b.2).
  - intros Hnil y [->|Hy]%elem_of_cons; [lia|by apply IH].
Qed.

(** The head of the sorted candidates is the first block of the free list
    among those of the least sufficient size. *)
Lemma sufficient_spaces_head fl sz x rest :
  sufficient_spaces fl sz = x :: rest ->
  exists m1 m2, fl = m1 ++ x :: m2 /\ sz <= x.2 /\
    (forall y, y ∈ m1 -> sz <= y.2 -> x.2 < y.2) /\
    (forall y, y ∈ m2 -> sz <= y.2 -> x.2 <= y.2).
Proof.
  revert x rest. induction fl as [|a fl IH]; intros x rest; [done|].
  rewrite sufficient_spaces_cons.
  destruct (decide (sz <= a.2)) as [Ha|Ha].
  - destruct (sufficient_spaces fl sz) as [|b s] eqn:E; simpl.
    + intros [= <- <-]. exists [], fl. split; [done|]. split; [done|].
      split; [by intros y ?%elem_of_nil|].
      intros y Hy Hsz. pose proof (sufficient_spaces_nil _ _ E y Hy). lia.
    + destruct (IH _ _ eq_refl) as (m1 & m2 & -> & Hb & H1 & H2).
      destruct (a.2 <=? b.2) eqn:Hab; intros [= <- <-].
      * apply Z.leb_le in Hab. exists [], (m1 ++ b :: m2).
        split; [done|]. split; [done|].
        split; [by intros y ?%elem_of_nil|].
        intros y [Hy|[->|Hy]%elem_of_cons]%elem_of_app Hsz; [|done|].
        -- specialize (H1 y Hy Hsz). lia.
        -- specialize (H2 y Hy Hsz). lia.
      * apply Z.leb_gt in Hab. exists (a :: m1), m2.
        split; [done|]. split; [done|]. split; [|done].
        intros y [->|Hy]%elem_of_cons Hsz; [lia|by apply H1].
  - intros Hx. destruct (IH _ _ Hx) as (m1 & m2 & -> & Hb & H1 & H2).
    exists (a :: m1), m2. split; [done|]. split; [done|]. split; [|done].
    intros y [->|Hy]%elem_of_cons Hsz; [lia|by apply H1].
Qed.


(** ** The general case of an allocation *)


(** ** Release and coalescing *)

Lemma merge_step_apart x fl s1 flag :
  apart x s1 -> merge_step x (fl, s1, flag) = Ok (fl, s1, flag).
Proof.
  intros [H1 H2]. unfold merge_step.
  apply Z.eqb_neq in H1 as ->. cbn [mbind result_bind].
  by apply Z.eqb_neq in H2 as ->.
Qed.

Lemma merge_pass_apart xs fl s1 flag :
  Forall (fun x => apart x s1) xs ->
  for_each merge_step xs (fl, s1, flag) = Ok (fl, s1, flag).
Proof.
  induction 1 as [|x xs Hx _ IH]; [done|].
  rewrite for_each_cons, merge_step_apart by done. apply IH.
Qed.

(** A block that ends where [s1] starts is merged in front of it. *)
Lemma merge_step_before x fl fl1 fl2 s1 flag :
  x.1 + x.2 = s1.1 -> 0 < x.2 + s1.2 ->
  list_remove s1 fl = Ok fl1 -> list_remove x fl1 = Ok fl2 ->
  merge_step x (fl, s1, flag)
  = Ok (fl2 ++ [(x.1, x.2 + s1.2)], (x.1, x.2 + s1.2), true).
Proof.
  intros H1 Hpos R1 R2. unfold merge_step.
  apply Z.eqb_eq in H1 as ->. rewrite R1. cbn [mbind result_bind].
  rewrite R2. cbn [mbind result_bind fst snd].
  assert (x.1 <> x.1 + (x.2 + s1.2)) as ->%Z.eqb_neq by lia. done.
Qed.

(** A block that starts where [s1] ends is merged behind it. *)
Lemma merge_step_after x fl fl1 fl2 s1 flag :
  x.1 + x.2 <> s1.1 -> x.1 = s1.1 + s1.2 ->
  list_remove s1 fl = Ok fl1 -> list_remove x fl1 = Ok fl2 ->
  merge_step x (fl, s1, flag)
  = Ok (fl2 ++ [(s1.1, x.2 + s1.2)], (s1.1, x.2 + s1.2), true).
Proof.
  intros H1 H2 R1 R2. unfold merge_step.
  apply Z.eqb_neq in H1 as ->. cbn [mbind result_bind].
  apply Z.eqb_eq in H2 as ->. rewrite R1. cbn [mbind result_bind].
  by rewrite R2.
Qed.

Lemma list_remove_last x (l : list Space) :
  x ∉ l -> list_remove x (l ++ [x]) = Ok l.
Proof. intros H. rewrite list_remove_app by done. by rewrite app_nil_r. Qed.

Lemma coalesce_settled fuel fl s1 :
  (0 < fuel)%nat ->
  Forall (fun x => apart x s1) fl -> coalesce fuel fl s1 = Ok fl.
Proof.
  intros Hfuel H. destruct fuel as [|fuel]; [lia|].
  cbn [coalesce]. by rewrite merge_pass_apart.
Qed.

(** Releasing a block that no free block touches only appends it. *)
Lemma release_apart fl s1 :
  0 < s1.2 -> Forall (fun x => apart x s1) fl ->
  release fl s1 = Ok (fl ++ [s1]).
Proof.
  intros Hpos H. unfold release. apply coalesce_settled; [lia|].
  apply Forall_app. split; [done|].
  constructor; [|done]. unfold apart. lia.
Qed.

(** ** Scenarios *)

Lemma state_after_all graph variables :
  state_after (length (operators_in_order graph)) graph variables
  = allocate_variables_state graph variables.
Proof. unfold state_after. by rewrite firstn_all. Qed.

Section linear_chain_facts.
Import LinearChain.

(** C1 (as stated) fails: no run of the scenario puts [Z] at offset 0
    with a layout of size 8. *)
Lemma chain_layout_not_as_claimed :
  ~ exists L, allocate_variables graph variables = Ok L /\
      offset_in L X = Some 0 /\ offset_in L Y = Some 4 /\
      offset_in L Z = Some 0 /\ layout_size L = 8.
Proof.
  intros (L & HL & _ & _ & HZ & _).
  assert (Hrun : (L ← allocate_variables graph variables; Ok (offset_in L Z))
                 = Ok (Some 8)) by (vm_compute; reflexivity).
  rewrite HL, bind_Ok, HZ in Hrun. discriminate.
Qed.

(** C1 (amended). [X] is stored at offset 0 and [Y] at offset 4. The
    retain count of the graph input [X] starts at 0 and is -1 after [Op1],
    so [X] is not released and the free list is still empty when [Z] is
    allocated: [Z] is stored at the end of the arena, offset 8, and the
    layout's size is 12. The only block released is [Y]'s, [(4, 4)],
    after [Op2]. *)
Theorem chain_layout :
  (st ← state_after 0 graph variables; Ok (observe st))
  = Ok (Some 0, None, None, Some 0, [], 4) /\
  (st ← state_after 1 graph variables; Ok (observe st))
  = Ok (Some 0, Some 4, None, Some (-1), [], 8) /\
  (st ← allocate_variables_state graph variables; Ok (observe st))
  = Ok (Some 0, Some 4, Some 8, Some (-1), [(4, 4)], 12).
Proof. repeat split; vm_compute; reflexivity. Qed.

End linear_chain_facts.

(** The pass-through branch on a state in which the first input of the
    operator is known to the layout and to the retain counts. *)
Lemma allocate_inplace_spec (op : Operator) (var : Var) (var_in : Node) rest
    (st : State) (a : Allocation) (c : Z) :
  inputs op = var_in :: rest ->
  layout st !! name (node_obj var_in) = Some a ->
  offset a <> -1 ->
  retain_count st !! node_obj var_in = Some c ->
  layout st !! "append" = None ->
  allocate_inplace op var st
  = Ok (mkState (<[name var := mkAllocation var (offset a)]> (layout st))
                (<[node_obj var_in := c + len_input_to var]> (retain_count st))
                (free_list st)
                (<[var := node_obj var_in]> (inplace_allocation_dict st))).
Proof.
  intros Hin Ha Hofs Hc Happ. unfold allocate_inplace, layout_get, dict_get.
  rewrite Hin, Ha, bind_Ok, call_append_Ok, bind_Ok, Hc, bind_Ok by done.
  unfold append. cbn [resolve].
  by apply Z.eqb_neq in Hofs as ->.
Qed.

(** C5. The output [Y] of a [Flatten] whose first input [X] has an
    allocation, at whatever offset, and a retain count: when [Y] (not a
    constant, not yet in the layout) is processed, [Y] is entered in the
    layout at [X]'s offset, [X]'s entry stays, the alias map sends [Y] to
    [X], the retain count of [X] grows by [Y]'s fan-out (by 1 when the
    fan-out is 1), and no block is allocated for [Y]: the free list is
    unchanged, and so is the size of the layout when [Y] is no larger than
    [X]. The consumer of [Y] then decrements the retain count of [X]. *)
Theorem flatten_output_aliases_input (op : Operator) (var_in var : Node)
    (rest : list Node) (st : State) (a : Allocation) (c : Z) :
  is_flatten op = true -> inputs op = var_in :: rest ->
  is_constant (resolve var) = false ->
  layout st !! name (resolve var) = None ->
  layout st !! name (node_obj var_in) = Some a -> 0 <= offset a ->
  retain_count st !! node_obj var_in = Some c ->
  layout st !! "append" = None ->
  exists st',
    process_output op var st = Ok st' /\
    layout st' = <[name (resolve var) := mkAllocation (resolve var) (offset a)]>
                   (layout st) /\
    offset_in (layout st') (resolve var) = Some (offset a) /\
    offset_in (layout st') (node_obj var_in) = Some (offset a) /\
    inplace_allocation_dict st' !! resolve var = Some (node_obj var_in) /\
    retain_count st' !! node_obj var_in = Some (c + len_input_to (resolve var)) /\
    (len_input_to (resolve var) = 1 ->
     retain_count st' !! node_obj var_in = Some (c + 1)) /\
    free_list st' = free_list st /\
    (size (resolve var) <= alloc_size a ->
     layout_size (layout st') = layout_size (layout st)) /\
    (c + len_input_to (resolve var) - 1 <> 0 ->
     exists st'',
       process_input (Plain (resolve var)) st' = Ok st'' /\
       retain_count st'' !! node_obj var_in
       = Some (c + len_input_to (resolve var) - 1) /\
       layout st'' = layout st' /\ free_list st'' = free_list st').
Proof.
  intros Hfl Hin Hc Hfresh Ha Hofs Hrc Happ.
  eexists. split.
  { unfold process_output, layout_contains. rewrite Hc.
    rewrite bool_decide_eq_false_2 by (rewrite Hfresh; by intros [? ?]).
    rewrite Hfl.
    apply (allocate_inplace_spec _ _ var_in rest _ a c); try done. lia. }
  cbn [layout retain_count free_list inplace_allocation_dict].
  assert (Hne : name (node_obj var_in) <> name (resolve var)).
  { intros Heq. rewrite Heq, Hfresh in Ha. done. }
  unfold offset_in.
  split; [done|]. split; [by rewrite lookup_insert_eq|].
  split; [by rewrite lookup_insert_ne, Ha|].
  split; [by rewrite lookup_insert_eq|].
  split; [by rewrite lookup_insert_eq|].
  split; [intros ->; by rewrite lookup_insert_eq|].
  split; [done|]. split.
  - intros Hsz. rewrite layout_size_insert_fresh by done.
    pose proof (layout_size_ub _ _ _ Ha). unfold extent, alloc_size in *.
    cbn [offset variable]. lia.
  - intros Hnz. unfold process_input. cbn [resolve]. rewrite Hc.
    cbn [inplace_allocation_dict retain_count layout free_list].
    rewrite lookup_insert_eq. cbn [default].
    unfold dict_get. rewrite lookup_insert_eq, bind_Ok.
    apply Z.eqb_neq in Hnz as ->.
    eexists. split; [done|].
    cbn [retain_count layout free_list].
    by rewrite lookup_insert_eq.
Qed.

Lemma flatten_output_aliases_input_witness :
  let op := FlattenChain.Flatten FlattenChain.X4 FlattenChain.Y4 in
  let st := mkState {[ "P" := mkAllocation FlattenChain.P4 0;
                       "X" := mkAllocation FlattenChain.X4 4 ]}
                    {[ FlattenChain.P4 := 0; FlattenChain.X4 := 1 ]} [] ∅ in
  exists st',
    process_output op (Plain FlattenChain.Y4) st = Ok st' /\
    layout st' = <[ "Y" := mkAllocation FlattenChain.Y4 4 ]> (layout st) /\
    offset_in (layout st') FlattenChain.Y4 = Some 4 /\
    offset_in (layout st') FlattenChain.X4 = Some 4 /\
    inplace_allocation_dict st' !! FlattenChain.Y4 = Some FlattenChain.X4 /\
    retain_count st' !! FlattenChain.X4
    = Some (1 + len_input_to FlattenChain.Y4) /\
    (len_input_to FlattenChain.Y4 = 1 ->
     retain_count st' !! FlattenChain.X4 = Some (1 + 1)) /\
    free_list st' = free_list st /\
    (size FlattenChain.Y4 <= 4 ->
     layout_size (layout st') = layout_size (layout st)) /\
    (1 + len_input_to FlattenChain.Y4 - 1 <> 0 ->
     exists st'',
       process_input (Plain FlattenChain.Y4) st' = Ok st'' /\
       retain_count st'' !! FlattenChain.X4
       = Some (1 + len_input_to FlattenChain.Y4 - 1) /\
       layout st'' = layout st' /\ free_list st'' = free_list st').
Proof.
  intros op st.
  apply (flatten_output_aliases_input op (Plain FlattenChain.X4)
           (Plain FlattenChain.Y4) [] st (mkAllocation FlattenChain.X4 4) 1);
    try reflexivity.
  simpl. lia.
Defined.

(** The chain behind an operator: [X] is produced at offset 4, [Y] is
    entered at offset 4 too and sent to [X] by the alias map; the retain
    count of [X] is 1 after the [Flatten] (1 from its production, 1 more
    for [Y]'s consumer, 1 less for the [Flatten]'s own read) and 0 after
    the [ReLU], which releases the block [(4, 4)]. *)
Example flatten_chain_behind_operator :
  (st ← state_after 2 FlattenChain.produced_graph
          FlattenChain.produced_variables;
   Ok (offset_in (layout st) FlattenChain.X4,
       offset_in (layout st) FlattenChain.Y4,
       inplace_allocation_dict st !! FlattenChain.Y4,
       retain_count st !! FlattenChain.X4, free_list st))
  = Ok (Some 4, Some 4, Some FlattenChain.X4, Some 1, []) /\
  (st ← allocate_variables_state FlattenChain.produced_graph
          FlattenChain.produced_variables;
   Ok (offset_in (layout st) FlattenChain.Z4,
       retain_count st !! FlattenChain.X4, free_list st))
  = Ok (Some 8, Some 0, [(4, 4)]).
Proof. split; vm_compute; reflexivity. Qed.

(** ** Releasing a block of size 0 *)

Lemma list_remove_elem x (l : list Space) :
  x ∈ l -> exists l', list_remove x l = Ok l' /\ l ≡ₚ x :: l'.
Proof.
  induction l as [|y l IH]; [by intros ?%elem_of_nil|].
  intros Hin. simpl. destruct (decide (y = x)) as [->|Hne].
  - by exists l.
  - apply elem_of_cons in Hin as [->|Hin]; [done|].
    destruct (IH Hin) as (l' & -> & Hp). exists (y :: l'). split; [done|].
    rewrite Hp. apply Permutation_swap.
Qed.

Lemma list_remove_not_elem x (l : list Space) :
  x ∉ l -> list_remove x l = Raise ValueError.
Proof.
  induction l as [|y l IH]; [done|].
  intros Hin. simpl. rewrite decide_False.
  - rewrite IH; [done|]. intros ?. apply Hin, elem_of_cons. auto.
  - intros ->. apply Hin, elem_of_cons. auto.
Qed.

Section zero_size_release.

(** A free list of blocks of positive size, none of which ends where
    another one starts, and a block of size 0 at offset [o]. *)
Variables (fl : list Space) (o : Z).
Hypothesis Hpos : Forall (fun c => 0 < c.2) fl.
Hypothesis Hadj : forall b c, b ∈ fl -> c ∈ fl -> b.1 + b.2 <> c.1.

Lemma zero_not_free l : l ⊆ fl -> (o, 0) ∉ l.
Proof using Hpos.
  intros Hsub Hin. rewrite list.Forall_forall in Hpos.
  specialize (Hpos _ (Hsub _ Hin)). simpl in Hpos. lia.
Qed.

Lemma zero_step x st :
  x ∈ fl -> zero_inv fl o st ->
  exists st', merge_step x st = Ok st' /\ zero_inv fl o st'.
Proof using Hpos Hadj.
  intros Hx. destruct st as [[L s1] flag].
  assert (Hxpos : 0 < x.2).
  { rewrite list.Forall_forall in Hpos. by apply Hpos. }
  intros [[HL Hs1]|(HL & Hs1 & Ho)]; cbn [fst snd] in *.
  - subst s1.
    destruct (list_remove_elem (o, 0) L) as (L1 & R1 & P1).
    { rewrite HL. apply elem_of_app. right. by apply list_elem_of_singleton. }
    assert (HL1 : L1 ≡ₚ fl).
    { apply (Permutation_cons_inv (a := (o, 0))).
      rewrite <- P1, HL. by rewrite Permutation_app_comm. }
    destruct (list_remove_elem x L1) as (L2 & R2 & P2); [by rewrite HL1|].
    assert (HL2 : L2 ++ [x] ≡ₚ fl).
    { by rewrite Permutation_app_comm, <- P2. }
    destruct (decide (x.1 + x.2 = o)) as [He|He].
    + eexists. split.
      { rewrite (merge_step_before x L L1 L2); cbn [fst snd]; [done|done|lia|done|done]. }
      right. cbn [fst snd]. rewrite Z.add_0_r, <- surjective_pairing.
      split; [done|]. split; [done|]. by right.
    + destruct (decide (x.1 = o)) as [He'|He'].
      * eexists. split.
        { rewrite (merge_step_after x L L1 L2); cbn [fst snd]; [done|done|lia|done|done]. }
        right. cbn [fst snd]. rewrite Z.add_0_r.
        replace (o, x.2) with x by (by rewrite <- He', <- surjective_pairing).
        split; [done|]. split; [done|]. by left.
      * exists (L, (o, 0), flag). split.
        { apply merge_step_apart. unfold apart. simpl. lia. }
        left. done.
  - exists (L, s1, flag). split.
    + apply merge_step_apart. split.
      * by apply Hadj.
      * intros Heq. by apply (Hadj s1 x).
    + right. done.
Qed.

Lemma zero_pass xs st :
  Forall (fun x => x ∈ fl) xs -> zero_inv fl o st ->
  exists st', for_each merge_step xs st = Ok st' /\ zero_inv fl o st'.
Proof using Hpos Hadj.
  intros Hxs. revert st. induction Hxs as [|x xs Hx _ IH]; intros st Hst.
  - by exists st.
  - destruct (zero_step x st Hx Hst) as (st1 & E1 & Hst1).
    destruct (IH st1 Hst1) as (st2 & E2 & Hst2).
    exists st2. by rewrite for_each_cons, E1, bind_Ok.
Qed.

(** The turn of the snapshot's last element, the empty block itself. *)
Lemma zero_last st :
  zero_inv fl o st -> merge_step (o, 0) st = Raise ValueError.
Proof using Hpos.
  destruct st as [[L s1] flag].
  intros [[HL Hs1]|(HL & Hs1 & Ho)]; cbn [fst snd] in *.
  - subst s1.
    destruct (list_remove_elem (o, 0) L) as (L1 & R1 & P1).
    { rewrite HL. apply elem_of_app. right. by apply list_elem_of_singleton. }
    assert (HL1 : L1 ≡ₚ fl).
    { apply (Permutation_cons_inv (a := (o, 0))).
      rewrite <- P1, HL. by rewrite Permutation_app_comm. }
    unfold merge_step. cbn [fst snd]. rewrite Z.add_0_r, Z.eqb_refl, R1, bind_Ok.
    rewrite list_remove_not_elem; [done|].
    apply zero_not_free. intros c. by rewrite HL1.
  - assert (Hs1pos : 0 < s1.2).
    { rewrite list.Forall_forall in Hpos. by apply Hpos. }
    destruct (list_remove_elem s1 L) as (L1 & R1 & P1); [by rewrite HL|].
    assert (HL1 : L1 ⊆ fl).
    { intros c Hc. rewrite <- HL, P1. apply elem_of_cons. auto. }
    unfold merge_step. cbn [fst snd]. rewrite Z.add_0_r.
    destruct Ho as [Ho|Ho].
    + apply Z.eqb_eq in Ho as Hb. rewrite Z.eqb_sym in Hb. rewrite Hb, R1, bind_Ok.
      rewrite list_remove_not_elem; [done|]. by apply zero_not_free.
    + assert (o <> s1.1) as ->%Z.eqb_neq by lia. rewrite bind_Ok.
      cbn [fst snd]. apply Z.eqb_eq in Ho as Hb. rewrite Z.eqb_sym in Hb.
      rewrite Hb, R1, bind_Ok.
      rewrite list_remove_not_elem; [done|]. by apply zero_not_free.
Qed.

Lemma release_zero_size_raises : release fl (o, 0) = Raise ValueError.
Proof using Hpos Hadj.
  unfold release. cbn [coalesce]. rewrite for_each_app.
  destruct (zero_pass fl (fl ++ [(o, 0)], (o, 0), false)) as (st & -> & Hst).
  - by apply list.Forall_forall.
  - left. done.
  - rewrite bind_Ok, for_each_cons, zero_last by done. done.
Qed.

End zero_size_release.

Section zero_size_facts.
Import ZeroSize.

(** C10 (amended). On [ZeroSize.graph] the pass raises: after [Op1] the value
    [V] of size 0 is stored at offset 4 with retain count 1 and nothing is
    free; [Op2] brings the count to 0 and releases [(4, 0)], which passes
    the first adjacency test against itself, is removed, and cannot be
    removed a second time. In general the release of a block of size 0
    raises whenever the free list holds only blocks of positive size none
    of which ends where another starts. *)
Theorem zero_size_release_raises :
  (st ← state_after 1 graph variables;
   Ok (offset_in (layout st) V, retain_count st !! V, free_list st))
  = Ok (Some 4, Some 1, []) /\
  merge_step (4, 0) ([(4, 0)], (4, 0), false) = Raise ValueError /\
  list_remove (4, 0) [(4, 0)] = Ok [] /\
  list_remove (4, 0) [] = Raise ValueError /\
  release [] (4, 0) = Raise ValueError /\
  allocate_variables graph variables = Raise ValueError /\
  (forall (fl : list Space) (o : Z),
     Forall (fun c => 0 < c.2) fl ->
     (forall b c, b ∈ fl -> c ∈ fl -> b.1 + b.2 <> c.1) ->
     release fl (o, 0) = Raise ValueError).
Proof.
  repeat (split; [vm_compute; reflexivity|]).
  apply release_zero_size_raises.
Qed.

Lemma zero_size_release_raises_witness :
  release [(0, 4); (8, 2)] (4, 0) = Raise ValueError.
Proof.
  apply zero_size_release_raises.
  - repeat constructor.
  - intros b c Hb Hc.
    rewrite !elem_of_cons, elem_of_nil in Hb, Hc.
    destruct Hb as [->|[->|[]]], Hc as [->|[->|[]]]; simpl; lia.
Defined.

(** C10 (as stated) fails in its last part: here the block [(4, 0)] of
    [V0] is released, the loop ends normally and so does the pass. *)
Lemma zero_size_release_completes :
  size V0 = 0 /\
  (st ← state_after 7 merged_graph merged_variables;
   Ok (offset_in (layout st) V0, retain_count st !! V0, free_list st))
  = Ok (Some 4, Some 1, [(2, 2); (4, 4)]) /\
  release [(2, 2); (4, 4)] (4, 0) = Ok [(2, 6)] /\
  (st ← state_after 8 merged_graph merged_variables;
   Ok (retain_count st !! V0, free_list st))
  = Ok (Some 0, [(2, 6)]) /\
  (st ← allocate_variables_state merged_graph merged_variables;
   Ok (free_list st)) = Ok [(3, 5)].
Proof. repeat split; vm_compute; reflexivity. Qed.

End zero_size_facts.

Section tie_break_facts.
Import TieBreak.


End tie_break_facts.


(** On a layout with an entry named ["append"] the general case raises
    [TypeError], whatever the free list. *)
Lemma allocate_general_shadowed (var : Var) (st : State) :
  is_Some (layout st !! "append") ->
  allocate_general var st = Raise TypeError.
Proof.
  intros H. unfold allocate_general.
  destruct (sufficient_spaces (free_list st) (size var)) as [|x rest] eqn:E.
  - by rewrite call_append_shadowed.
  - destruct (sufficient_spaces_head _ _ _ _ E) as (m1 & m2 & Hfl & _ & H1 & _).
    destruct (list_remove_elem x (free_list st)) as (fl1 & -> & _).
    { rewrite Hfl. apply elem_of_app. right. apply elem_of_cons. by left. }
    by rewrite bind_Ok, call_append_shadowed.
Qed.

(** The witness above, evaluated: of the two blocks of size 5 the first one
    in the free list is taken and its remainder is appended. *)
Example best_fit_takes_first_of_smallest :
  (st ← allocate_general (mkVar "W" 4 false 2)
          (mkState ∅ ∅ [(0, 6); (10, 5); (20, 5); (30, 3)] ∅);
   Ok (offset_in (layout st) (mkVar "W" 4 false 2), free_list st))
  = Ok (Some 10, [(0, 6); (20, 5); (30, 3); (14, 1)]).
Proof. vm_compute. reflexivity. Qed.

Lemma allocate_constants_packed_witness :
  let c1 := mkVar "c1" 3 true 1 in
  let c2 := mkVar "c2" 5 true 2 in
  let constants := [(c1, [1; 2; 3]); (c2, [4; 5; 6; 7; 8]); (c1, [1; 2; 3])] in
  exists L buffer,
    allocate_constants 0 Z.succ constants = Ok (L, buffer) /\
    NoDup (name <$> distinct_by_name [] (fst <$> constants)) /\
    (forall n a, L !! n = Some a <->
                 (n, a) ∈ packed 0 (distinct_by_name [] (fst <$> constants))) /\
    (forall c, c ∈ fst <$> constants ->
       exists a, L !! name c = Some a /\
         find (fun x => bool_decide (name x = name c)) (fst <$> constants)
         = Some (variable a)) /\
    layout_size L = sum_sizes (distinct_by_name [] (fst <$> constants)) /\
    Z.of_nat (length buffer) = layout_size L.
Proof.
  intros c1 c2 constants.
  destruct (allocate_constants 0 Z.succ constants) as [[L buffer]|e] eqn:E;
    [|vm_compute in E; discriminate].
  exists L, buffer. split; [done|].
  apply (allocate_constants_packed 0 Z.succ constants L buffer); [|exact E].
  intros c Hc. subst constants. rewrite !fmap_cons, fmap_nil in Hc.
  rewrite !elem_of_cons, elem_of_nil in Hc.
  destruct Hc as [->|[->|[->|[]]]]; simpl; lia.
Defined.

(** The same input, evaluated: [c1] at 0, [c2] at 3, 8 elements in all,
    each constant's data at its offset. *)
Example constants_packed_offsets :
  ('(L, buffer) ← allocate_constants 0 Z.succ
      [(mkVar "c1" 3 true 1, [1; 2; 3]); (mkVar "c2" 5 true 2, [4; 5; 6; 7; 8]);
       (mkVar "c1" 3 true 1, [1; 2; 3])];
   Ok (offset <$> L !! "c1", offset <$> L !! "c2", layout_size L, buffer))
  = Ok (Some 0, Some 3, 8, [2; 3; 4; 5; 6; 7; 8; 9]).
Proof. vm_compute. reflexivity. Qed.

(** A later constant of a name already seen is skipped by the first loop
    but written by the second, into the block of the first: data of another
    length cannot be broadcast and the function raises. *)
Example constants_same_name_other_size :
  allocate_constants 0 Z.succ
    [(mkVar "c" 3 true 1, [1; 2; 3]); (mkVar "c" 5 true 1, [4; 5; 6; 7; 8])]
  = Raise ValueError.
Proof. vm_compute. reflexivity. Qed.

(** A constant named like the method hides it from the next call. *)
Example constants_named_append :
  allocate_constants 0 Z.succ
    [(mkVar "append" 1 true 1, [1]); (mkVar "c" 1 true 1, [2])]
  = Raise TypeError.
Proof. vm_compute. reflexivity. Qed.

Lemma layout_size_is_recomputed_max_witness :
  let x := mkVar "x" 3 false 0 in
  let l : MemoryLayout := {[ "x" := mkAllocation x 2 ]} in
  layout_size (∅ : MemoryLayout) = 0 /\
  0 <= layout_size l /\
  (forall n a, l !! n = Some a -> offset a + alloc_size a <= layout_size l) /\
  (layout_size l = 0 \/
   exists n a, l !! n = Some a /\ layout_size l = offset a + alloc_size a) /\
  (l <> ∅ ->
   (forall n a, l !! n = Some a -> 0 <= offset a + alloc_size a) ->
   exists n a, l !! n = Some a /\ layout_size l = offset a + alloc_size a) /\
  (forall var ofs,
     layout_size (append l var ofs)
     = Z.max (append_offset l ofs + size (resolve var))
             (layout_size (delete (name (resolve var)) l))).
Proof. intros x l. exact (layout_size_is_recomputed_max l). Defined.

(** An entry overwritten by [append] no longer counts: [x] moves from
    [2, 5) to [0, 3) and the size drops from 5 to 3. *)
Example layout_size_after_overwrite :
  let x := mkVar "x" 3 false 0 in
  layout_size (append ∅ (Plain x) 2) = 5 /\
  layout_size (append (append ∅ (Plain x) 2) (Plain x) 0) = 3 /\
  layout_size (append (append ∅ (Plain x) 2) (Plain x) (-1)) = 8.
Proof. repeat split; vm_compute; reflexivity. Qed.

(** ** Bytes covered by the free list *)

Lemma cover_nil p : cover [] p = 0%nat.
Proof. reflexivity. Qed.

Lemma cover_cons b fl p :
  cover (b :: fl) p = (holds b p + cover fl p)%nat.
Proof.
  unfold cover, holds. rewrite filter_cons.
  by destruct (decide (in_block b p)).
Qed.

Lemma cover_app fl1 fl2 p : cover (fl1 ++ fl2) p = (cover fl1 p + cover fl2 p)%nat.
Proof. unfold cover. by rewrite list.filter_app, length_app. Qed.

Lemma cover_pos fl p :
  (0 < cover fl p)%nat <-> exists b, b ∈ fl /\ in_block b p.
Proof.
  induction fl as [|c fl IH].
  - rewrite cover_nil. split; [lia|]. by intros (b & ?%elem_of_nil & _).
  - rewrite cover_cons. unfold holds. destruct (decide (in_block c p)) as [Hc|Hc].
    + split; [|lia]. intros _. exists c. split; [apply elem_of_cons; auto|done].
    + rewrite Nat.add_0_l, IH. split.
      * intros (b & Hb & Hp). exists b. split; [apply elem_of_cons; auto|done].
      * intros (b & [->|Hb]%elem_of_cons & Hp); [done|]. by exists b.
Qed.

Lemma cover_removed x (l l' : list Space) p :
  list_remove x l = Ok l' ->
  cover l p = (holds x p + cover l' p)%nat.
Proof.
  intros (l1 & l2 & -> & -> & _)%list_remove_Ok.
  rewrite !cover_app, cover_cons. lia.
Qed.

(** Two byte-adjacent blocks of non-negative size hold together the
    elements of their union, each once. *)
Lemma in_block_union a s t p :
  0 <= s -> 0 <= t ->
  holds (a, s + t) p = Nat.add (holds (a, s) p) (holds (a + s, t) p).
Proof.
  intros Hs Ht. unfold holds, in_block. simpl.
  repeat case_decide; lia.
Qed.

Lemma list_remove_Forall (P : Space -> Prop) x l l' :
  list_remove x l = Ok l' -> Forall P l -> P x /\ Forall P l'.
Proof.
  intros (l1 & l2 & -> & -> & _)%list_remove_Ok.
  rewrite !Forall_app. intros [H1 H2]. inversion H2; subst. auto.
Qed.

(** One turn of the loop keeps the blocks sane and the cover unchanged. *)
Lemma merge_step_cover x fl s1 flag fl' s1' flag' :
  merge_step x (fl, s1, flag) = Ok (fl', s1', flag') ->
  Forall sane fl ->
  Forall sane fl' /\ forall p, cover fl' p = cover fl p.
Proof.
  unfold merge_step. intros Hstep Hsane.
  apply bind_Ok_inv in Hstep as ([[fl1 s2] flag1] & Hfirst & Hsecond).
  assert (H1 : Forall sane fl1 /\ forall p, cover fl1 p = cover fl p).
  { destruct (x.1 + x.2 =? s1.1) eqn:E; [|by simplify_eq].
    apply Z.eqb_eq in E.
    apply bind_Ok_inv in Hfirst as (l1 & R1 & Hfirst).
    apply bind_Ok_inv in Hfirst as (l2 & R2 & Hfirst). simplify_eq.
    destruct (list_remove_Forall _ _ _ _ R1 Hsane) as [[? ?] Hl1].
    destruct (list_remove_Forall _ _ _ _ R2 Hl1) as [[? ?] Hl2].
    split.
    - apply Forall_app. split; [done|]. constructor; [|done].
      unfold sane. simpl. lia.
    - intros p. rewrite (cover_removed _ _ _ p R1), (cover_removed _ _ _ p R2).
      rewrite cover_app, cover_cons, cover_nil.
      rewrite (in_block_union x.1 x.2 s1.2 p) by done.
      rewrite E, <- !surjective_pairing. lia. }
  destruct H1 as [Hsane1 Hcov1].
  destruct (x.1 =? s2.1 + s2.2) eqn:E.
  - apply Z.eqb_eq in E.
    apply bind_Ok_inv in Hsecond as (l1 & R1 & Hsecond).
    apply bind_Ok_inv in Hsecond as (l2 & R2 & Hsecond). simplify_eq.
    destruct (list_remove_Forall _ _ _ _ R1 Hsane1) as [[? ?] Hl1].
    destruct (list_remove_Forall _ _ _ _ R2 Hl1) as [[? ?] Hl2].
    split.
    + apply Forall_app. split; [done|]. constructor; [|done].
      unfold sane. simpl. lia.
    + intros p. rewrite <- Hcov1.
      rewrite (cover_removed _ _ _ p R1), (cover_removed _ _ _ p R2).
      rewrite cover_app, cover_cons, cover_nil.
      rewrite (Z.add_comm x.2 s2.2), (in_block_union s2.1 s2.2 x.2 p) by done.
      rewrite <- E, <- !surjective_pairing. lia.
  - by simplify_eq.
Qed.

Lemma merge_pass_cover xs fl s1 flag fl' s1' flag' :
  for_each merge_step xs (fl, s1, flag) = Ok (fl', s1', flag') ->
  Forall sane fl ->
  Forall sane fl' /\ forall p, cover fl' p = cover fl p.
Proof.
  revert fl s1 flag. induction xs as [|x xs IH]; intros fl s1 flag.
  - intros [= <- <- <-]. done.
  - rewrite for_each_cons. intros ([[fl1 s2] flag1] & H1 & H2)%bind_Ok_inv Hsane.
    destruct (merge_step_cover _ _ _ _ _ _ _ H1 Hsane) as [Hsane1 Hcov1].
    destruct (IH _ _ _ H2 Hsane1) as [Hsane2 Hcov2].
    split; [done|]. intros p. by rewrite Hcov2.
Qed.

Lemma coalesce_cover fuel fl s1 fl' :
  coalesce fuel fl s1 = Ok fl' ->
  Forall sane fl ->
  Forall sane fl' /\ forall p, cover fl' p = cover fl p.
Proof.
  revert fl s1. induction fuel as [|fuel IH]; intros fl s1; [done|].
  cbn [coalesce]. intros ([[fl1 s2] flag1] & H1 & H2)%bind_Ok_inv Hsane.
  destruct (merge_pass_cover _ _ _ _ _ _ _ H1 Hsane) as [Hsane1 Hcov1].
  destruct flag1.
  - destruct (IH _ _ H2 Hsane1) as [Hsane2 Hcov2].
    split; [done|]. intros p. by rewrite Hcov2.
  - by simplify_eq.
Qed.

(** A completed release adds the elements of the released block to those
    the free list holds, and nothing else. *)
Lemma release_cover fl s1 fl' :
  release fl s1 = Ok fl' ->
  Forall sane fl -> sane s1 ->
  Forall sane fl' /\
  forall p, cover fl' p = (cover fl p + holds s1 p)%nat.
Proof.
  unfold release. intros H Hsane Hs1.
  destruct (coalesce_cover _ _ _ _ H) as [Hsane' Hcov].
  { apply Forall_app. split; [done|]. by constructor. }
  split; [done|]. intros p.
  rewrite Hcov, cover_app, cover_cons, cover_nil. lia.
Qed.

(** ** The coalescing loop terminates *)

Lemma list_remove_length x (l l' : list Space) :
  list_remove x l = Ok l' -> length l = S (length l').
Proof.
  intros (l1 & l2 & -> & -> & _)%list_remove_Ok.
  rewrite !length_app. simpl. lia.
Qed.

Lemma merge_step_length x fl s1 flag fl' s1' flag' :
  merge_step x (fl, s1, flag) = Ok (fl', s1', flag') ->
  (length fl' <= length fl)%nat /\
  (flag' = true -> flag = true \/ (length fl' < length fl)%nat).
Proof.
  unfold merge_step. intros Hstep.
  apply bind_Ok_inv in Hstep as ([[fl1 s2] flag1] & Hfirst & Hsecond).
  assert (H1 : (length fl1 <= length fl)%nat /\
               (flag1 = true -> flag = true \/ (length fl1 < length fl)%nat)).
  { destruct (x.1 + x.2 =? s1.1); [|simplify_eq; auto].
    apply bind_Ok_inv in Hfirst as (l1 & R1 & Hfirst).
    apply bind_Ok_inv in Hfirst as (l2 & R2 & Hfirst). simplify_eq.
    apply list_remove_length in R1, R2. rewrite length_app. simpl. lia. }
  destruct (x.1 =? s2.1 + s2.2).
  - apply bind_Ok_inv in Hsecond as (l1 & R1 & Hsecond).
    apply bind_Ok_inv in Hsecond as (l2 & R2 & Hsecond). simplify_eq.
    apply list_remove_length in R1, R2. rewrite length_app. simpl. lia.
  - simplify_eq. done.
Qed.

Lemma merge_pass_length xs fl s1 flag fl' s1' flag' :
  for_each merge_step xs (fl, s1, flag) = Ok (fl', s1', flag') ->
  (length fl' <= length fl)%nat /\
  (flag' = true -> flag = true \/ (length fl' < length fl)%nat).
Proof.
  revert fl s1 flag. induction xs as [|x xs IH]; intros fl s1 flag.
  - intros [= <- <- <-]. auto.
  - rewrite for_each_cons. intros ([[fl1 s2] flag1] & H1 & H2)%bind_Ok_inv.
    apply merge_step_length in H1 as [Ha Hb]. apply IH in H2 as [Hc Hd].
    split; [lia|]. intros Hf. destruct (Hd Hf) as [Hf1|?]; [|right; lia].
    destruct (Hb Hf1); [by left|right; lia].
Qed.

Lemma merge_step_raises x st e : merge_step x st = Raise e -> e = ValueError.
Proof.
  destruct st as [[fl s1] flag]. unfold merge_step.
  destruct (x.1 + x.2 =? s1.1).
  - destruct (list_remove s1 fl) as [l1|e1] eqn:R1; simpl.
    2:{ apply list_remove_Raise in R1 as [_ ->]. congruence. }
    destruct (list_remove x l1) as [l2|e2] eqn:R2; simpl.
    2:{ apply list_remove_Raise in R2 as [_ ->]. congruence. }
    destruct (_ =? _); [|done].
    destruct (list_remove _ (l2 ++ _)) as [l3|e3] eqn:R3; simpl.
    2:{ apply list_remove_Raise in R3 as [_ ->]. congruence. }
    destruct (list_remove x l3) as [l4|e4] eqn:R4; simpl; [done|].
    apply list_remove_Raise in R4 as [_ ->]. congruence.
  - simpl. destruct (_ =? _); [|done].
    destruct (list_remove s1 fl) as [l1|e1] eqn:R1; simpl.
    2:{ apply list_remove_Raise in R1 as [_ ->]. congruence. }
    destruct (list_remove x l1) as [l2|e2] eqn:R2; simpl; [done|].
    apply list_remove_Raise in R2 as [_ ->]. congruence.
Qed.

Lemma merge_pass_raises xs st e :
  for_each merge_step xs st = Raise e -> e = ValueError.
Proof.
  revert st. induction xs as [|x xs IH]; intros st; [done|].
  rewrite for_each_cons. destruct (merge_step x st) as [st1|e1] eqn:E; simpl.
  - apply IH.
  - intros [= <-]. by eapply merge_step_raises.
Qed.

(** With more fuel than blocks the loop ends by itself: it returns a free
    list or raises the [ValueError] of a failed [remove]. *)
Lemma coalesce_fuel fuel fl s1 :
  (length fl < fuel)%nat ->
  (exists fl', coalesce fuel fl s1 = Ok fl') \/
  coalesce fuel fl s1 = Raise ValueError.
Proof.
  revert fl s1. induction fuel as [|fuel IH]; intros fl s1 Hlen; [lia|].
  cbn [coalesce].
  destruct (for_each merge_step fl (fl, s1, false))
    as [[[fl1 s2] flag1]|e] eqn:E; simpl.
  - destruct flag1; [|eauto].
    apply merge_pass_length in E as [_ Hlt].
    apply IH. destruct (Hlt eq_refl); [done|lia].
  - right. by apply merge_pass_raises in E as ->.
Qed.

Lemma release_never_out_of_fuel fl s1 :
  release fl s1 <> Raise OutOfFuel.
Proof.
  unfold release.
  destruct (coalesce_fuel (S (length (fl ++ [s1]))) (fl ++ [s1]) s1)
    as [[fl' ->]| ->]; [lia|done|done].
Qed.

(** ** The pass as a sequence of events *)

Lemma for_each_fmap {A B S} (f : B -> S -> result S) (g : A -> B) xs st :
  for_each f (g <$> xs) st = for_each (fun x => f (g x)) xs st.
Proof.
  revert st. induction xs as [|x xs IH]; intros st; [done|].
  rewrite fmap_cons, !for_each_cons. destruct (f (g x) st); simpl; [apply IH|done].
Qed.

Lemma process_operator_events op st :
  process_operator op st = for_each step (events_of op) st.
Proof.
  unfold process_operator, events_of.
  rewrite for_each_app, for_each_fmap.
  change (fun x => step (Produce op x)) with (process_output op).
  destruct (for_each (process_output op) (outputs op) st) as [st1|e]; [|done].
  rewrite !bind_Ok, for_each_fmap. reflexivity.
Qed.

Lemma operators_events ops st :
  for_each process_operator ops st = for_each step (events ops) st.
Proof.
  revert st. induction ops as [|op ops IH]; intros st; [done|].
  unfold events. rewrite fmap_cons. cbn [concat].
  rewrite for_each_cons, for_each_app, process_operator_events.
  destruct (for_each step (events_of op) st); simpl; [apply IH|done].
Qed.


(** ** The invariant of a pass without pass-through operators *)

Lemma good_state_equiv R R' st :
  (forall v, v ∈ R <-> v ∈ R') -> good_state R st -> good_state R' st.
Proof.
  intros HR [H1 H2 H3 H4 H5 H6 H7 H8 H9]. split; try done.
  - intros n a Ha Hv. apply (H5 n a Ha). by rewrite HR.
  - intros n1 n2 a1 a2 Hne Ha1 Ha2 Hv1 Hv2.
    apply (H6 n1 n2 a1 a2 Hne Ha1 Ha2); by rewrite HR.
  - intros v Hv. apply H7. by rewrite HR.
Qed.

(** An entry stored at the end of the arena is disjoint from the others. *)
Lemma end_of_arena_disjoint (l : MemoryLayout) n a sz :
  l !! n = Some a -> disjoint_blocks (block a) (layout_size l, sz).
Proof.
  intros Ha p [H1 H2]. pose proof (layout_size_ub _ _ _ Ha) as Hub.
  unfold in_block, block, extent in *. simpl in *. lia.
Qed.

Lemma disjoint_blocks_sym b c : disjoint_blocks b c -> disjoint_blocks c b.
Proof. intros H p [? ?]. by apply (H p). Qed.

Lemma append_end_seeded l v :
  0 <= size v -> seeded_ok l -> seeded_ok (append l (Plain v) (-1)).
Proof.
  intros Hsz [Hent Hdis]. unfold append. cbn [resolve Z.eqb].
  pose proof (layout_size_nonneg l). split.
  - intros n a. destruct (decide (n = name v)) as [->|Hne].
    + rewrite lookup_insert_eq. intros [= <-]. done.
    + rewrite lookup_insert_ne by done. apply Hent.
  - intros n1 n2 a1 a2 Hne.
    destruct (decide (n1 = name v)) as [->|Hne1];
      destruct (decide (n2 = name v)) as [->|Hne2]; [done|..].
    + rewrite lookup_insert_eq, lookup_insert_ne by done. intros [= <-] Ha2.
      apply disjoint_blocks_sym. by eapply end_of_arena_disjoint.
    + rewrite lookup_insert_eq, lookup_insert_ne by done. intros Ha1 [= <-].
      by eapply end_of_arena_disjoint.
    + rewrite !lookup_insert_ne by done. by apply Hdis.
Qed.

Lemma seed_input_inv n l l1 :
  seed_input n l = Ok l1 ->
  l1 = if is_constant (resolve n) then l
       else append l (Plain (resolve n)) (-1).
Proof.
  unfold seed_input. destruct (is_constant (resolve n)); [by intros [= <-]|].
  by intros [_ ->]%call_append_inv.
Qed.

Lemma seed_inputs_ok ins : forall l l',
  seeded_ok l ->
  (forall n, n ∈ ins -> 0 <= size (resolve n)) ->
  for_each seed_input ins l = Ok l' -> seeded_ok l'.
Proof.
  induction ins as [|n ins IH]; intros l l' Hl Hsz; [by intros [= <-]|].
  rewrite for_each_cons. intros (l1 & ->%seed_input_inv & Hrest)%bind_Ok_inv.
  assert (Hn : 0 <= size (resolve n)) by (apply Hsz, elem_of_cons; auto).
  assert (Hins : forall m, m ∈ ins -> 0 <= size (resolve m))
    by (intros; apply Hsz, elem_of_cons; auto).
  revert Hrest. destruct (is_constant (resolve n)).
  - by apply IH.
  - apply IH; [|done]. by apply append_end_seeded.
Qed.


Lemma zero_counts_lookup (variables : list Var) v c :
  (list_to_map ((fun v => (v, 0)) <$> variables) : gmap Var Z) !! v = Some c ->
  c = 0.
Proof.
  intros H%elem_of_list_to_map_2. apply list_elem_of_fmap in H as (w & [= _ ->] & _).
  done.
Qed.

Lemma initial_state_good graph variables st :
  (forall n, n ∈ graph_inputs graph -> 0 <= size (resolve n)) ->
  initial_state graph variables = Ok st ->
  good_state [] st /\
  forall v c, retain_count st !! v = Some c -> c = 0.
Proof.
  intros Hsz. unfold initial_state.
  intros (l & Hseed & [= <-])%bind_Ok_inv.
  destruct (seed_inputs_ok (graph_inputs graph) ∅ l) as (Hent & Hdis);
    [|done|done|].
  { split; intros ?; intros; by rewrite lookup_empty in *. }
  split.
  - split; cbn [layout free_list retain_count inplace_allocation_dict];
      try done.
    + intros p. rewrite cover_nil. lia.
    + intros p. rewrite cover_nil. lia.
    + intros n1 n2 a1 a2 Hne Ha1 Ha2 _ _. by eapply Hdis.
    + by intros v ?%elem_of_nil.
    + intros v c Hc%zero_counts_lookup. lia.
  - intros v c. apply zero_counts_lookup.
Qed.

(** Taking [sz] elements from the front of a free block. *)
Lemma take_block_cover x fl fl1 sz :
  list_remove x fl = Ok fl1 -> Forall sane fl -> 0 <= sz <= x.2 ->
  let fl' := if sz <? x.2 then fl1 ++ [(x.1 + sz, x.2 - sz)] else fl1 in
  Forall sane fl' /\
  forall p, cover fl p = Nat.add (holds (x.1, sz) p) (cover fl' p).
Proof.
  intros Hrem Hsane Hsz fl'.
  destruct (list_remove_Forall _ _ _ _ Hrem Hsane) as [[Hx1 Hx2] Hfl1].
  assert (Hsplit : forall p, holds x p
            = Nat.add (holds (x.1, sz) p) (holds (x.1 + sz, x.2 - sz) p)).
  { intros p. rewrite <- in_block_union by lia.
    replace (sz + (x.2 - sz)) with x.2 by lia. by rewrite <- surjective_pairing. }
  subst fl'. destruct (sz <? x.2) eqn:E.
  - split.
    + apply Forall_app. split; [done|]. constructor; [|done].
      unfold sane. simpl. lia.
    + intros p. rewrite (cover_removed _ _ _ p Hrem), Hsplit.
      rewrite cover_app, cover_cons, cover_nil. lia.
  - split; [done|]. intros p.
    rewrite (cover_removed _ _ _ p Hrem), Hsplit.
    apply Z.ltb_ge in E.
    assert (holds (x.1 + sz, x.2 - sz) p = 0%nat) as ->; [|lia].
    unfold holds, in_block. simpl. case_decide; [lia|done].
Qed.

Lemma holds_in b p : in_block b p -> holds b p = 1%nat.
Proof. intros H. unfold holds. by rewrite decide_True. Qed.

(** Storing a value in elements that are free, or beyond the arena. *)
Lemma place_good R st var o fl' :
  good_state R st ->
  0 <= size var -> layout st !! name var = None -> 0 <= o ->
  Forall sane fl' ->
  (forall p, (cover fl' p <= cover (free_list st) p)%nat) ->
  (forall p, in_block (o, size var) p ->
     cover fl' p = 0%nat /\
     ((0 < cover (free_list st) p)%nat \/ layout_size (layout st) <= p)) ->
  good_state R
    (mkState (<[name var := mkAllocation var o]> (layout st))
             (<[var := len_input_to var]> (retain_count st))
             fl' (inplace_allocation_dict st)) /\
  forall m b, layout st !! m = Some b -> variable b ∉ R ->
    disjoint_blocks (o, size var) (block b).
Proof.
  intros [Hent Hfree Harena Hcov Hlf Hll Hrel Hret Hna] Hsz Hfresh Ho
         Hsane Hle Hnew.
  assert (Hdis : forall m b, layout st !! m = Some b -> variable b ∉ R ->
            disjoint_blocks (o, size var) (block b)).
  { intros m b Hb HbR p [Hp1 Hp2].
    destruct (Hnew p Hp1) as [_ [Hc|Hc]].
    - rewrite (Hlf m b Hb HbR p Hp2) in Hc. lia.
    - pose proof (layout_size_ub _ _ _ Hb).
      unfold in_block, block, extent in *. simpl in *. lia. }
  split; [|done].
  split; cbn [layout free_list retain_count inplace_allocation_dict]; try done.
  - intros n a. destruct (decide (n = name var)) as [->|Hne].
    + rewrite lookup_insert_eq. intros [= <-]. done.
    + rewrite lookup_insert_ne by done. apply Hent.
  - intros p Hp. rewrite layout_size_insert_fresh by done.
    assert (p < layout_size (layout st)); [|lia].
    apply Harena. specialize (Hle p). lia.
  - intros p. specialize (Hle p). specialize (Hcov p). lia.
  - intros n a. destruct (decide (n = name var)) as [->|Hne].
    + rewrite lookup_insert_eq. intros [= <-] _ p Hp. by apply Hnew.
    + rewrite lookup_insert_ne by done. intros Ha HaR p Hp.
      specialize (Hlf n a Ha HaR p Hp). specialize (Hle p). lia.
  - intros n1 n2 a1 a2 Hne.
    destruct (decide (n1 = name var)) as [->|Hne1];
      destruct (decide (n2 = name var)) as [->|Hne2]; [done|..].
    + rewrite lookup_insert_eq, lookup_insert_ne by done.
      intros [= <-] Ha2 _ HR2. by eapply Hdis.
    + rewrite lookup_insert_eq, lookup_insert_ne by done.
      intros Ha1 [= <-] HR1 _. apply disjoint_blocks_sym. by eapply Hdis.
    + rewrite !lookup_insert_ne by done. by apply Hll.
  - intros v Hv. destruct (Hrel v Hv) as [Hc (a & Ha & Hva)].
    assert (name v <> name var) by congruence.
    assert (v <> var) by congruence.
    split.
    + rewrite lookup_insert_ne by done. apply Hc.
    + exists a. by rewrite lookup_insert_ne.
  - intros v c. destruct (decide (v = var)) as [->|Hne].
    + intros _ _. eexists. by rewrite lookup_insert_eq.
    + rewrite lookup_insert_ne by done. intros Hc Hpos.
      destruct (Hret v c Hc Hpos) as (a & Ha & Hva).
      exists a. rewrite lookup_insert_ne by congruence. done.
Qed.

(** The general case keeps the state good; the new block is disjoint from
    the block of every value that is still live. *)
Lemma allocate_general_good R var st st' :
  good_state R st -> 0 <= size var -> layout st !! name var = None ->
  allocate_general var st = Ok st' ->
  good_state R st' /\
  exists o,
    layout st' = <[name var := mkAllocation var o]> (layout st) /\
    retain_count st' = <[var := len_input_to var]> (retain_count st) /\
    forall m b, layout st !! m = Some b -> variable b ∉ R ->
      disjoint_blocks (o, size var) (block b).
Proof.
  intros Hgood Hsz Hfresh. unfold allocate_general.
  destruct (sufficient_spaces (free_list st) (size var)) as [|x rest] eqn:E.
  - intros (l1 & [_ ->]%call_append_inv & [= <-])%bind_Ok_inv.
    unfold append. cbn [resolve Z.eqb].
    destruct (place_good R st var (layout_size (layout st)) (free_list st))
      as [Hg Hd]; try done.
    + apply layout_size_nonneg.
    + apply Hgood.
    + intros p Hp. unfold in_block in Hp. simpl in Hp.
      split; [|right; lia].
      destruct (cover (free_list st) p) eqn:Ec; [done|].
      assert (p < layout_size (layout st)); [|lia].
      apply Hgood. lia.
    + split; [done|]. eexists. split; [done|]. split; [done|]. done.
  - intros (fl1 & Hrem & Hst')%bind_Ok_inv.
    apply bind_Ok_inv in Hst' as (l1 & [_ ->]%call_append_inv & [= <-]).
    destruct (sufficient_spaces_head _ _ _ _ E) as (_ & _ & _ & Hx & _).
    pose proof (good_free _ _ Hgood) as Hsane.
    destruct (list_remove_Forall _ _ _ _ Hrem Hsane) as [[Hx1 Hx2] _].
    destruct (take_block_cover x _ fl1 (size var) Hrem Hsane) as [Hsane' Hcov];
      [lia|].
    unfold append. cbn [resolve].
    assert (x.1 <> -1) as ->%Z.eqb_neq by lia.
    destruct (place_good R st var x.1
                (if size var <? x.2
                 then fl1 ++ [(x.1 + size var, x.2 - size var)] else fl1))
      as [Hg Hd]; try done.
    + intros p. rewrite (Hcov p). lia.
    + intros p Hp. specialize (Hcov p). rewrite (holds_in _ _ Hp) in Hcov.
      pose proof (good_cover _ _ Hgood p). split; [lia|left; lia].
    + split; [done|]. eexists. split; [done|]. split; [done|]. done.
Qed.

(** An input keeps the state good; when its count reaches 0 its value
    joins the released ones. *)
Lemma process_input_good R var st st' :
  good_state R st -> process_input var st = Ok st' ->
  good_state (option_list (released_by (Consume var) st) ++ R) st' /\
  layout st' = layout st /\
  (forall v c', retain_count st' !! v = Some c' ->
     exists c, retain_count st !! v = Some c /\ c' <= c).
Proof.
  intros Hgood. unfold process_input, released_by.
  destruct (is_constant (resolve var)).
  { intros [= <-]. split; [done|]. split; [done|]. intros v c' ?. exists c'.
    split; [done|lia]. }
  rewrite (good_no_alias _ _ Hgood), lookup_empty. cbn [default].
  set (v2 := resolve var).
  intros (c & Hc & Hrest)%bind_Ok_inv.
  unfold dict_get in Hc. destruct (retain_count st !! v2) as [c0|] eqn:Erc; [|done].
  injection Hc as ->.
  assert (Hmono : forall v c', <[v2 := c - 1]> (retain_count st) !! v = Some c' ->
            exists c0, retain_count st !! v = Some c0 /\ c' <= c0).
  { intros v c'. destruct (decide (v = v2)) as [->|Hne].
    - rewrite lookup_insert_eq. intros [= <-]. exists c. split; [done|lia].
    - rewrite lookup_insert_ne by done. intros ?. exists c'. split; [done|lia]. }
  destruct Hgood as [Hent Hfree Harena Hcov Hlf Hll Hrel Hret Hna].
  destruct (c - 1 =? 0) eqn:E.
  - apply Z.eqb_eq in E.
    apply bind_Ok_inv in Hrest as (a & Ha & Hrest).
    apply bind_Ok_inv in Hrest as (fl' & Hfl' & Hrest). injection Hrest as <-.
    unfold layout_get in Ha.
    destruct (Hret v2 c Erc) as (a' & Ha' & Hva'); [lia|].
    rewrite Ha' in Ha. injection Ha as <-.
    assert (Hv2R : v2 ∉ R).
    { intros Hin. destruct (Hrel v2 Hin) as [Hle _]. specialize (Hle c Erc). lia. }
    destruct (Hent _ _ Ha') as (_ & Hofs & Hsz).
    destruct (release_cover _ _ _ Hfl' Hfree) as [Hsane' Hcov'];
      [by split|].
    split; [|split; [done|done]].
    split; cbn [layout free_list retain_count inplace_allocation_dict];
      try done.
    + intros p. rewrite Hcov'. intros Hp.
      destruct (decide (in_block (offset a', alloc_size a') p)) as [Hin|Hin].
      * pose proof (layout_size_ub _ _ _ Ha').
        unfold in_block, extent in *. simpl in *. lia.
      * unfold holds in Hp. rewrite decide_False in Hp by done.
        apply Harena. lia.
    + intros p. rewrite Hcov'. unfold holds. case_decide as Hin.
      * rewrite (Hlf _ _ Ha') by (rewrite ?Hva'; done). lia.
      * specialize (Hcov p). lia.
    + intros n a Ha HaR p Hp. rewrite Hcov'.
      assert (variable a <> v2 /\ variable a ∉ R) as [Hne HaR'].
      { split; intros ?; apply HaR; simpl; rewrite elem_of_cons; auto. }
      rewrite (Hlf n a Ha HaR' p Hp). unfold holds. rewrite decide_False; [done|].
      intros Hin.
      assert (n <> name v2).
      { intros ->. rewrite Ha' in Ha. congruence. }
      apply (Hll n (name v2) a a' ltac:(done) Ha Ha' HaR' ltac:(by rewrite Hva') p).
      done.
    + intros n1 n2 a1 a2 Hne Ha1 Ha2 HR1 HR2.
      apply (Hll n1 n2 a1 a2); try done.
      * intros ?. apply HR1. simpl. rewrite elem_of_cons. auto.
      * intros ?. apply HR2. simpl. rewrite elem_of_cons. auto.
    + intros v. simpl. rewrite elem_of_cons. intros [->|Hv].
      * split; [|by exists a'].
        intros c'. rewrite lookup_insert_eq. intros [= <-]. lia.
      * destruct (Hrel v Hv) as [Hle Hex]. split; [|done].
        intros c' Hc'. destruct (Hmono v c' Hc') as (c0 & Hc0 & ?).
        specialize (Hle c0 Hc0). lia.
    + intros v c' Hc' Hpos. destruct (Hmono v c' Hc') as (c0 & Hc0 & ?).
      apply (Hret v c0 Hc0). lia.
  - injection Hrest as <-. split; [|split; [done|done]].
    split; cbn [layout free_list retain_count inplace_allocation_dict app
                option_list]; try done.
    + intros v Hv. destruct (Hrel v Hv) as [Hle Hex]. split; [|done].
      intros c' Hc'. destruct (Hmono v c' Hc') as (c0 & Hc0 & ?).
      specialize (Hle c0 Hc0). lia.
    + intros v c' Hc' Hpos. destruct (Hmono v c' Hc') as (c0 & Hc0 & ?).
      apply (Hret v c0 Hc0). lia.
Qed.

(** What one event does to a good state. *)
Lemma step_good R e st st' :
  good_state R st -> plain_event e -> step e st = Ok st' ->
  good_state (option_list (released_by e st) ++ R) st' /\
  (forall n a, layout st !! n = Some a -> layout st' !! n = Some a) /\
  (forall n a, layout st' !! n = Some a -> layout st !! n = None ->
     forall m b, layout st !! m = Some b -> variable b ∉ R ->
       disjoint_blocks (block a) (block b)) /\
  (forall v c', retain_count st' !! v = Some c' ->
     (exists c, retain_count st !! v = Some c /\ c' <= c) \/
     c' = len_input_to v).
Proof.
  intros Hgood Hplain Hstep. destruct e as [op var|var]; cbn [step] in Hstep.
  - cbn [released_by option_list app]. destruct Hplain as [Hflat Hsz].
    unfold process_output in Hstep. rewrite Hflat in Hstep.
    assert (Hsame : st' = st -> good_state R st' /\
      (forall n a, layout st !! n = Some a -> layout st' !! n = Some a) /\
      (forall n a, layout st' !! n = Some a -> layout st !! n = None ->
         forall m b, layout st !! m = Some b -> variable b ∉ R ->
           disjoint_blocks (block a) (block b)) /\
      (forall v c', retain_count st' !! v = Some c' ->
         (exists c, retain_count st !! v = Some c /\ c' <= c) \/
         c' = len_input_to v)).
    { intros ->. split; [done|]. split; [done|]. split.
      - intros n a Ha Hn. congruence.
      - intros v c' Hc'. left. exists c'. split; [done|lia]. }
    destruct (is_constant (resolve var)); [apply Hsame; congruence|].
    unfold layout_contains in Hstep. case_bool_decide as Hin.
    { apply Hsame. congruence. }
    assert (Hfresh : layout st !! name (resolve var) = None).
    { destruct (layout st !! name (resolve var)) eqn:E; [|done].
      exfalso. apply Hin. eauto. }
    destruct (allocate_general_good R _ _ _ Hgood Hsz Hfresh Hstep)
      as (Hg & o & HL & Hrc & Hdis).
    split; [done|]. split; [|split].
    + intros n a Ha. rewrite HL, lookup_insert_ne; [done|congruence].
    + intros n a. rewrite HL. destruct (decide (n = name (resolve var))) as [->|Hne].
      * rewrite lookup_insert_eq. intros [= <-] _. apply Hdis.
      * rewrite lookup_insert_ne by done. congruence.
    + intros v c'. rewrite Hrc.
      destruct (decide (v = resolve var)) as [->|Hne].
      * rewrite lookup_insert_eq. intros [= <-]. by right.
      * rewrite lookup_insert_ne by done. intros ?. left. exists c'.
        split; [done|lia].
  - destruct (process_input_good R var st st' Hgood Hstep) as (Hg & HL & Hrc).
    split; [done|]. rewrite HL. split; [done|]. split.
    + intros n a Ha Hn. congruence.
    + intros v c' Hc'. left. by apply Hrc.
Qed.

Lemma run_good es : forall R st st',
  good_state R st -> Forall plain_event es ->
  for_each step es st = Ok st' ->
  good_state (released es st ++ R) st'.
Proof.
  induction es as [|e es IH]; intros R st st' Hgood Hplain.
  - by intros [= <-].
  - rewrite for_each_cons. intros (st1 & E & Hrun)%bind_Ok_inv.
    inversion Hplain as [|? ? He Hes]; subst.
    destruct (step_good R e st st1 Hgood He E) as (Hg1 & _).
    specialize (IH _ _ _ Hg1 Hes Hrun).
    cbn [released]. rewrite E.
    eapply good_state_equiv; [|exact IH].
    intros v. rewrite !elem_of_app. tauto.
Qed.


(** ** Graphs without pass-through operators *)

Lemma events_plain graph :
  no_pass_through graph -> sizes_nonneg graph ->
  Forall plain_event (events (operators_in_order graph)).
Proof.
  intros Hnp [_ Hsz]. unfold no_pass_through in Hnp. unfold events.
  induction (operators_in_order graph) as [|op ops IH]; [constructor|].
  inversion_clear Hnp as [|? ? Hop Hops]. inversion_clear Hsz as [|? ? Hs Hss].
  rewrite fmap_cons. cbn [concat]. apply Forall_app. split; [|by apply IH].
  unfold events_of. apply Forall_app. split.
  - apply list.Forall_forall. intros e (n & -> & Hn)%list_elem_of_fmap.
    split; [done|by apply Hs].
  - apply list.Forall_forall. by intros e (n & -> & Hn)%list_elem_of_fmap.
Qed.

Lemma allocate_variables_state_events graph variables :
  allocate_variables_state graph variables
  = (st ← initial_state graph variables;
     for_each step (events (operators_in_order graph)) st).
Proof.
  unfold allocate_variables_state.
  destruct (initial_state graph variables) as [st|e]; [|done].
  rewrite !bind_Ok. apply operators_events.
Qed.

(** C2 (amended). In a graph without pass-through operators (no value is
    an alias) and with values of non-negative size, at every point of the
    pass, and so in the layout [allocate_variables] returns, any two
    allocations whose values have not been released up to that point have
    disjoint ranges [offset, offset + size), and no block of the free list
    holds an element of either. *)
Theorem live_allocations_disjoint (graph : Graph) (variables : list Var)
    (es1 es2 : list event) (st0 st1 : State) :
  no_pass_through graph -> sizes_nonneg graph ->
  events (operators_in_order graph) = es1 ++ es2 ->
  initial_state graph variables = Ok st0 ->
  for_each step es1 st0 = Ok st1 ->
  (es2 = [] -> allocate_variables graph variables = Ok (layout st1) /\
               released_during graph variables = released es1 st0) /\
  forall n1 n2 a1 a2,
    n1 <> n2 ->
    layout st1 !! n1 = Some a1 -> layout st1 !! n2 = Some a2 ->
    variable a1 ∉ released es1 st0 ->
    variable a2 ∉ released es1 st0 ->
    disjoint_blocks (block a1) (block a2) /\
    (forall b, b ∈ free_list st1 -> disjoint_blocks b (block a1)).
Proof.
  intros Hnp Hsz Hes Hinit Hrun. split.
  { intros ->. rewrite app_nil_r in Hes.
    unfold allocate_variables, released_during.
    rewrite allocate_variables_state_events, Hinit, bind_Ok, Hes, Hrun.
    done. }
  pose proof (events_plain _ Hnp Hsz) as Hplain.
  rewrite Hes in Hplain. apply Forall_app in Hplain as [Hp1 _].
  destruct (initial_state_good _ _ _ (proj1 Hsz) Hinit) as [Hg0 _].
  pose proof (run_good _ _ _ _ Hg0 Hp1 Hrun) as Hg.
  rewrite app_nil_r in Hg.
  intros n1 n2 a1 a2 Hne Ha1 Ha2 HR1 HR2. split.
  - by apply (good_live_live _ _ Hg n1 n2).
  - intros b Hb p [Hp1' Hp2].
    pose proof (good_live_free _ _ Hg n1 a1 Ha1 HR1 p Hp2) as Hc.
    assert (0 < cover (free_list st1) p)%nat; [|lia].
    apply cover_pos. by exists b.
Qed.



(** ** Overlapping allocations *)

(** Two allocations overlap. *)
Lemma overlap_not_disjoint (b c : Space) (p : Z) :
  in_block b p -> in_block c p -> ~ disjoint_blocks b c.
Proof. intros Hb Hc H. by apply (H p). Qed.

Section reuse_facts.
Import Reuse.

Lemma reuse_final_layout :
  (st ← allocate_variables_state graph variables;
   Ok (layout st !! "Y", layout st !! "W", inplace_allocation_dict st,
       free_list st))
  = Ok (Some (mkAllocation Y 4), Some (mkAllocation W 4), ∅, [(8, 4)]) /\
  released_during graph variables = [Y; Z].
Proof. split; vm_compute; reflexivity. Qed.

End reuse_facts.

Section double_release_facts.
Import DoubleRelease.

Lemma double_release_final_layout :
  (st ← state_after 2 graph variables; Ok (free_list st))
  = Ok [(0, 4); (0, 4)] /\
  (st ← allocate_variables_state graph variables;
   Ok (layout st !! "Z1", layout st !! "Z2",
       inplace_allocation_dict st))
  = Ok (Some (mkAllocation Z1 0), Some (mkAllocation Z2 0),
        <[Y1 := X]> (<[Y2 := X]> ∅)) /\
  released_during graph variables = [X; X].
Proof. repeat split; vm_compute; reflexivity. Qed.

End double_release_facts.

(** C2 (as stated) fails. In [Reuse], a graph without any pass-through
    operator, [Y] and [W] both lie at [4, 8); in [DoubleRelease] the
    values [Z1] and [Z2], neither of which is entered in the alias map or
    released, both lie at [0, 4). *)
Lemma unaliased_allocations_overlap :
  ~ (forall st, allocate_variables_state Reuse.graph Reuse.variables = Ok st ->
       forall n1 n2 a1 a2, n1 <> n2 ->
         layout st !! n1 = Some a1 -> layout st !! n2 = Some a2 ->
         disjoint_blocks (block a1) (block a2)) /\
  ~ (forall st,
       allocate_variables_state DoubleRelease.graph DoubleRelease.variables
       = Ok st ->
       forall a1 a2,
         layout st !! "Z1" = Some a1 -> layout st !! "Z2" = Some a2 ->
         disjoint_blocks (block a1) (block a2)).
Proof.
  split.
  - intros H. destruct reuse_final_layout as [Hfin _].
    destruct (allocate_variables_state Reuse.graph Reuse.variables)
      as [st|e] eqn:E; [|done].
    rewrite bind_Ok in Hfin. injection Hfin as HY HW _ _.
    apply (overlap_not_disjoint (4, 4) (4, 4) 4); [done|done|].
    by apply (H st eq_refl "Y" "W" _ _ ltac:(done) HY HW).
  - intros H. destruct double_release_final_layout as (_ & Hfin & _).
    destruct (allocate_variables_state DoubleRelease.graph
                DoubleRelease.variables) as [st|e] eqn:E; [|done].
    rewrite bind_Ok in Hfin. injection Hfin as H1 H2 _.
    apply (overlap_not_disjoint (0, 4) (0, 4) 0); [done|done|].
    by apply (H st eq_refl _ _ H1 H2).
Qed.

Section dead_alias_facts.
Import DeadAlias.


End dead_alias_facts.

Lemma reuse_graph_plain :
  no_pass_through Reuse.graph /\ sizes_nonneg Reuse.graph.
Proof.
  split; [repeat constructor|]. split.
  - intros n ->%list_elem_of_singleton. simpl. lia.
  - repeat apply Forall_cons; try apply Forall_nil;
      intros n ->%list_elem_of_singleton; simpl; lia.
Defined.

(** In [Reuse], when [Z] has just been allocated, [Y] is still live; in
    the end the values never released are [X] and [W]. *)
Lemma live_allocations_disjoint_witness :
  let es1 := [Produce (mkOperator false [Plain Reuse.X] [Plain Reuse.Y])
                      (Plain Reuse.Y);
              Consume (Plain Reuse.X);
              Produce (mkOperator false [Plain Reuse.Y] [Plain Reuse.Z])
                      (Plain Reuse.Z)] in
  let es2 := [Consume (Plain Reuse.Y);
              Produce (mkOperator false [Plain Reuse.Z] [Plain Reuse.W])
                      (Plain Reuse.W);
              Consume (Plain Reuse.Z)] in
  exists st0 st1,
    events (operators_in_order Reuse.graph) = es1 ++ es2 /\
    initial_state Reuse.graph Reuse.variables = Ok st0 /\
    for_each step es1 st0 = Ok st1 /\
    layout st1 !! "Y" = Some (mkAllocation Reuse.Y 4) /\
    layout st1 !! "Z" = Some (mkAllocation Reuse.Z 8) /\
    released es1 st0 = [] /\
    disjoint_blocks (4, 4) (8, 4) /\
    (forall b, b ∈ free_list st1 -> disjoint_blocks b (4, 4)).
Proof.
  intros es1 es2.
  destruct (initial_state Reuse.graph Reuse.variables)
    as [st0|e] eqn:E0; [|vm_compute in E0; discriminate].
  assert (H1 : (st0 ← initial_state Reuse.graph Reuse.variables;
                st1 ← for_each step es1 st0;
                Ok (layout st1 !! "Y", layout st1 !! "Z"))
               = Ok (Some (mkAllocation Reuse.Y 4),
                     Some (mkAllocation Reuse.Z 8)))
    by (vm_compute; reflexivity).
  assert (H2 : (st0 ← initial_state Reuse.graph Reuse.variables;
                Ok (released es1 st0)) = Ok [])
    by (vm_compute; reflexivity).
  rewrite E0, bind_Ok in H1. rewrite E0 in H2.
  change (Ok (released es1 st0) = Ok []) in H2.
  assert (HR : released es1 st0 = []) by congruence. clear H2.
  destruct (for_each step es1 st0) as [st1|e] eqn:E1; [|done].
  rewrite bind_Ok in H1. injection H1 as HY HZ.
  exists st0, st1. repeat (split; [done|]).
  destruct reuse_graph_plain as [Hnp Hsz].
  destruct (live_allocations_disjoint Reuse.graph Reuse.variables es1 es2
              st0 st1 Hnp Hsz eq_refl E0 E1) as [_ H].
  apply (H "Y" "Z" _ _ ltac:(discriminate) HY HZ); rewrite HR;
    by intros ?%elem_of_nil.
Defined.



(** ** The order in which [allocate] hands over the values *)

(** [allocate] turns Python sets into the lists [variables] and
    [constants]. The variable layout does not depend on the order of
    [variables], which only initialises the retain counts. *)
Lemma zero_counts_spec (variables : list Var) v :
  (list_to_map ((fun v => (v, 0)) <$> variables) : gmap Var Z) !! v
  = if decide (v ∈ variables) then Some 0 else None.
Proof.
  induction variables as [|w vs IH].
  - rewrite decide_False by (by intros ?%elem_of_nil). apply lookup_empty.
  - rewrite fmap_cons, list_to_map_cons.
    destruct (decide (w = v)) as [->|Hne].
    + rewrite lookup_insert_eq, decide_True; [done|]. apply elem_of_cons. auto.
    + rewrite lookup_insert_ne, IH by done.
      destruct (decide (v ∈ vs)) as [Hin|Hin].
      * rewrite decide_True; [done|]. apply elem_of_cons. auto.
      * rewrite decide_False; [done|].
        intros [?|?]%elem_of_cons; [congruence|done].
Qed.

Lemma allocate_variables_permutation graph (vs1 vs2 : list Var) :
  vs1 ≡ₚ vs2 ->
  allocate_variables_state graph vs1 = allocate_variables_state graph vs2.
Proof.
  intros Hp. unfold allocate_variables_state, initial_state.
  assert ((list_to_map ((fun v => (v, 0)) <$> vs1) : gmap Var Z)
          = list_to_map ((fun v => (v, 0)) <$> vs2)) as ->; [|done].
  apply map_eq. intros v. rewrite !zero_counts_spec.
  destruct (decide (v ∈ vs1)) as [H1|H1]; destruct (decide (v ∈ vs2)) as [H2|H2];
    try done; exfalso.
  - apply H2. by rewrite <- Hp.
  - apply H1. by rewrite Hp.
Qed.

(** The constant layout follows the order of [constants]. *)
Example allocate_constants_order_matters :
  let c1 := mkVar "v0" 3 true 1 in
  let c2 := mkVar "v1" 5 true 1 in
  (L ← constants_layout [c1; c2]; Ok (offset_in L c1, offset_in L c2))
  = Ok (Some 0, Some 3) /\
  (L ← constants_layout [c2; c1]; Ok (offset_in L c1, offset_in L c2))
  = Ok (Some 5, Some 0).
Proof. split; vm_compute; reflexivity. Qed.

(** ** The bound on the coalescing loop is never reached *)

Lemma for_each_raises {A S} (f : A -> S -> result S) (P : exn -> Prop) xs :
  (forall x st e, f x st = Raise e -> P e) ->
  forall st e, for_each f xs st = Raise e -> P e.
Proof.
  intros Hf. induction xs as [|x xs IH]; intros st e; [done|].
  rewrite for_each_cons. destruct (f x st) as [st1|e1] eqn:E; simpl.
  - apply IH.
  - intros [= <-]. by eapply Hf.
Qed.

Lemma process_output_raises op var st e :
  process_output op var st = Raise e -> e <> OutOfFuel.
Proof.
  unfold process_output.
  destruct (is_constant (resolve var)); [done|].
  destruct (layout_contains (layout st) (resolve var)); [done|].
  destruct (is_flatten op).
  - unfold allocate_inplace, layout_get, dict_get.
    destruct (inputs op) as [|var_in rest]; [by intros [= <-]|].
    destruct (layout st !! name (node_obj var_in)); [|by intros [= <-]].
    rewrite bind_Ok.
    destruct (call_append _ _ _) as [l1|e1] eqn:Ea.
    2:{ apply call_append_Raise in Ea as [_ ->]. by intros [= <-]. }
    rewrite bind_Ok.
    destruct (retain_count st !! node_obj var_in); [done|by intros [= <-]].
  - unfold allocate_general.
    destruct (sufficient_spaces (free_list st) (size (resolve var)))
      as [|space rest].
    { destruct (call_append _ _ _) as [l1|e1] eqn:Ea; [done|].
      apply call_append_Raise in Ea as [_ ->]. by intros [= <-]. }
    destruct (list_remove space (free_list st)) as [fl|e'] eqn:E.
    2:{ apply list_remove_Raise in E as [_ ->]. by intros [= <-]. }
    rewrite bind_Ok.
    destruct (call_append _ _ _) as [l1|e1] eqn:Ea; [done|].
    apply call_append_Raise in Ea as [_ ->]. by intros [= <-].
Qed.

Lemma process_input_raises var st e :
  process_input var st = Raise e -> e <> OutOfFuel.
Proof.
  unfold process_input, layout_get, dict_get.
  destruct (is_constant (resolve var)); [done|].
  destruct (retain_count st !! _) as [c|]; [|by intros [= <-]].
  rewrite bind_Ok. destruct (c - 1 =? 0); [|done].
  destruct (layout st !! _) as [a|]; [|by intros [= <-]].
  rewrite bind_Ok.
  destruct (release (free_list st) (offset a, alloc_size a)) as [fl|e'] eqn:E;
    [done|].
  intros [= <-] ->. by apply release_never_out_of_fuel in E.
Qed.

(** [allocate_variables] returns a layout or raises one of Python's
    exceptions; the fuel of the model never runs out. *)
Lemma allocate_variables_terminates graph variables :
  allocate_variables graph variables <> Raise OutOfFuel.
Proof.
  unfold allocate_variables, allocate_variables_state, initial_state.
  destruct (for_each seed_input (graph_inputs graph) ∅) as [l|e] eqn:E0.
  2:{ rewrite !bind_Raise. intros [= ->].
      apply (for_each_raises seed_input (fun e => e <> OutOfFuel)) in E0;
        [done|].
      intros x st e0. unfold seed_input.
      destruct (is_constant (resolve x)); [done|].
      by intros [_ ->]%call_append_Raise. }
  rewrite !bind_Ok.
  destruct (for_each process_operator _ _) as [st|e] eqn:E; [done|].
  rewrite bind_Raise. intros [= ->].
  apply (for_each_raises process_operator (fun e => e <> OutOfFuel)) in E;
    [done|].
  intros op st e. unfold process_operator.
  destruct (for_each (process_output op) (outputs op) st) as [st1|e1] eqn:E1.
  - rewrite bind_Ok.
    apply (for_each_raises process_input (fun e => e <> OutOfFuel)).
    apply process_input_raises.
  - simpl. intros [= <-]. revert E1.
    apply (for_each_raises (process_output op) (fun e => e <> OutOfFuel)).
    apply process_output_raises.
Qed.

(** * Further properties *)

(** ** MemoryLayout: append, lookup and membership *)

(** X1. After [append(var, offset)] the resolved value is a member of the
    layout and [layout[var]] is its allocation at the stored offset; the
    entries under other names are as before; [var in layout] holds exactly
    when [layout[var]] returns, and [layout[var]] raises [KeyError]
    otherwise. Membership looks at the name of the object it is given: an
    alias that was appended is itself a member only if it carries its
    original's name, or if its own name was already there. *)
Theorem append_then_lookup (l : MemoryLayout) (var : Node) (ofs : Z) (w : Var) :
  layout_get (append l var ofs) (resolve var)
  = Ok (mkAllocation (resolve var) (append_offset l ofs)) /\
  layout_contains (append l var ofs) (resolve var) = true /\
  (name w <> name (resolve var) ->
   layout_get (append l var ofs) w = layout_get l w /\
   layout_contains (append l var ofs) w = layout_contains l w) /\
  (layout_contains l w = true <-> exists a, layout_get l w = Ok a) /\
  (layout_contains l w = false <-> layout_get l w = Raise KeyError) /\
  (layout_contains (append l var ofs) (node_obj var) = true <->
   name (node_obj var) = name (resolve var) \/
   layout_contains l (node_obj var) = true).
Proof.
  unfold layout_get, layout_contains, append, append_offset.
  split; [by rewrite lookup_insert_eq|].
  split; [rewrite lookup_insert_eq; by apply bool_decide_eq_true_2|].
  split; [intros Hne; by rewrite lookup_insert_ne|].
  split; [|split].
  - rewrite bool_decide_eq_true. destruct (l !! name w) as [a|].
    + split; [by exists a|by eexists].
    + split; [by intros [? ?]|by intros [? ?]].
  - rewrite bool_decide_eq_false. destruct (l !! name w) as [a|].
    + split; [intros H; exfalso; apply H; by eexists|done].
    + split; [done|by intros _ [? ?]].
  - rewrite !bool_decide_eq_true.
    destruct (decide (name (node_obj var) = name (resolve var))) as [->|Hne].
    + rewrite lookup_insert_eq. split; [by left|by eexists].
    + rewrite lookup_insert_ne by done. split; [by right|by intros [?|?]].
Qed.

Lemma append_then_lookup_witness :
  let x := mkVar "x" 3 false 1 in
  let y := mkVar "y" 2 false 0 in
  let l : MemoryLayout := append ∅ (Plain y) (-1) in
  layout_get (append l (VariableAlias (mkVar "alias" 3 false 0) x) (-1)) y
  = Ok (mkAllocation y 0) /\
  layout_contains (append l (VariableAlias (mkVar "alias" 3 false 0) x) (-1)) y
  = true.
Proof.
  intros x y l.
  destruct (append_then_lookup l (VariableAlias (mkVar "alias" 3 false 0) x)
              (-1) y) as (_ & _ & H & _).
  destruct H as [H1 H2]; [discriminate|]. by rewrite H1, H2.
Defined.

(** ** Serializable projections *)

Lemma built_keyed_by_name l : built l -> keyed_by_name l.
Proof.
  induction 1 as [|l var ofs _ IH]; intros n a.
  - by rewrite lookup_empty.
  - unfold append. destruct (decide (n = name (resolve var))) as [->|Hne].
    + rewrite lookup_insert_eq. by intros [= <-].
    + rewrite lookup_insert_ne by done. apply IH.
Qed.

Lemma rekey_keyed l :
  keyed_by_name l ->
  map_fold (fun _ a acc => <[name (variable a) := a]> acc) ∅ l = l.
Proof.
  induction l as [|k b m Hk IH] using map_ind; intros Hkey.
  - apply map_fold_empty.
  - rewrite map_fold_insert_L; [|
      |done].
    + rewrite IH.
      * by rewrite (Hkey k b) by apply lookup_insert_eq.
      * intros n a Ha. apply Hkey. rewrite lookup_insert_ne; [done|congruence].
    + intros j1 j2 z1 z2 y Hne H1 H2.
      apply insert_insert_ne.
      rewrite (Hkey _ _ H1), (Hkey _ _ H2). done.
Qed.

(** X2. For a layout built from the empty one by [append], the
    serializable projection loses nothing: its ["allocation"] dictionary
    is the layout itself, every allocation under the name it serializes
    with, and its ["total_size"] is at least [offset + size] of every
    serialized allocation. *)
Theorem serializable_projection_faithful (l : MemoryLayout) :
  built l ->
  (layout_to_serializable l).2 = l /\
  forall n a, (layout_to_serializable l).2 !! n = Some a ->
    s_name (allocation_to_serializable a) = n /\
    s_offset (allocation_to_serializable a)
    + s_size (allocation_to_serializable a)
    <= (layout_to_serializable l).1.
Proof.
  intros Hb. pose proof (built_keyed_by_name l Hb) as Hkey.
  unfold layout_to_serializable. cbn [fst snd].
  rewrite rekey_keyed by done. split; [done|].
  intros n a Ha. split; [by apply Hkey|].
  apply (layout_size_ub _ _ _ Ha).
Qed.

Lemma serializable_projection_faithful_witness :
  let x := mkVar "x" 3 false 1 in
  let y := mkVar "y" 2 false 0 in
  let l := append (append ∅ (Plain x) (-1)) (Plain y) (-1) in
  (layout_to_serializable l).2 = l /\
  forall n a, (layout_to_serializable l).2 !! n = Some a ->
    s_name (allocation_to_serializable a) = n /\
    s_offset (allocation_to_serializable a)
    + s_size (allocation_to_serializable a)
    <= (layout_to_serializable l).1.
Proof.
  intros x y l. apply (serializable_projection_faithful l).
  repeat constructor.
Defined.

(** ** The coalescing loop: termination *)

Lemma coalesce_more_fuel n k fl s1 :
  coalesce n fl s1 <> Raise OutOfFuel ->
  coalesce (n + k) fl s1 = coalesce n fl s1.
Proof.
  revert fl s1. induction n as [|n IH]; intros fl s1; [done|].
  cbn [coalesce Nat.add].
  destruct (for_each merge_step fl (fl, s1, false))
    as [[[fl1 s2] flag]|e]; [|done].
  rewrite !bind_Ok. destruct flag; [apply IH|done].
Qed.

(** X3. The [while flag_changed] loop of a release terminates: every turn
    that sets the flag leaves fewer blocks in the free list. The release
    either returns a free list or raises the [ValueError] of a failed
    [remove]; the number of turns allowed to the loop beyond the number of
    blocks does not change its result, and the free list returned has at
    most one block more than before. *)
Theorem release_terminates (fl : list Space) (s1 : Space) :
  ((exists fl', release fl s1 = Ok fl' /\
                (length fl' <= S (length fl))%nat) \/
   release fl s1 = Raise ValueError) /\
  forall fuel, (length (fl ++ [s1]) < fuel)%nat ->
    coalesce fuel (fl ++ [s1]) s1 = release fl s1.
Proof.
  split.
  - unfold release.
    destruct (coalesce_fuel (S (length (fl ++ [s1]))) (fl ++ [s1]) s1)
      as [[fl' Hfl']|Hr]; [lia| |by right].
    left. exists fl'. split; [done|].
    assert (Hlen : forall fuel L s L', coalesce fuel L s = Ok L' ->
              (length L' <= length L)%nat).
    { clear. induction fuel as [|fuel IH]; intros L s L'; [done|].
      cbn [coalesce]. intros ([[L1 s2] flag] & Hp & Hc)%bind_Ok_inv.
      apply merge_pass_length in Hp as [Hle _].
      destruct flag; [apply IH in Hc; lia|]. injection Hc as <-. done. }
    apply Hlen in Hfl'. rewrite length_app in Hfl'. simpl in Hfl'. lia.
  - intros fuel Hfuel. unfold release.
    replace fuel with (S (length (fl ++ [s1])) + (fuel - S (length (fl ++ [s1]))))%nat
      by lia.
    apply coalesce_more_fuel.
    destruct (coalesce_fuel (S (length (fl ++ [s1]))) (fl ++ [s1]) s1)
      as [[fl' ->]| ->]; [lia|done|done].
Qed.

Lemma release_terminates_witness :
  coalesce 100 ([(0, 4); (8, 4)] ++ [(4, 4)]) (4, 4)
  = release [(0, 4); (8, 4)] (4, 4).
Proof. apply release_terminates. simpl. lia. Defined.

(** X4. A completed release conserves the elements of the arena: the free
    list returned holds every element the old free list or the released
    block held, as many times, and nothing else (blocks at non-negative
    offsets, of non-negative size). *)
Theorem release_conserves_elements (fl fl' : list Space) (s1 : Space) :
  Forall sane fl -> sane s1 ->
  release fl s1 = Ok fl' ->
  Forall sane fl' /\
  forall p, cover fl' p = Nat.add (cover fl p) (holds s1 p).
Proof. intros Hfl Hs1 Hrel. by apply release_cover. Qed.

Lemma release_conserves_elements_witness :
  Forall sane [(0, 12)] /\
  forall p, cover [(0, 12)] p = Nat.add (cover [(0, 4); (8, 4)] p) (holds (4, 4) p).
Proof.
  apply (release_conserves_elements [(0, 4); (8, 4)] [(0, 12)] (4, 4)).
  - repeat constructor; simpl; lia.
  - split; simpl; lia.
  - vm_compute. reflexivity.
Defined.

(** ** The coalescing loop: success *)

Lemma clean_perm fl1 fl2 : fl1 ≡ₚ fl2 -> clean fl1 -> clean fl2.
Proof.
  intros Hp [Hpos Hcov]. split; [by rewrite <- Hp|].
  intros p. unfold cover. rewrite <- Hp. apply Hcov.
Qed.

Lemma clean_distinct x y l :
  clean (x :: y :: l) -> x <> y /\ disjoint_blocks x y.
Proof.
  intros [Hpos Hcov].
  assert (Hd : disjoint_blocks x y).
  { intros p [Hx Hy]. specialize (Hcov p). rewrite !cover_cons in Hcov.
    rewrite (holds_in _ _ Hx), (holds_in _ _ Hy) in Hcov. lia. }
  split; [|done]. intros ->. inversion_clear Hpos as [|? ? Hy _].
  apply (Hd y.1). unfold in_block. lia.
Qed.

(** Merging two byte-adjacent blocks of a clean list keeps it clean. *)
Lemma clean_merge (a s t : Z) l :
  clean ((a, s) :: (a + s, t) :: l) -> clean (l ++ [(a, s + t)]).
Proof.
  intros [Hpos Hcov]. inversion_clear Hpos as [|? ? Hs Hpos'].
  inversion_clear Hpos' as [|? ? Ht Hl]. simpl in *. split.
  - apply Forall_app. split; [done|]. constructor; [simpl; lia|done].
  - intros p. specialize (Hcov p). rewrite !cover_cons in Hcov.
    rewrite cover_app, cover_cons, cover_nil, in_block_union by lia. lia.
Qed.

Lemma inside_apart x s : inside x s -> apart x s.
Proof. intros (? & ? & ?). unfold apart. lia. Qed.

Lemma inside_grow x s s' :
  inside x s -> s'.1 <= s.1 -> s.1 + s.2 <= s'.1 + s'.2 -> inside x s'.
Proof. intros (? & ? & ?) ? ?. unfold inside. lia. Qed.

Lemma clean_step x xs st :
  pass_inv (x :: xs) st ->
  exists st', merge_step x st = Ok st' /\ pass_inv xs st'.
Proof.
  destruct st as [[L s] flag]. intros (Hclean & Hs & Hxs). cbn [fst snd] in *.
  inversion_clear Hxs as [|? ? Hx Hrest].
  assert (Hspos : 0 < s.2).
  { destruct Hclean as [Hpos _]. rewrite list.Forall_forall in Hpos.
    by apply Hpos. }
  assert (Hskip : apart x s ->
            exists st', merge_step x (L, s, flag) = Ok st' /\ pass_inv xs st').
  { intros Hap. exists (L, s, flag). split; [by apply merge_step_apart|].
    split; [done|]. split; done. }
  destruct Hx as [HxL|Hin]; [|by apply Hskip, inside_apart].
  destruct (decide (x = s)) as [->|Hne].
  { apply Hskip. unfold apart. lia. }
  destruct (list_remove_elem s L Hs) as (L1 & R1 & P1).
  assert (HxL1 : x ∈ L1).
  { rewrite P1 in HxL. apply elem_of_cons in HxL as [?|?]; done. }
  destruct (list_remove_elem x L1 HxL1) as (L2 & R2 & P2).
  assert (HP : L ≡ₚ x :: s :: L2).
  { rewrite P1, P2. apply Permutation_swap. }
  assert (Hxpos : 0 < x.2).
  { destruct Hclean as [Hpos _]. rewrite list.Forall_forall in Hpos.
    by apply Hpos. }
  assert (Hmerged : forall s', s'.1 <= s.1 -> s.1 + s.2 <= s'.1 + s'.2 ->
            s'.1 <= x.1 -> x.1 + x.2 <= s'.1 + s'.2 ->
            clean (L2 ++ [s']) ->
            pass_inv xs (L2 ++ [s'], s', true)).
  { intros s' H1 H2 H3 H4 Hc. split; [done|]. cbn [fst snd]. split.
    - apply elem_of_app. right. by apply list_elem_of_singleton.
    - eapply list.Forall_impl; [exact Hrest|]. intros y [Hy|Hy].
      + rewrite HP in Hy. rewrite !elem_of_cons in Hy.
        destruct Hy as [->|[->|Hy]].
        * right. unfold inside. lia.
        * right. unfold inside. lia.
        * left. apply elem_of_app. by left.
      + right. by eapply inside_grow. }
  destruct (decide (x.1 + x.2 = s.1)) as [Hb|Hb].
  - eexists. split.
    { apply (merge_step_before x L L1 L2); [done|lia|done|done]. }
    apply Hmerged; cbn [fst snd]; try lia.
    rewrite (surjective_pairing x), (surjective_pairing s) in HP.
    rewrite <- Hb in HP. apply (clean_merge x.1 x.2 s.2).
    by eapply clean_perm.
  - destruct (decide (x.1 = s.1 + s.2)) as [Ha|Ha].
    + eexists. split.
      { apply (merge_step_after x L L1 L2); [done|done|done|done]. }
      apply Hmerged; cbn [fst snd]; try lia.
      rewrite (Z.add_comm x.2 s.2). apply (clean_merge s.1 s.2 x.2).
      rewrite <- Ha, <- !surjective_pairing.
      eapply clean_perm; [|exact Hclean]. rewrite HP. apply Permutation_swap.
    + by apply Hskip.
Qed.

Lemma clean_pass xs st :
  pass_inv xs st ->
  exists st', for_each merge_step xs st = Ok st' /\
              clean st'.1.1 /\ st'.1.2 ∈ st'.1.1.
Proof.
  revert st. induction xs as [|x xs IH]; intros st Hinv.
  - exists st. split; [done|]. destruct Hinv as (? & ? & _). done.
  - destruct (clean_step x xs st Hinv) as (st1 & E1 & Hinv1).
    destruct (IH st1 Hinv1) as (st2 & E2 & H2).
    exists st2. by rewrite for_each_cons, E1, bind_Ok.
Qed.

Lemma coalesce_clean fuel : forall L s,
  (length L < fuel)%nat -> clean L -> s ∈ L ->
  exists L', coalesce fuel L s = Ok L' /\ clean L'.
Proof.
  induction fuel as [|fuel IH]; intros L s Hlen Hclean Hs; [lia|].
  cbn [coalesce].
  destruct (clean_pass L (L, s, false)) as ([[L1 s1] flag] & E & Hc1 & Hs1).
  { split; [done|]. split; [done|]. cbn [fst snd].
    apply list.Forall_forall. auto. }
  rewrite E, bind_Ok. cbn [fst snd] in *. destruct flag.
  - apply IH; [|done|done].
    apply merge_pass_length in E as [_ Hlt]. destruct (Hlt eq_refl); [done|lia].
  - by exists L1.
Qed.

(** X5. On a free list of blocks of positive size that do not overlap,
    releasing a block of positive size that overlaps none of them never
    fails: every [remove] of the loop finds its block, and the free list
    returned is again of that kind. *)
Theorem release_succeeds (fl : list Space) (s1 : Space) :
  clean fl -> 0 < s1.2 ->
  (forall p, in_block s1 p -> cover fl p = 0%nat) ->
  exists fl', release fl s1 = Ok fl' /\ clean fl'.
Proof.
  intros [Hpos Hcov] Hs1 Hfree. unfold release.
  apply coalesce_clean; [lia| |].
  - split.
    + apply Forall_app. split; [done|]. by constructor.
    + intros p. rewrite cover_app, cover_cons, cover_nil. unfold holds.
      case_decide as Hin; [rewrite (Hfree p Hin); lia|].
      specialize (Hcov p). lia.
  - apply elem_of_app. right. by apply list_elem_of_singleton.
Qed.

Lemma release_succeeds_witness :
  exists fl', release [(0, 4); (8, 4)] (4, 4) = Ok fl' /\ clean fl'.
Proof.
  apply release_succeeds.
  - split; [repeat constructor; simpl; lia|].
    intros p. unfold cover. rewrite !filter_cons, filter_nil.
    unfold in_block. simpl. repeat case_decide; simpl; lia.
  - simpl. lia.
  - intros p Hp. unfold cover. rewrite !filter_cons, filter_nil.
    unfold in_block in *. simpl in *. repeat case_decide; simpl; lia.
Defined.

(** ** The operator loop on any graph *)

Lemma allocate_general_layout var st st' :
  allocate_general var st = Ok st' ->
  exists o, layout st' = <[name var := mkAllocation var o]> (layout st).
Proof.
  unfold allocate_general.
  destruct (sufficient_spaces (free_list st) (size var)) as [|x rest].
  - intros (l1 & [_ ->]%call_append_inv & [= <-])%bind_Ok_inv. by eexists.
  - intros (fl1 & _ & Hst)%bind_Ok_inv.
    apply bind_Ok_inv in Hst as (l1 & [_ ->]%call_append_inv & [= <-]).
    by eexists.
Qed.

Lemma allocate_inplace_layout op var st st' :
  allocate_inplace op var st = Ok st' ->
  exists o, layout st' = <[name var := mkAllocation var o]> (layout st).
Proof.
  unfold allocate_inplace. destruct (inputs op) as [|var_in rest]; [done|].
  intros (a & _ & Hst)%bind_Ok_inv.
  apply bind_Ok_inv in Hst as (l1 & [_ ->]%call_append_inv & Hst).
  apply bind_Ok_inv in Hst as (c & _ & [= <-]). by eexists.
Qed.

(** What an event does to the layout: nothing, or one new entry for the
    value produced, which is not constant and had none. *)
Lemma step_layout e st st' :
  step e st = Ok st' ->
  layout st' = layout st \/
  exists op var o, e = Produce op var /\
    is_constant (resolve var) = false /\
    layout st !! name (resolve var) = None /\
    layout st' = <[name (resolve var) := mkAllocation (resolve var) o]> (layout st).
Proof.
  destruct e as [op var|var]; cbn [step].
  - unfold process_output.
    destruct (is_constant (resolve var)) eqn:Hc; [intros [= <-]; by left|].
    unfold layout_contains. case_bool_decide as Hin; [intros [= <-]; by left|].
    assert (Hfresh : layout st !! name (resolve var) = None).
    { destruct (layout st !! name (resolve var)) eqn:E; [|done].
      exfalso. apply Hin. eauto. }
    intros Hst. right. exists op, var.
    destruct (is_flatten op).
    + destruct (allocate_inplace_layout _ _ _ _ Hst) as [o Ho]. by exists o.
    + destruct (allocate_general_layout _ _ _ Hst) as [o Ho]. by exists o.
  - unfold process_input. destruct (is_constant (resolve var)).
    { intros [= <-]. by left. }
    intros (c & _ & Hst)%bind_Ok_inv. destruct (c - 1 =? 0).
    + apply bind_Ok_inv in Hst as (a & _ & Hst).
      apply bind_Ok_inv in Hst as (fl & _ & [= <-]). by left.
    + injection Hst as <-. by left.
Qed.

Lemma step_layout_stable e st st' n a :
  step e st = Ok st' -> layout st !! n = Some a -> layout st' !! n = Some a.
Proof.
  intros Hst Ha. destruct (step_layout _ _ _ Hst) as [->|(op & var & o & _ & _ & Hn & ->)];
    [done|].
  rewrite lookup_insert_ne; [done|congruence].
Qed.

Lemma run_layout_stable es : forall st st' n a,
  for_each step es st = Ok st' ->
  layout st !! n = Some a -> layout st' !! n = Some a.
Proof.
  induction es as [|e es IH]; intros st st' n a.
  - by intros [= <-].
  - rewrite for_each_cons. intros (st1 & E & Hrun)%bind_Ok_inv Ha.
    eapply IH; [done|]. by eapply step_layout_stable.
Qed.

(** X6. An allocation is never moved or removed by the operator loop: an
    entry the layout holds at some point of the pass is in the layout that
    is returned, with the same offset. In particular the non-constant graph
    inputs keep the offsets the seeding gave them. *)
Theorem allocations_never_move (graph : Graph) (variables : list Var)
    (es1 es2 : list event) (st0 st1 st : State) (n : string) (a : Allocation) :
  events (operators_in_order graph) = es1 ++ es2 ->
  initial_state graph variables = Ok st0 ->
  for_each step es1 st0 = Ok st1 ->
  allocate_variables_state graph variables = Ok st ->
  layout st1 !! n = Some a ->
  layout st !! n = Some a /\
  allocate_variables graph variables = Ok (layout st).
Proof.
  intros Hes Hinit Hrun1 Hrun Ha. split.
  - rewrite allocate_variables_state_events, Hinit, bind_Ok, Hes in Hrun.
    rewrite for_each_app, Hrun1, bind_Ok in Hrun.
    by eapply run_layout_stable.
  - unfold allocate_variables. by rewrite Hrun.
Qed.

Lemma allocations_never_move_witness :
  exists st,
    allocate_variables_state Reuse.graph Reuse.variables = Ok st /\
    layout st !! "Y" = Some (mkAllocation Reuse.Y 4) /\
    allocate_variables Reuse.graph Reuse.variables = Ok (layout st).
Proof.
  destruct (allocate_variables_state Reuse.graph Reuse.variables)
    as [st|e] eqn:E; [|vm_compute in E; discriminate].
  destruct (initial_state Reuse.graph Reuse.variables)
    as [st0|e] eqn:E0; [|vm_compute in E0; discriminate].
  set (es1 := [Produce (mkOperator false [Plain Reuse.X] [Plain Reuse.Y])
                       (Plain Reuse.Y)]).
  assert (H1 : (st0 ← initial_state Reuse.graph Reuse.variables;
                st1 ← for_each step es1 st0; Ok (layout st1 !! "Y"))
               = Ok (Some (mkAllocation Reuse.Y 4)))
    by (vm_compute; reflexivity).
  rewrite E0, bind_Ok in H1.
  destruct (for_each step es1 st0) as [st1|e] eqn:E1; [|done].
  rewrite bind_Ok in H1. injection H1 as HY.
  exists st. split; [done|].
  apply (allocations_never_move Reuse.graph Reuse.variables es1
           (drop 1 (events (operators_in_order Reuse.graph))) st0 st1 st
           "Y" _ eq_refl E0 E1 E HY).
Defined.

(** Seeding: every non-constant graph input gets an entry. *)
Lemma seed_inputs_entries graph ins : forall l l',
  (forall n, n ∈ ins -> n ∈ graph_inputs graph) ->
  entries_from graph l ->
  for_each seed_input ins l = Ok l' ->
  entries_from graph l' /\
  (forall n a, l !! n = Some a -> is_Some (l' !! n)) /\
  (forall n, n ∈ ins -> is_constant (resolve n) = false ->
     is_Some (l' !! name (resolve n))).
Proof.
  induction ins as [|m ins IH]; intros l l' Hsub Hent.
  - intros [= <-]. split; [done|]. split; [eauto|]. by intros n ?%elem_of_nil.
  - rewrite for_each_cons. intros (l1 & E & Hrun)%bind_Ok_inv.
    assert (Hsub' : forall n, n ∈ ins -> n ∈ graph_inputs graph)
      by (intros; apply Hsub, elem_of_cons; auto).
    assert (Hm : m ∈ graph_inputs graph) by (apply Hsub, elem_of_cons; auto).
    apply seed_input_inv in E.
    destruct (is_constant (resolve m)) eqn:Hc; subst l1.
    + destruct (IH _ _ Hsub' Hent Hrun) as (H1 & H2 & H3).
      split; [done|]. split; [done|].
      intros n [->|Hn]%elem_of_cons Hnc; [congruence|by apply H3].
    + assert (Hent1 : entries_from graph (append l (Plain (resolve m)) (-1))).
      { intros n a. unfold append. cbn [resolve].
        destruct (decide (n = name (resolve m))) as [->|Hne].
        - rewrite lookup_insert_eq. intros [= <-]. cbn [variable].
          split; [done|]. split; [done|]. left. by exists m.
        - rewrite lookup_insert_ne by done. apply Hent. }
      destruct (IH _ _ Hsub' Hent1 Hrun) as (H1 & H2 & H3).
      split; [done|]. split.
      * intros n a Ha. unfold append in H2. cbn [resolve] in H2.
        destruct (decide (n = name (resolve m))) as [->|Hne].
        -- eapply H2. apply lookup_insert_eq.
        -- eapply H2. rewrite lookup_insert_ne by done. exact Ha.
      * intros n [->|Hn]%elem_of_cons Hnc; [|by apply H3].
        eapply H2. unfold append. cbn [resolve]. apply lookup_insert_eq.
Qed.

Lemma produce_present op var st st1 :
  step (Produce op var) st = Ok st1 ->
  is_constant (resolve var) = false ->
  is_Some (layout st1 !! name (resolve var)).
Proof.
  cbn [step]. unfold process_output. intros E Hc. rewrite Hc in E.
  unfold layout_contains in E. case_bool_decide as Hin.
  - by injection E as <-.
  - destruct (is_flatten op).
    + apply allocate_inplace_layout in E as [o ->].
      rewrite lookup_insert_eq. eauto.
    + apply allocate_general_layout in E as [o ->].
      rewrite lookup_insert_eq. eauto.
Qed.

Lemma run_entries graph es : forall st st',
  Forall (fun e => match e with
                   | Produce op var => op ∈ operators_in_order graph /\
                                       var ∈ outputs op
                   | Consume _ => True
                   end) es ->
  entries_from graph (layout st) ->
  for_each step es st = Ok st' ->
  entries_from graph (layout st') /\
  Forall (fun e => match e with
                   | Produce op var =>
                       is_constant (resolve var) = false ->
                       is_Some (layout st' !! name (resolve var))
                   | Consume _ => True
                   end) es.
Proof.
  induction es as [|e es IH]; intros st st' Hes Hent.
  - intros [= <-]. by split.
  - rewrite for_each_cons. intros (st1 & E & Hrun)%bind_Ok_inv.
    inversion_clear Hes as [|? ? He Hes'].
    assert (Hent1 : entries_from graph (layout st1)).
    { destruct (step_layout _ _ _ E) as [->|(op & var & o & -> & Hc & Hn & ->)];
        [done|].
      intros n a. destruct (decide (n = name (resolve var))) as [->|Hne].
      - rewrite lookup_insert_eq. intros [= <-]. cbn [variable].
        split; [done|]. split; [done|]. right. exists op, var.
        destruct He. done.
      - rewrite lookup_insert_ne by done. apply Hent. }
    destruct (IH _ _ Hes' Hent1 Hrun) as [H1 H2]. split; [done|].
    constructor; [|done].
    destruct e as [op var|var]; [|done]. intros Hc.
    destruct (produce_present _ _ _ _ E Hc) as [a Ha].
    exists a. by eapply run_layout_stable.
Qed.

Lemma events_from_ops (ops : list Operator) :
  Forall (fun e => match e with
                   | Produce op var => op ∈ ops /\ var ∈ outputs op
                   | Consume _ => True
                   end) (events ops).
Proof.
  induction ops as [|o ops IH]; [constructor|].
  unfold events. rewrite fmap_cons. cbn [concat]. apply Forall_app. split.
  - unfold events_of. apply Forall_app. split.
    + apply list.Forall_forall. intros e (v & -> & Hv)%list_elem_of_fmap.
      split; [apply elem_of_cons; auto|done].
    + apply list.Forall_forall. by intros e (v & -> & Hv)%list_elem_of_fmap.
  - eapply list.Forall_impl; [exact IH|].
    intros [op var|var]; [|done]. intros [? ?].
    split; [apply elem_of_cons; auto|done].
Qed.

Lemma produce_in_events (ops : list Operator) op n :
  op ∈ ops -> n ∈ outputs op -> Produce op n ∈ events ops.
Proof.
  intros Hop Hn. induction ops as [|o ops IH]; [by apply elem_of_nil in Hop|].
  unfold events. rewrite fmap_cons. cbn [concat]. apply elem_of_app.
  apply elem_of_cons in Hop as [->|Hop].
  - left. unfold events_of. apply elem_of_app. left.
    apply list_elem_of_fmap. by exists n.
  - right. by apply IH.
Qed.

(** X7. The layout [allocate_variables] returns covers the graph and
    nothing else: every non-constant graph input and every non-constant
    operator output (aliases resolved) has an entry under its name, and
    every entry is such a value, filed under its own name; constants never
    get an entry. *)
Theorem layout_covers_graph (graph : Graph) (variables : list Var) (st : State) :
  allocate_variables_state graph variables = Ok st ->
  (forall v, produced_in graph v -> is_constant v = false ->
     is_Some (layout st !! name v)) /\
  (forall n a, layout st !! n = Some a ->
     name (variable a) = n /\ is_constant (variable a) = false /\
     produced_in graph (variable a)).
Proof.
  rewrite allocate_variables_state_events.
  intros (st0 & Hinit & Hrun)%bind_Ok_inv.
  unfold initial_state in Hinit.
  apply bind_Ok_inv in Hinit as (l0 & Hseed & [= <-]).
  destruct (seed_inputs_entries graph (graph_inputs graph) ∅ l0)
    as (Hent0 & _ & Hin0); [done| |done|].
  { intros n a. by rewrite lookup_empty. }
  edestruct (run_entries graph) as [Hent Hout];
    [apply events_from_ops| |exact Hrun|]; [exact Hent0|].
  split; [|done].
  intros v [(n & Hn & <-)|(op & n & Hop & Hn & <-)] Hc.
  - destruct (Hin0 n Hn Hc) as [a Ha]. exists a.
    by eapply run_layout_stable.
  - rewrite list.Forall_forall in Hout.
    by apply (Hout _ (produce_in_events _ _ _ Hop Hn)).
Qed.

Lemma layout_covers_graph_witness :
  exists st,
    allocate_variables_state DeadAlias.graph DeadAlias.variables = Ok st /\
    is_Some (layout st !! "V") /\
    (forall n a, layout st !! n = Some a ->
       name (variable a) = n /\ is_constant (variable a) = false /\
       produced_in DeadAlias.graph (variable a)).
Proof.
  destruct (allocate_variables_state DeadAlias.graph DeadAlias.variables)
    as [st|e] eqn:E; [|vm_compute in E; discriminate].
  exists st. split; [done|].
  destruct (layout_covers_graph _ _ _ E) as [H1 H2]. split; [|done].
  apply (H1 DeadAlias.V); [|done].
  right. exists (mkOperator true [Plain DeadAlias.X] [Plain DeadAlias.V]),
                (Plain DeadAlias.V).
  split; [|split; [|done]].
  - apply elem_of_cons. right. apply elem_of_cons. by left.
  - by apply list_elem_of_singleton.
Defined.

(** ** Offsets *)

Lemma merge_step_Forall (Q : Space -> Prop) x fl s1 flag fl' s1' flag' :
  (forall a b c, Q a -> Q b -> a.1 + a.2 = b.1 ->
     c.1 = a.1 -> c.2 = a.2 + b.2 -> Q c) ->
  merge_step x (fl, s1, flag) = Ok (fl', s1', flag') ->
  Forall Q fl -> Forall Q fl'.
Proof.
  intros HQ. unfold merge_step. intros Hstep Hall.
  apply bind_Ok_inv in Hstep as ([[fl1 s2] flag1] & Hfirst & Hsecond).
  assert (H1 : Forall Q fl1).
  { destruct (x.1 + x.2 =? s1.1) eqn:E; [|by simplify_eq].
    apply Z.eqb_eq in E.
    apply bind_Ok_inv in Hfirst as (l1 & R1 & Hfirst).
    apply bind_Ok_inv in Hfirst as (l2 & R2 & Hfirst). simplify_eq.
    destruct (list_remove_Forall _ _ _ _ R1 Hall) as [Hs Hl1].
    destruct (list_remove_Forall _ _ _ _ R2 Hl1) as [Hx Hl2].
    apply Forall_app. split; [done|]. constructor; [|done].
    by apply (HQ x s1). }
  destruct (x.1 =? s2.1 + s2.2) eqn:E; [|by simplify_eq].
  apply Z.eqb_eq in E.
  apply bind_Ok_inv in Hsecond as (l1 & R1 & Hsecond).
  apply bind_Ok_inv in Hsecond as (l2 & R2 & Hsecond). simplify_eq.
  destruct (list_remove_Forall _ _ _ _ R1 H1) as [Hs Hl1].
  destruct (list_remove_Forall _ _ _ _ R2 Hl1) as [Hx Hl2].
  apply Forall_app. split; [done|]. constructor; [|done].
  apply (HQ s2 x); [done|done|lia|done|simpl; lia].
Qed.

Lemma release_Forall (Q : Space -> Prop) fl s1 fl' :
  (forall a b c, Q a -> Q b -> a.1 + a.2 = b.1 ->
     c.1 = a.1 -> c.2 = a.2 + b.2 -> Q c) ->
  release fl s1 = Ok fl' -> Forall Q fl -> Q s1 -> Forall Q fl'.
Proof.
  intros HQ Hrel Hfl Hs1. unfold release in Hrel.
  assert (Hpass : forall xs L s f L' s' f',
            for_each merge_step xs (L, s, f) = Ok (L', s', f') ->
            Forall Q L -> Forall Q L').
  { induction xs as [|x xs IH]; intros L s f L' s' f'.
    - by intros [= <- <- <-].
    - rewrite for_each_cons. intros ([[L1 s2] f1] & E1 & E2)%bind_Ok_inv HL.
      eapply IH; [done|]. by eapply merge_step_Forall. }
  assert (Hco : forall fuel L s L', coalesce fuel L s = Ok L' ->
            Forall Q L -> Forall Q L').
  { induction fuel as [|fuel IH]; intros L s L'; [done|].
    cbn [coalesce]. intros ([[L1 s2] f1] & E1 & E2)%bind_Ok_inv HL.
    pose proof (Hpass _ _ _ _ _ _ _ E1 HL) as HL1.
    destruct f1; [by eapply IH|]. by injection E2 as <-. }
  eapply Hco; [done|]. apply Forall_app. split; [done|]. by constructor.
Qed.

Lemma step_offsets e st st' :
  offsets_nonneg st ->
  match e with Produce _ var => 0 <= size (resolve var) | Consume _ => True end ->
  step e st = Ok st' -> offsets_nonneg st'.
Proof.
  intros [Hent Hfree] Hsz. destruct e as [op var|var]; cbn [step].
  - unfold process_output.
    destruct (is_constant (resolve var)); [by intros [= <-]|].
    destruct (layout_contains (layout st) (resolve var)); [by intros [= <-]|].
    assert (Hins : forall o, 0 <= o ->
              forall n a, append (layout st) (Plain (resolve var)) o !! n = Some a ->
                          0 <= offset a).
    { intros o Ho n a. unfold append. cbn [resolve].
      assert (o <> -1) as ->%Z.eqb_neq by lia.
      destruct (decide (n = name (resolve var))) as [->|Hne].
      - rewrite lookup_insert_eq. by intros [= <-].
      - rewrite lookup_insert_ne by done. apply Hent. }
    destruct (is_flatten op).
    + unfold allocate_inplace, layout_get.
      destruct (inputs op) as [|var_in rest]; [done|].
      destruct (layout st !! name (node_obj var_in)) as [a0|] eqn:Ea; [|done].
      rewrite bind_Ok.
      intros (l1 & [_ ->]%call_append_inv & Hst)%bind_Ok_inv.
      apply bind_Ok_inv in Hst as (c & _ & [= <-]).
      split; [|done]. cbn [layout]. apply Hins. by eapply Hent.
    + unfold allocate_general.
      destruct (sufficient_spaces (free_list st) (size (resolve var)))
        as [|x rest] eqn:E.
      * intros (l1 & [_ ->]%call_append_inv & [= <-])%bind_Ok_inv.
        split; [|done]. cbn [layout].
        intros n a. unfold append. cbn [resolve Z.eqb].
        destruct (decide (n = name (resolve var))) as [->|Hne].
        -- rewrite lookup_insert_eq. intros [= <-]. apply layout_size_nonneg.
        -- rewrite lookup_insert_ne by done. apply Hent.
      * intros (fl1 & Hrem & Hst)%bind_Ok_inv.
        apply bind_Ok_inv in Hst as (l1 & [_ ->]%call_append_inv & [= <-]).
        destruct (list_remove_Forall _ _ _ _ Hrem Hfree) as [Hx Hfl1].
        split; cbn [layout free_list]; [by apply Hins|].
        destruct (_ <? _); [|done].
        apply Forall_app. split; [done|]. constructor; [simpl; lia|done].
  - unfold process_input. destruct (is_constant (resolve var)); [by intros [= <-]|].
    intros (c & _ & Hst)%bind_Ok_inv. destruct (c - 1 =? 0).
    + apply bind_Ok_inv in Hst as (a & Ha & Hst).
      apply bind_Ok_inv in Hst as (fl & Hfl & [= <-]).
      split; [done|]. cbn [free_list].
      eapply (release_Forall (fun b => 0 <= b.1)); [|done|done|].
      * intros a0 b0 c0. simpl. lia.
      * unfold layout_get in Ha.
        destruct (layout st !! _) as [a1|] eqn:E1; [|done].
        injection Ha as <-. simpl. by eapply Hent.
    + by injection Hst as <-.
Qed.

(** X8. With values of non-negative size, on any graph (pass-through
    operators included), no offset is ever negative: not in the layout
    returned, not in the free list the pass ends with. The value [-1], which
    [append] reads as "no offset given", is therefore never passed as an
    offset. *)
Theorem offsets_never_negative (graph : Graph) (variables : list Var)
    (st : State) :
  sizes_nonneg graph ->
  allocate_variables_state graph variables = Ok st ->
  (forall n a, layout st !! n = Some a -> 0 <= offset a) /\
  Forall (fun b => 0 <= b.1) (free_list st).
Proof.
  intros [Hin Hout]. rewrite allocate_variables_state_events.
  intros (st0 & Hinit & Hrun)%bind_Ok_inv.
  assert (H0 : offsets_nonneg st0).
  { unfold initial_state in Hinit.
    apply bind_Ok_inv in Hinit as (l0 & Hseed & [= <-]).
    split; [|done]. cbn [layout].
    destruct (seed_inputs_ok (graph_inputs graph) ∅ l0) as (Hent & _);
      [|done|done|].
    { split; intros ?; intros; by rewrite lookup_empty in *. }
    intros n a Ha. by destruct (Hent n a Ha) as (_ & ? & _). }
  assert (Hes : Forall (fun e => match e with
                   | Produce _ var => 0 <= size (resolve var)
                   | Consume _ => True end) (events (operators_in_order graph))).
  { eapply list.Forall_impl; [apply events_from_ops|].
    intros [op var|var]; [|done]. intros [Hop Hvar].
    rewrite list.Forall_forall in Hout. by apply (Hout op). }
  clear Hinit. revert st0 H0 Hrun.
  induction Hes as [|e es He _ IH]; intros st0 H0.
  - by intros [= <-].
  - rewrite for_each_cons. intros (st1 & E & Hrun)%bind_Ok_inv.
    apply (IH st1); [|done]. by eapply step_offsets.
Qed.

Lemma offsets_never_negative_witness :
  exists st,
    allocate_variables_state DoubleRelease.graph DoubleRelease.variables
    = Ok st /\
    (forall n a, layout st !! n = Some a -> 0 <= offset a) /\
    Forall (fun b => 0 <= b.1) (free_list st).
Proof.
  destruct (allocate_variables_state DoubleRelease.graph
              DoubleRelease.variables) as [st|e] eqn:E;
    [|vm_compute in E; discriminate].
  exists st. split; [done|].
  apply (offsets_never_negative DoubleRelease.graph DoubleRelease.variables);
    [|done].
  split.
  - intros n ->%list_elem_of_singleton. simpl. lia.
  - repeat apply Forall_cons; try apply Forall_nil;
      intros n ->%list_elem_of_singleton; simpl; lia.
Defined.

(** ** Completion *)





Lemma step_succeeds R variables e st :
  good_state R st ->
  Forall (fun b => 0 < b.2) (free_list st) ->
  (forall v c, retain_count st !! v = Some c -> 0 < c -> 0 < size v) ->
  (forall v, v ∈ variables -> is_Some (retain_count st !! v)) ->
  ready_event variables e ->
  match e with
  | Produce _ _ => layout st !! "append" = None
  | Consume _ => True
  end ->
  exists st', step e st = Ok st' /\
    Forall (fun b => 0 < b.2) (free_list st') /\
    (forall v c, retain_count st' !! v = Some c -> 0 < c -> 0 < size v) /\
    (forall v, v ∈ variables -> is_Some (retain_count st' !! v)).
Proof.
  intros Hg Hpos Hrc Hkeys He Happ. destruct e as [op var|var]; cbn [step].
  - destruct He as [Hfl Hsz]. unfold process_output.
    destruct (is_constant (resolve var)); [by exists st|].
    destruct (layout_contains (layout st) (resolve var)); [by exists st|].
    rewrite Hfl. unfold allocate_general.
    assert (Hrc' : forall v c,
              <[resolve var := len_input_to (resolve var)]> (retain_count st)
                !! v = Some c -> 0 < c -> 0 < size v).
    { intros v c. destruct (decide (v = resolve var)) as [->|Hne].
      - by rewrite lookup_insert_eq.
      - rewrite lookup_insert_ne by done. apply Hrc. }
    assert (Hkeys' : forall v, v ∈ variables ->
              is_Some (<[resolve var := len_input_to (resolve var)]>
                         (retain_count st) !! v)).
    { intros v Hv. destruct (decide (v = resolve var)) as [->|Hne].
      - by rewrite lookup_insert_eq.
      - rewrite lookup_insert_ne by done. by apply Hkeys. }
    destruct (sufficient_spaces (free_list st) (size (resolve var)))
      as [|x rest] eqn:E.
    + rewrite call_append_Ok, bind_Ok by done.
      eexists. split; [done|]. by cbn [free_list retain_count].
    + destruct (sufficient_spaces_head _ _ _ _ E) as (m1 & m2 & Efl & Hx & _).
      destruct (list_remove_elem x (free_list st)) as (fl1 & -> & Hperm).
      { rewrite Efl. apply elem_of_app. right. apply elem_of_cons. by left. }
      rewrite bind_Ok, call_append_Ok, bind_Ok by done.
      eexists. split; [done|].
      cbn [free_list retain_count]. split; [|done].
      rewrite Hperm in Hpos. apply list.Forall_cons in Hpos as [_ Hpos1].
      destruct (_ <? _) eqn:Elt; [|done].
      apply Z.ltb_lt in Elt. apply Forall_app. split; [done|].
      constructor; [simpl; lia|constructor].
  - unfold process_input.
    destruct (is_constant (resolve var)) eqn:Ec; [by exists st|].
    rewrite (good_no_alias _ _ Hg), lookup_empty. cbn [default].
    destruct (Hkeys _ (He Ec)) as [c Hc].
    unfold dict_get. rewrite Hc, bind_Ok.
    assert (Hrc' : forall v c',
              <[resolve var := c - 1]> (retain_count st) !! v = Some c' ->
              0 < c' -> 0 < size v).
    { intros v c'. destruct (decide (v = resolve var)) as [->|Hne].
      - rewrite lookup_insert_eq. intros [= <-] ?. apply (Hrc _ c); [done|lia].
      - rewrite lookup_insert_ne by done. apply Hrc. }
    assert (Hkeys' : forall v, v ∈ variables ->
              is_Some (<[resolve var := c - 1]> (retain_count st) !! v)).
    { intros v Hv. destruct (decide (v = resolve var)) as [->|Hne].
      - by rewrite lookup_insert_eq.
      - rewrite lookup_insert_ne by done. by apply Hkeys. }
    destruct (c - 1 =? 0) eqn:E0.
    + apply Z.eqb_eq in E0.
      destruct (good_retained _ _ Hg _ _ Hc) as (a & Ha & Hva); [lia|].
      unfold layout_get. rewrite Ha, bind_Ok.
      assert (Hsz : 0 < alloc_size a).
      { unfold alloc_size. rewrite Hva. apply (Hrc _ c); [done|lia]. }
      assert (Hfree : forall p, in_block (offset a, alloc_size a) p ->
                cover (free_list st) p = 0%nat).
      { intros p Hp. apply (good_live_free _ _ Hg _ _ Ha); [|done].
        rewrite Hva. intros Hin.
        destruct (good_released _ _ Hg _ Hin) as [Hle _].
        specialize (Hle _ Hc). lia. }
      unfold release.
      destruct (coalesce_clean
                  (S (length (free_list st ++ [(offset a, alloc_size a)])))
                  (free_list st ++ [(offset a, alloc_size a)])
                  (offset a, alloc_size a))
        as (fl' & -> & [Hpos' _]).
      * lia.
      * split.
        -- apply Forall_app. split; [done|]. by constructor.
        -- intros p. rewrite cover_app, cover_cons, cover_nil. unfold holds.
           case_decide as Hin; [rewrite (Hfree p Hin); lia|].
           pose proof (good_cover _ _ Hg p). lia.
      * apply elem_of_app. right. by apply list_elem_of_singleton.
      * rewrite bind_Ok. eexists. split; [done|].
        by cbn [free_list retain_count].
    + eexists. split; [done|]. by cbn [free_list retain_count].
Qed.





(** A graph input named like the method: the seeding stores it, and the
    first allocation of the operator loop finds [layout.append] hidden. *)
Example input_named_append :
  allocate_variables
    (mkGraph [Plain (mkVar "append" 4 false 1)]
       [mkOperator false [Plain (mkVar "append" 4 false 1)]
                   [Plain (mkVar "Y" 4 false 0)]])
    [mkVar "append" 4 false 1; mkVar "Y" 4 false 0]
  = Raise TypeError.
Proof. vm_compute. reflexivity. Qed.

(** ** Graph inputs *)

Lemma step_count_present R e st st' V a :
  good_state R st -> plain_event e -> step e st = Ok st' ->
  layout st !! name V = Some a ->
  forall c', retain_count st' !! V = Some c' ->
    exists c, retain_count st !! V = Some c /\ c' <= c.
Proof.
  intros Hg He E Ha c' Hc'. destruct e as [op var|var]; cbn [step] in E.
  - destruct He as [Hfl Hsz]. unfold process_output in E.
    destruct (is_constant (resolve var));
      [injection E as <-; exists c'; split; [done|lia]|].
    unfold layout_contains in E. case_bool_decide as Hcont;
      [injection E as <-; exists c'; split; [done|lia]|].
    rewrite Hfl in E.
    assert (Hnone : layout st !! name (resolve var) = None).
    { destruct (layout st !! name (resolve var)) eqn:El; [|done].
      destruct Hcont. by eexists. }
    destruct (allocate_general_good R _ _ _ Hg Hsz Hnone E)
      as (_ & o & _ & Hrc & _).
    rewrite Hrc in Hc'. rewrite lookup_insert_ne in Hc'.
    + exists c'. split; [done|lia].
    + intros Heq. rewrite Heq, Ha in Hnone. done.
  - destruct (process_input_good R _ _ _ Hg E) as (_ & _ & Hrc).
    by apply Hrc.
Qed.

Lemma run_held V a es : forall R st st',
  good_state R st -> Forall plain_event es ->
  for_each step es st = Ok st' ->
  layout st !! name V = Some a -> variable a = V -> V ∉ R ->
  (forall c, retain_count st !! V = Some c -> c <= 0) ->
  good_state (released es st ++ R) st' /\
  (V ∉ released es st ++ R) /\
  layout st' !! name V = Some a /\
  (forall n b, layout st' !! n = Some b -> layout st !! n = None ->
     disjoint_blocks (block b) (block a)).
Proof.
  induction es as [|e es IH]; intros R st st' Hgood Hplain.
  - intros [= <-] Ha Hva HVR Hc. cbn [released app].
    repeat (split; [done|]). intros n b Hb Hn. congruence.
  - rewrite for_each_cons. intros (st1 & E & Hrun)%bind_Ok_inv Ha Hva HVR Hc.
    inversion_clear Hplain as [|? ? He Hes].
    destruct (step_good R e st st1 Hgood He E) as (Hg1 & Hmono & Hnew & _).
    assert (HVR1 : V ∉ option_list (released_by e st) ++ R).
    { rewrite elem_of_app. intros [Hin|Hin]; [|done].
      destruct e as [op var|var]; cbn [released_by option_list] in Hin.
      - by apply elem_of_nil in Hin.
      - destruct (is_constant (resolve var)); [by apply elem_of_nil in Hin|].
        rewrite (good_no_alias _ _ Hgood), lookup_empty in Hin.
        cbn [default] in Hin.
        destruct (retain_count st !! resolve var) as [c|] eqn:Erc;
          [|by apply elem_of_nil in Hin].
        destruct (c - 1 =? 0) eqn:E0; [|by apply elem_of_nil in Hin].
        apply list_elem_of_singleton in Hin. rewrite <- Hin in Erc.
        apply Z.eqb_eq in E0. specialize (Hc c Erc). lia. }
    assert (Hc1 : forall c, retain_count st1 !! V = Some c -> c <= 0).
    { intros c' Hc'.
      destruct (step_count_present R e st st1 V a Hgood He E Ha c' Hc')
        as (c & Hcc & ?).
      specialize (Hc c Hcc). lia. }
    destruct (IH _ _ _ Hg1 Hes Hrun (Hmono _ _ Ha) Hva HVR1 Hc1)
      as (Hg2 & HVR2 & Ha2 & Hnew2).
    cbn [released]. rewrite E.
    assert (Heq : forall v, v ∈ released es st1 ++ option_list (released_by e st) ++ R
                     <-> v ∈ (option_list (released_by e st) ++ released es st1) ++ R).
    { intros v. rewrite !elem_of_app. tauto. }
    split; [by eapply good_state_equiv|].
    split; [by rewrite <- Heq|].
    split; [done|].
    intros n b Hb Hn.
    destruct (layout st1 !! n) as [b1|] eqn:E1.
    + assert (b1 = b) as ->.
      { pose proof (run_layout_stable es st1 st' n b1 Hrun E1). congruence. }
      apply (Hnew n b E1 Hn (name V) a Ha). by rewrite Hva.
    + by apply (Hnew2 n).
Qed.

(** X10. In a graph without pass-through operators, the allocation of a
    graph input is never given up: it is in the layout returned as it was
    seeded, its value is never released (however many operators read it),
    no block of the final free list overlaps it, and no allocation made
    during the pass overlaps it. *)
Theorem graph_inputs_never_released (graph : Graph) (variables : list Var)
    (st0 st : State) (n : string) (a : Allocation) :
  no_pass_through graph -> sizes_nonneg graph ->
  initial_state graph variables = Ok st0 ->
  allocate_variables_state graph variables = Ok st ->
  layout st0 !! n = Some a ->
  layout st !! n = Some a /\
  (variable a ∉ released_during graph variables) /\
  (forall b, b ∈ free_list st -> disjoint_blocks b (block a)) /\
  (forall m b, layout st !! m = Some b -> layout st0 !! m = None ->
     disjoint_blocks (block b) (block a)).
Proof.
  intros Hnp Hsz Hinit Hst Ha.
  pose proof (events_plain _ Hnp Hsz) as Hplain.
  destruct (initial_state_good _ _ _ (proj1 Hsz) Hinit) as [Hg0 Hzero].
  rewrite allocate_variables_state_events, Hinit, bind_Ok in Hst.
  destruct (good_entries _ _ Hg0 n a Ha) as (Hn & _).
  rewrite <- Hn in Ha.
  destruct (run_held (variable a) a _ [] st0 st Hg0 Hplain Hst Ha eq_refl)
    as (Hg & HV & Ha' & Hnew).
  { by intros ?%elem_of_nil. }
  { intros c Hc. rewrite (Hzero _ _ Hc). lia. }
  rewrite Hn in Ha'. split; [done|]. split.
  { unfold released_during. rewrite Hinit. by rewrite app_nil_r in HV. }
  split; [|done].
  intros b Hb p [Hpb Hpa].
  rewrite <- Hn in Ha'.
  pose proof (good_live_free _ _ Hg _ _ Ha' HV p Hpa) as Hc.
  assert (0 < cover (free_list st) p)%nat; [|lia].
  apply cover_pos. by exists b.
Qed.

Lemma graph_inputs_never_released_witness :
  exists st0 st a,
    initial_state Reuse.graph Reuse.variables = Ok st0 /\
    layout st0 !! "X" = Some a /\
    layout st !! "X" = Some a /\
    (variable a ∉ released_during Reuse.graph Reuse.variables) /\
    (forall b, b ∈ free_list st -> disjoint_blocks b (block a)) /\
    (forall m b, layout st !! m = Some b -> layout st0 !! m = None ->
       disjoint_blocks (block b) (block a)).
Proof.
  destruct (initial_state Reuse.graph Reuse.variables) as [st0|e] eqn:E0;
    [|vm_compute in E0; discriminate].
  destruct (allocate_variables_state Reuse.graph Reuse.variables)
    as [st|e] eqn:E; [|vm_compute in E; discriminate].
  exists st0, st, (mkAllocation Reuse.X 0).
  assert (Ha : layout st0 !! "X" = Some (mkAllocation Reuse.X 0)).
  { vm_compute in E0. injection E0 as <-. reflexivity. }
  split; [done|]. split; [done|].
  apply (graph_inputs_never_released Reuse.graph Reuse.variables st0 st);
    [| |done|done|done].
  - repeat constructor.
  - split.
    + intros n ->%list_elem_of_singleton. simpl. lia.
    + repeat apply Forall_cons; try apply Forall_nil;
        intros n ->%list_elem_of_singleton; simpl; lia.
Defined.

(** ** The arena is no longer than what it holds *)

Lemma total_sizes_insert_fresh (l : MemoryLayout) n a :
  l !! n = None -> total_sizes (<[n:=a]> l) = alloc_size a + total_sizes l.
Proof.
  intros Hn. unfold total_sizes.
  rewrite map_fold_insert_L; [done| |done].
  intros; lia.
Qed.

Lemma append_fresh_arena (l : MemoryLayout) var o :
  l !! name var = None -> 0 <= size var ->
  (forall n a, l !! n = Some a -> 0 <= alloc_size a) ->
  layout_size l <= total_sizes l ->
  (o = -1 \/ o <= layout_size l) ->
  (forall n a, append l (Plain var) o !! n = Some a -> 0 <= alloc_size a) /\
  layout_size l <= layout_size (append l (Plain var) o) /\
  layout_size (append l (Plain var) o) <= total_sizes (append l (Plain var) o).
Proof.
  intros Hn Hsz Hent Hle Ho. unfold append. cbn [resolve].
  set (o' := if o =? -1 then layout_size l else o).
  assert (Ho' : o' <= layout_size l).
  { unfold o'. destruct (o =? -1) eqn:E; [lia|].
    apply Z.eqb_neq in E. lia. }
  rewrite layout_size_insert_fresh, total_sizes_insert_fresh by done.
  unfold extent, alloc_size. cbn [variable offset].
  split; [|lia].
  intros n a. destruct (decide (n = name var)) as [->|Hne].
  - rewrite lookup_insert_eq. by intros [= <-].
  - rewrite lookup_insert_ne by done. apply Hent.
Qed.

Lemma seed_inputs_arena ins : forall l l',
  NoDup (seeded_names ins) ->
  (forall n, n ∈ seeded_names ins -> l !! n = None) ->
  (forall n, n ∈ ins -> 0 <= size (resolve n)) ->
  (forall n a, l !! n = Some a -> 0 <= alloc_size a) ->
  layout_size l <= total_sizes l ->
  for_each seed_input ins l = Ok l' ->
  (forall n a, l' !! n = Some a -> 0 <= alloc_size a) /\
  layout_size l' <= total_sizes l'.
Proof.
  induction ins as [|i ins IH]; intros l l' Hnd Hfresh Hsz Hent Hle.
  - by intros [= <-].
  - rewrite for_each_cons. intros (l1 & E1 & Hrest)%bind_Ok_inv. revert Hrest.
    apply seed_input_inv in E1.
    unfold seeded_names in Hnd, Hfresh. rewrite fmap_cons in Hnd, Hfresh.
    destruct (is_constant (resolve i)) eqn:Ec; subst l1.
    + rewrite filter_cons_False in Hnd, Hfresh by congruence.
      apply IH; try done. intros n Hn. apply Hsz, elem_of_cons. by right.
    + rewrite filter_cons_True in Hnd, Hfresh by done.
      rewrite fmap_cons in Hnd, Hfresh.
      apply list.NoDup_cons in Hnd as [Hni Hnd].
      destruct (append_fresh_arena l (resolve i) (-1)) as (Hent1 & _ & Hle1);
        try done.
      { apply Hfresh, elem_of_cons. by left. }
      { apply Hsz, elem_of_cons. by left. }
      { by left. }
      apply IH; try done.
      * intros n Hn. unfold append. cbn [resolve].
        rewrite lookup_insert_ne; [apply Hfresh, elem_of_cons; by right|].
        intros <-. by apply Hni.
      * intros n Hn. apply Hsz, elem_of_cons. by right.
Qed.

Lemma step_arena e st st' :
  arena_inv st ->
  match e with Produce _ var => 0 <= size (resolve var) | Consume _ => True end ->
  step e st = Ok st' -> arena_inv st'.
Proof.
  intros (Hent & Hfree & Hle) Hsz. destruct e as [op var|var]; cbn [step].
  - unfold process_output.
    destruct (is_constant (resolve var)); [by intros [= <-]|].
    unfold layout_contains. case_bool_decide as Hcont; [by intros [= <-]|].
    assert (Hnone : layout st !! name (resolve var) = None).
    { destruct (layout st !! name (resolve var)) eqn:El; [|done].
      destruct Hcont. by eexists. }
    assert (Hgrow : forall o fl, o = -1 \/ o <= layout_size (layout st) ->
              Forall (fun b => b.1 + b.2 <= layout_size (layout st)) fl ->
              forall rc ia,
              arena_inv (mkState (append (layout st) (Plain (resolve var)) o)
                                 rc fl ia)).
    { intros o fl Ho Hfl rc ia.
      destruct (append_fresh_arena (layout st) (resolve var) o)
        as (Hent1 & Hmono & Hle1); try done.
      split; [done|]. split; [|done]. cbn [free_list layout].
      eapply list.Forall_impl; [exact Hfl|]. intros b Hb. simpl in *. lia. }
    destruct (is_flatten op).
    + unfold allocate_inplace, layout_get.
      destruct (inputs op) as [|var_in rest]; [done|].
      destruct (layout st !! name (node_obj var_in)) as [a0|] eqn:Ea; [|done].
      rewrite bind_Ok.
      intros (l1 & [_ ->]%call_append_inv & Hst)%bind_Ok_inv.
      apply bind_Ok_inv in Hst as (c & _ & [= <-]).
      apply Hgrow; [|done]. right.
      pose proof (layout_size_ub _ _ _ Ea). pose proof (Hent _ _ Ea).
      unfold extent in *. lia.
    + unfold allocate_general.
      destruct (sufficient_spaces (free_list st) (size (resolve var)))
        as [|x rest] eqn:E.
      * intros (l1 & [_ ->]%call_append_inv & [= <-])%bind_Ok_inv.
        apply Hgrow; [by left|done].
      * intros (fl1 & Hrem & Hst)%bind_Ok_inv.
        apply bind_Ok_inv in Hst as (l1 & [_ ->]%call_append_inv & [= <-]).
        destruct (sufficient_spaces_head _ _ _ _ E) as (_ & _ & _ & Hx & _).
        destruct (list_remove_Forall _ _ _ _ Hrem Hfree) as [Hxe Hfl1].
        cbn beta in Hxe.
        apply Hgrow; [right; lia|].
        destruct (_ <? _); [|done].
        apply Forall_app. split; [done|]. constructor; [simpl; lia|done].
  - unfold process_input. destruct (is_constant (resolve var)); [by intros [= <-]|].
    intros (c & _ & Hst)%bind_Ok_inv. destruct (c - 1 =? 0).
    + apply bind_Ok_inv in Hst as (a & Ha & Hst).
      apply bind_Ok_inv in Hst as (fl & Hfl & [= <-]).
      split; [done|]. split; [|done]. cbn [free_list layout].
      eapply (release_Forall
                (fun b => b.1 + b.2 <= layout_size (layout st))); [|done|done|].
      * intros a0 b0 c0. simpl. lia.
      * unfold layout_get in Ha.
        destruct (layout st !! _) as [a1|] eqn:E1; [|done].
        injection Ha as <-. simpl. by apply (layout_size_ub _ _ _ E1).
    + by injection Hst as <-.
Qed.

(** X11. Reuse never costs space: on any graph (pass-through operators
    included) with sizes that are not negative and graph inputs of distinct
    names, the arena [allocate_variables] lays out is no longer than the sum
    of the sizes of the allocations in it, and no free block reaches beyond
    it. *)
Theorem arena_within_total_size (graph : Graph) (variables : list Var)
    (st : State) :
  sizes_nonneg graph -> NoDup (seeded_names (graph_inputs graph)) ->
  allocate_variables_state graph variables = Ok st ->
  layout_size (layout st) <= total_sizes (layout st) /\
  Forall (fun b => b.1 + b.2 <= layout_size (layout st)) (free_list st).
Proof.
  intros [Hin Hout] Hnd. rewrite allocate_variables_state_events.
  intros (st0 & Hinit & Hrun)%bind_Ok_inv.
  assert (H0 : arena_inv st0).
  { unfold initial_state in Hinit.
    apply bind_Ok_inv in Hinit as (l0 & Hseed & [= <-]).
    by destruct (seed_inputs_arena _ ∅ l0 Hnd) as [Hent Hle]. }
  assert (Hes : Forall (fun e => match e with
                   | Produce _ var => 0 <= size (resolve var)
                   | Consume _ => True end) (events (operators_in_order graph))).
  { eapply list.Forall_impl; [apply events_from_ops|].
    intros [op var|var]; [|done]. intros [Hop Hvar].
    rewrite list.Forall_forall in Hout. by apply (Hout op). }
  assert (Hend : arena_inv st); [|by destruct Hend as (_ & ? & ?)].
  clear Hinit. revert st0 H0 Hrun.
  induction Hes as [|e es He _ IH]; intros st0 H0.
  - by intros [= <-].
  - rewrite for_each_cons. intros (st1 & E & Hrun)%bind_Ok_inv.
    apply (IH st1); [|done]. by eapply step_arena.
Qed.

Lemma arena_within_total_size_witness :
  exists st,
    allocate_variables_state DoubleRelease.graph DoubleRelease.variables
    = Ok st /\
    layout_size (layout st) <= total_sizes (layout st) /\
    Forall (fun b => b.1 + b.2 <= layout_size (layout st)) (free_list st).
Proof.
  destruct (allocate_variables_state DoubleRelease.graph
              DoubleRelease.variables) as [st|e] eqn:E;
    [|vm_compute in E; discriminate].
  exists st. split; [done|].
  apply (arena_within_total_size DoubleRelease.graph DoubleRelease.variables);
    [| |done].
  - split.
    + intros n ->%list_elem_of_singleton. simpl. lia.
    + repeat apply Forall_cons; try apply Forall_nil;
        intros n ->%list_elem_of_singleton; simpl; lia.
  - vm_compute. apply NoDup_singleton.
Defined.

(** ** What [variables] is used for *)

(** X12. [variables] only seeds the keys of [retain_count]: two lists with
    the same elements, in whatever order and with whatever repetitions, give
    the same result, layout or exception. *)
Theorem variables_read_as_a_set (graph : Graph) (vs1 vs2 : list Var) :
  (forall v, v ∈ vs1 <-> v ∈ vs2) ->
  allocate_variables graph vs1 = allocate_variables graph vs2.
Proof.
  intros Hp. unfold allocate_variables, allocate_variables_state, initial_state.
  assert ((list_to_map ((fun v => (v, 0)) <$> vs1) : gmap Var Z)
          = list_to_map ((fun v => (v, 0)) <$> vs2)) as ->; [|done].
  apply map_eq. intros v. rewrite !zero_counts_spec.
  destruct (decide (v ∈ vs1)) as [H1|H1]; destruct (decide (v ∈ vs2)) as [H2|H2];
    try done; exfalso.
  - apply H2. by apply Hp.
  - apply H1. by apply Hp.
Qed.

Lemma variables_read_as_a_set_witness :
  allocate_variables Reuse.graph [Reuse.X; Reuse.Y; Reuse.Z; Reuse.W]
  = allocate_variables Reuse.graph
      [Reuse.W; Reuse.Z; Reuse.Z; Reuse.Y; Reuse.X; Reuse.W].
Proof.
  apply variables_read_as_a_set. intros v. set_solver.
Defined.

(** ** The exceptions of the pass *)

Lemma release_raises fl s1 e : release fl s1 = Raise e -> e = ValueError.
Proof.
  unfold release.
  destruct (coalesce_fuel (S (length (fl ++ [s1]))) (fl ++ [s1]) s1)
    as [[fl' ->]| ->]; [lia|done|by intros [= <-]].
Qed.

(** What one event can raise. *)
Lemma step_raises e st ex :
  step e st = Raise ex ->
  ex = KeyError \/ ex = ValueError \/
  (ex = IndexError /\
   exists op var, e = Produce op var /\ is_flatten op = true /\
                  inputs op = []) \/
  (ex = TypeError /\ is_Some (layout st !! "append")).
Proof.
  destruct e as [op var|var]; cbn [step].
  - unfold process_output.
    destruct (is_constant (resolve var)); [done|].
    destruct (layout_contains (layout st) (resolve var)); [done|].
    destruct (is_flatten op) eqn:Hfl.
    + unfold allocate_inplace, layout_get, dict_get.
      destruct (inputs op) as [|var_in rest] eqn:Ein.
      { intros [= <-]. right. right. left. split; [done|]. by exists op, var. }
      destruct (layout st !! name (node_obj var_in));
        [|intros [= <-]; by left].
      rewrite bind_Ok.
      destruct (call_append _ _ _) as [l1|e1] eqn:Ea.
      2:{ apply call_append_Raise in Ea as [Hsh ->]. intros [= <-]. auto. }
      rewrite bind_Ok.
      destruct (retain_count st !! node_obj var_in);
        [done|intros [= <-]; by left].
    + unfold allocate_general.
      destruct (sufficient_spaces (free_list st) (size (resolve var)))
        as [|space rest].
      { destruct (call_append _ _ _) as [l1|e1] eqn:Ea; [done|].
        apply call_append_Raise in Ea as [Hsh ->]. intros [= <-]. auto. }
      destruct (list_remove space (free_list st)) as [fl|e'] eqn:E.
      2:{ apply list_remove_Raise in E as [_ ->]. intros [= <-]. auto. }
      rewrite bind_Ok.
      destruct (call_append _ _ _) as [l1|e1] eqn:Ea; [done|].
      apply call_append_Raise in Ea as [Hsh ->]. intros [= <-]. auto.
  - unfold process_input, layout_get, dict_get.
    destruct (is_constant (resolve var)); [done|].
    destruct (retain_count st !! _) as [c|]; [|intros [= <-]; by left].
    rewrite bind_Ok. destruct (c - 1 =? 0); [|done].
    destruct (layout st !! _) as [a|]; [|intros [= <-]; by left].
    rewrite bind_Ok.
    destruct (release (free_list st) (offset a, alloc_size a)) as [fl|e'] eqn:E;
      [done|].
    apply release_raises in E as ->. intros [= <-]. auto.
Qed.

(** An entry named ["append"] is a value of the graph. *)
Lemma shadowing_entry graph (l : MemoryLayout) :
  entries_from graph l -> is_Some (l !! "append") ->
  exists v, produced_in graph v /\ is_constant v = false /\ name v = "append".
Proof.
  intros Hent [a Ha]. destruct (Hent _ _ Ha) as (Hn & Hc & Hp).
  by exists (variable a).
Qed.

Lemma seed_inputs_raises graph ins : forall l e,
  (forall n, n ∈ ins -> n ∈ graph_inputs graph) ->
  entries_from graph l ->
  for_each seed_input ins l = Raise e ->
  e = TypeError /\
  exists v, produced_in graph v /\ is_constant v = false /\ name v = "append".
Proof.
  induction ins as [|m ins IH]; intros l e Hsub Hent; [done|].
  rewrite for_each_cons.
  destruct (seed_input m l) as [l1|e1] eqn:E.
  - rewrite bind_Ok. apply IH.
    + intros n Hn. apply Hsub, elem_of_cons. by right.
    + destruct (seed_inputs_entries graph [m] l l1) as (H1 & _).
      * intros n ->%list_elem_of_singleton. apply Hsub, elem_of_cons. by left.
      * done.
      * by rewrite for_each_cons, E.
      * done.
  - rewrite bind_Raise. intros [= <-]. unfold seed_input in E.
    destruct (is_constant (resolve m)); [done|].
    apply call_append_Raise in E as [Hsh ->]. split; [done|].
    by eapply shadowing_entry.
Qed.

Lemma step_entries graph e st st' :
  match e with
  | Produce op var => op ∈ operators_in_order graph /\ var ∈ outputs op
  | Consume _ => True
  end ->
  entries_from graph (layout st) -> step e st = Ok st' ->
  entries_from graph (layout st').
Proof.
  intros He Hent E.
  destruct (run_entries graph [e] st st') as [H _]; [by constructor|done| |done].
  by rewrite for_each_cons, E.
Qed.




Lemma run_raises_plain graph es : forall R st ex,
  good_state R st ->
  Forall (fun b => 0 < b.2) (free_list st) ->
  (forall v c, retain_count st !! v = Some c -> 0 < c -> 0 < size v) ->
  entries_from graph (layout st) ->
  Forall (fun ev => match ev with
                    | Produce op var =>
                        (op ∈ operators_in_order graph /\ var ∈ outputs op) /\
                        is_flatten op = false /\ 0 < size (resolve var)
                    | Consume _ => True
                    end) es ->
  for_each step es st = Raise ex ->
  ex = KeyError \/
  (ex = TypeError /\
   exists v, produced_in graph v /\ is_constant v = false /\
             name v = "append").
Proof.
  induction es as [|ev es IH]; intros R st ex Hg Hpos Hrc Hent Hes; [done|].
  apply list.Forall_cons in Hes as [Hev Hes]. rewrite for_each_cons.
  destruct (step ev st) as [st1|e1] eqn:E.
  - rewrite bind_Ok.
    assert (Hplain : plain_event ev).
    { destruct ev as [op var|var]; [|done].
      destruct Hev as (_ & ? & ?). split; [done|lia]. }
    destruct (step_good R ev st st1 Hg Hplain E) as [Hg1 _].
    assert (Hent1 : entries_from graph (layout st1)).
    { eapply step_entries; [|done|done]. destruct ev; [|done]. by destruct Hev. }
    assert (Hpos1 : Forall (fun b => 0 < b.2) (free_list st1) /\
              (forall v c, retain_count st1 !! v = Some c -> 0 < c ->
                           0 < size v)).
    { destruct ev as [op var|var].
      - destruct (layout st !! "append") as [a|] eqn:Happ.
        + cbn [step] in E. unfold process_output in E.
          destruct (is_constant (resolve var)); [by injection E as <-|].
          destruct (layout_contains (layout st) (resolve var));
            [by injection E as <-|].
          destruct Hev as (_ & Hfl & _). rewrite Hfl in E.
          rewrite allocate_general_shadowed in E by (by rewrite Happ).
          done.
        + destruct (step_succeeds R [] (Produce op var) st Hg Hpos Hrc)
            as (st2 & E2 & Hpos2 & Hrc2 & _);
            [by intros v ?%elem_of_nil| |done|].
          { by destruct Hev as (_ & ? & ?). }
          rewrite E in E2. by injection E2 as <-.
      - destruct (is_constant (resolve var)) eqn:Hc.
        { cbn [step] in E. unfold process_input in E. rewrite Hc in E.
          by injection E as <-. }
        destruct (retain_count st !! resolve var) as [c|] eqn:Ec.
        + destruct (step_succeeds R [resolve var] (Consume var) st Hg Hpos Hrc)
            as (st2 & E2 & Hpos2 & Hrc2 & _).
          { intros v ->%list_elem_of_singleton. by rewrite Ec. }
          { intros _. by apply list_elem_of_singleton. }
          { done. }
          rewrite E in E2. by injection E2 as <-.
        + cbn [step] in E. unfold process_input in E. rewrite Hc in E.
          rewrite (good_no_alias _ _ Hg), lookup_empty in E.
          cbn [default] in E. unfold dict_get in E. by rewrite Ec in E. }
    destruct Hpos1 as [Hpos1 Hrc1]. by eapply IH.
  - rewrite bind_Raise. intros [= <-].
    destruct ev as [op var|var].
    + destruct (layout st !! "append") as [a|] eqn:Happ.
      * destruct (step_raises _ _ _ E)
          as [->|[->|[(-> & op' & var' & [= <- <-] & Hfl & _)|[-> Hsh]]]].
        -- by left.
        -- exfalso. cbn [step] in E. unfold process_output in E.
           destruct (is_constant (resolve var)); [done|].
           destruct (layout_contains (layout st) (resolve var)); [done|].
           destruct Hev as (_ & Hfl & _). rewrite Hfl in E.
           rewrite allocate_general_shadowed in E by (by rewrite Happ).
           done.
        -- destruct Hev as (_ & Hfl' & _). congruence.
        -- right. split; [done|]. by eapply shadowing_entry.
      * destruct (step_succeeds R [] (Produce op var) st Hg Hpos Hrc)
          as (st2 & E2 & _); [by intros v ?%elem_of_nil| |done|].
        { by destruct Hev as (_ & ? & ?). }
        rewrite E in E2. done.
    + left. destruct (is_constant (resolve var)) eqn:Hc.
      { cbn [step] in E. unfold process_input in E. by rewrite Hc in E. }
      destruct (retain_count st !! resolve var) as [c|] eqn:Ec.
      * destruct (step_succeeds R [resolve var] (Consume var) st Hg Hpos Hrc)
          as (st2 & E2 & _).
        { intros v ->%list_elem_of_singleton. by rewrite Ec. }
        { intros _. by apply list_elem_of_singleton. }
        { done. }
        rewrite E in E2. done.
      * cbn [step] in E. unfold process_input in E. rewrite Hc in E.
        rewrite (good_no_alias _ _ Hg), lookup_empty in E.
        cbn [default] in E. unfold dict_get in E. rewrite Ec in E.
        rewrite bind_Raise in E. by injection E as <-.
Qed.

(** X14. On a graph without pass-through operators whose values all have
    positive size, [allocate_variables] can raise only the [KeyError] of
    [retain_count[v2] -= 1], for a value that is read but is neither listed
    in [variables] nor produced before, and, when a non-constant value is
    named ["append"], the [TypeError] of the next call of [layout.append]:
    no [remove] ever misses its block and no lookup in the layout fails. *)
Theorem plain_graph_exceptions (graph : Graph) (variables : list Var)
    (e : exn) :
  no_pass_through graph -> sizes_positive graph ->
  allocate_variables graph variables = Raise e ->
  e = KeyError \/
  (e = TypeError /\
   exists v, produced_in graph v /\ is_constant v = false /\
             name v = "append").
Proof.
  intros Hnp Hsz. unfold allocate_variables.
  rewrite allocate_variables_state_events.
  destruct (initial_state graph variables) as [st0|e0] eqn:Hinit.
  2:{ rewrite !bind_Raise. intros [= <-]. unfold initial_state in Hinit.
      destruct (for_each seed_input (graph_inputs graph) ∅) as [l|e1] eqn:E0;
        [done|].
      rewrite bind_Raise in Hinit. injection Hinit as <-. right.
      by apply (seed_inputs_raises graph _ _ _ ltac:(done)
                  ltac:(by intros n a; rewrite lookup_empty) E0). }
  rewrite bind_Ok.
  destruct (initial_state_good graph variables st0) as [Hg0 Hzero]; [|done|].
  { intros n Hn. destruct Hsz as [Hsz _]. specialize (Hsz n Hn). lia. }
  destruct (for_each step _ _) as [st|e1] eqn:E; [done|].
  rewrite bind_Raise. intros [= <-].
  eapply (run_raises_plain graph _ [] _ _ Hg0); [| | | |exact E].
  - unfold initial_state in Hinit.
    apply bind_Ok_inv in Hinit as (l & _ & [= <-]). constructor.
  - intros v c Hc Hlt. apply Hzero in Hc. lia.
  - unfold initial_state in Hinit.
    apply bind_Ok_inv in Hinit as (l & E0 & [= <-]). cbn [layout].
    by destruct (seed_inputs_entries graph _ ∅ l ltac:(done)
                   ltac:(by intros n a; rewrite lookup_empty) E0).
  - destruct Hsz as [_ Hsz]. unfold no_pass_through in Hnp.
    eapply list.Forall_impl; [apply events_from_ops|].
    intros [op var|var]; [|done]. intros [Hop Hvar].
    rewrite list.Forall_forall in Hnp, Hsz.
    split; [done|]. split; [by apply Hnp|by apply (Hsz op)].
Qed.

Lemma plain_graph_exceptions_witness :
  allocate_variables Reuse.graph [] = Raise KeyError /\
  (KeyError = KeyError \/
   (KeyError = TypeError /\
    exists v, produced_in Reuse.graph v /\ is_constant v = false /\
              name v = "append")).
Proof.
  assert (H : allocate_variables Reuse.graph [] = Raise KeyError)
    by (vm_compute; reflexivity).
  split; [exact H|].
  apply (plain_graph_exceptions Reuse.graph [] KeyError); [| |exact H].
  - repeat constructor.
  - split.
    + intros n ->%list_elem_of_singleton. simpl. lia.
    + repeat apply Forall_cons; try apply Forall_nil;
        intros n ->%list_elem_of_singleton; simpl; lia.
Defined.

(** ** The buffer of the constants *)










(** * Chains of adjacent blocks *)

(** ** Free blocks that no piece of the chain touches stay in place *)

Lemma list_remove_prefix x (l1 l2 : list Space) :
  x ∉ l1 ->
  list_remove x (l1 ++ l2) = (l2' ← list_remove x l2; Ok (l1 ++ l2')).
Proof.
  induction l1 as [|y l1 IH]; intros Hx.
  - cbn [app]. by destruct (list_remove x l2).
  - rewrite <- app_comm_cons. cbn [list_remove].
    rewrite decide_False by (intros ->; apply Hx, elem_of_cons; auto).
    rewrite IH by (intros ?; apply Hx, elem_of_cons; auto).
    by destruct (list_remove x l2).
Qed.

Lemma merge_pass_Forall (Q : Space -> Prop) xs : forall L s f L' s' f',
  (forall a b c, Q a -> Q b -> a.1 + a.2 = b.1 ->
     c.1 = a.1 -> c.2 = a.2 + b.2 -> Q c) ->
  for_each merge_step xs (L, s, f) = Ok (L', s', f') ->
  Forall Q L -> Forall Q L'.
Proof.
  induction xs as [|x xs IH]; intros L s f L' s' f' HQ.
  - by intros [= <- <- <-].
  - rewrite for_each_cons. intros ([[L1 s2] f1] & E1 & E2)%bind_Ok_inv HL.
    eapply IH; [done|done|]. by eapply merge_step_Forall.
Qed.

Section chain_prefix.

Variables (ch fl : list Space).
Hypothesis Hfl : Forall (fun c => Forall (apart c) ch) fl.

Lemma free_apart_piece c s : c ∈ fl -> piece ch s -> apart c s.
Proof using Hfl.
  intros Hc (_ & (b1 & Hb1 & E1) & (b2 & Hb2 & E2)).
  rewrite list.Forall_forall in Hfl. specialize (Hfl c Hc).
  rewrite list.Forall_forall in Hfl.
  destruct (Hfl b1 Hb1) as [H1 _]. destruct (Hfl b2 Hb2) as [_ H2].
  split; lia.
Qed.

Lemma piece_join u v c :
  piece ch u -> piece ch v -> u.1 + u.2 = v.1 ->
  c.1 = u.1 -> c.2 = u.2 + v.2 -> piece ch c.
Proof.
  intros (Hu & (b1 & Hb1 & E1) & _) (Hv & _ & (b2 & Hb2 & E2)) Hadj Hc1 Hc2.
  split; [lia|]. split; [exists b1|exists b2]; split; try done; lia.
Qed.

Lemma merge_step_prefix x G s1 f :
  piece ch s1 -> piece ch x ->
  merge_step x (fl ++ G, s1, f)
  = ('(G', s', f') ← merge_step x (G, s1, f); Ok (fl ++ G', s', f')).
Proof using Hfl.
  intros Hs1 Hx. unfold merge_step.
  assert (Hsecond : forall G0 s0 f0, piece ch s0 ->
    (if x.1 =? s0.1 + s0.2
     then free_list ← list_remove s0 (fl ++ G0);
          free_list ← list_remove x free_list;
          Ok (free_list ++ [(s0.1, x.2 + s0.2)], (s0.1, x.2 + s0.2), true)
     else Ok (fl ++ G0, s0, f0))
    = ('(G', s', f') ←
         (if x.1 =? s0.1 + s0.2
          then free_list ← list_remove s0 G0;
               free_list ← list_remove x free_list;
               Ok (free_list ++ [(s0.1, x.2 + s0.2)], (s0.1, x.2 + s0.2), true)
          else Ok (G0, s0, f0));
       Ok (fl ++ G', s', f'))).
  { intros G0 s0 f0 Hs0. destruct (x.1 =? s0.1 + s0.2) eqn:T; [|done].
    apply Z.eqb_eq in T.
    rewrite list_remove_prefix.
    2:{ intros Hin. destruct (free_apart_piece _ _ Hin Hx) as [H _]. lia. }
    destruct (list_remove s0 G0) as [G1|e]; [|done]. rewrite !bind_Ok.
    rewrite list_remove_prefix.
    2:{ intros Hin. destruct (free_apart_piece _ _ Hin Hs0) as [_ H]. lia. }
    destruct (list_remove x G1) as [G2|e]; [|done]. rewrite !bind_Ok.
    by rewrite <- app_assoc. }
  destruct (x.1 + x.2 =? s1.1) eqn:T; [|rewrite !bind_Ok; by apply Hsecond].
  apply Z.eqb_eq in T.
  rewrite list_remove_prefix.
  2:{ intros Hin. destruct (free_apart_piece _ _ Hin Hx) as [_ H]. lia. }
  destruct (list_remove s1 G) as [G1|e]; [|done]. rewrite !bind_Ok.
  rewrite list_remove_prefix.
  2:{ intros Hin. destruct (free_apart_piece _ _ Hin Hs1) as [H _]. lia. }
  destruct (list_remove x G1) as [G2|e]; [|done]. rewrite !bind_Ok.
  rewrite <- app_assoc.
  apply (Hsecond (G2 ++ [(x.1, x.2 + s1.2)]) (x.1, x.2 + s1.2) true).
  by apply (piece_join x s1).
Qed.

Lemma merge_step_piece x G s1 f G' s' f' :
  piece ch s1 -> piece ch x ->
  merge_step x (G, s1, f) = Ok (G', s', f') -> piece ch s'.
Proof.
  intros Hs1 Hx. unfold merge_step.
  intros ([[G1 s2] f1] & Hfirst & Hsecond)%bind_Ok_inv.
  assert (Hs2 : piece ch s2).
  { destruct (x.1 + x.2 =? s1.1) eqn:T; [|by simplify_eq].
    apply Z.eqb_eq in T.
    apply bind_Ok_inv in Hfirst as (l1 & _ & Hfirst).
    apply bind_Ok_inv in Hfirst as (l2 & _ & Hfirst). simplify_eq.
    by apply (piece_join x s1). }
  destruct (x.1 =? s2.1 + s2.2) eqn:T; [|by simplify_eq].
  apply Z.eqb_eq in T.
  apply bind_Ok_inv in Hsecond as (l1 & _ & Hsecond).
  apply bind_Ok_inv in Hsecond as (l2 & _ & Hsecond). simplify_eq.
  apply (piece_join s2 x); try done; simpl; lia.
Qed.

Lemma merge_pass_prefix xs : forall G s1 f,
  Forall (piece ch) xs -> piece ch s1 ->
  for_each merge_step xs (fl ++ G, s1, f)
  = ('(G', s', f') ← for_each merge_step xs (G, s1, f);
     Ok (fl ++ G', s', f')) /\
  forall G' s' f', for_each merge_step xs (G, s1, f) = Ok (G', s', f') ->
                   piece ch s'.
Proof using Hfl.
  induction xs as [|x xs IH]; intros G s1 f Hxs Hs1.
  - split; [done|]. by intros G' s' f' [= <- <- <-].
  - apply list.Forall_cons in Hxs as [Hx Hxs]. rewrite !for_each_cons.
    rewrite merge_step_prefix by done.
    destruct (merge_step x (G, s1, f)) as [[[G1 s2] f1]|e] eqn:E.
    + rewrite !bind_Ok.
      apply IH; [done|].
      exact (merge_step_piece _ _ _ _ _ _ _ Hs1 Hx E).
    + split; [done|]. by intros G' s' f'.
Qed.

Lemma coalesce_prefix n : forall G s1,
  Forall (piece ch) G -> piece ch s1 ->
  coalesce n (fl ++ G) s1 = (G' ← coalesce n G s1; Ok (fl ++ G')).
Proof using Hfl.
  induction n as [|n IH]; intros G s1 HG Hs1; [done|].
  cbn [coalesce]. rewrite for_each_app.
  rewrite merge_pass_apart.
  2:{ apply list.Forall_forall. intros c Hc. by apply free_apart_piece. }
  rewrite bind_Ok.
  destruct (merge_pass_prefix G G s1 false HG Hs1) as [-> Hp].
  destruct (for_each merge_step G (G, s1, false)) as [[[G1 s2] f1]|e] eqn:E;
    [|done].
  rewrite !bind_Ok. destruct f1; [|done].
  apply IH; [|exact (Hp _ _ _ eq_refl)].
  eapply (merge_pass_Forall (piece ch)); [|exact E|done].
  intros u v c Hu Hv. by apply piece_join.
Qed.

Lemma release_prefix G b :
  Forall (piece ch) G -> piece ch b ->
  release (fl ++ G) b = (G' ← release G b; Ok (fl ++ G')).
Proof using Hfl.
  intros HG Hb. unfold release.
  rewrite <- app_assoc, length_app.
  rewrite coalesce_prefix.
  2:{ apply Forall_app. split; [done|]. by constructor. }
  2:{ done. }
  replace (S (length fl + length (G ++ [b])))
    with (S (length (G ++ [b])) + length fl)%nat by lia.
  rewrite coalesce_more_fuel; [done|].
  apply release_never_out_of_fuel.
Qed.

End chain_prefix.

(** ** The loop stops on a free list in which nothing touches [space1] *)

Lemma merge_step_quiet x L s L' s' :
  merge_step x (L, s, false) = Ok (L', s', false) ->
  L' = L /\ s' = s /\ apart x s.
Proof.
  unfold merge_step. intros ([[L1 s2] f1] & Hfirst & Hsecond)%bind_Ok_inv.
  destruct (x.1 + x.2 =? s.1) eqn:T1.
  - apply bind_Ok_inv in Hfirst as (l1 & _ & Hfirst).
    apply bind_Ok_inv in Hfirst as (l2 & _ & Hfirst). simplify_eq.
    destruct (x.1 =? _); [|by simplify_eq].
    apply bind_Ok_inv in Hsecond as (l3 & _ & Hsecond).
    apply bind_Ok_inv in Hsecond as (l4 & _ & Hsecond). by simplify_eq.
  - simplify_eq. destruct (x.1 =? s2.1 + s2.2) eqn:T2.
    + apply bind_Ok_inv in Hsecond as (l3 & _ & Hsecond).
      apply bind_Ok_inv in Hsecond as (l4 & _ & Hsecond). by simplify_eq.
    + simplify_eq. apply Z.eqb_neq in T1, T2. by repeat split.
Qed.

Lemma merge_step_flag x L s L' s' f' :
  merge_step x (L, s, true) = Ok (L', s', f') -> f' = true.
Proof.
  unfold merge_step. intros ([[L1 s2] f1] & Hfirst & Hsecond)%bind_Ok_inv.
  assert (f1 = true) as ->.
  { destruct (x.1 + x.2 =? s.1); [|by simplify_eq].
    apply bind_Ok_inv in Hfirst as (l1 & _ & Hfirst).
    apply bind_Ok_inv in Hfirst as (l2 & _ & Hfirst). by simplify_eq. }
  destruct (x.1 =? _); [|by simplify_eq].
  apply bind_Ok_inv in Hsecond as (l3 & _ & Hsecond).
  apply bind_Ok_inv in Hsecond as (l4 & _ & Hsecond). by simplify_eq.
Qed.

Lemma merge_pass_flag xs : forall L s L' s' f',
  for_each merge_step xs (L, s, true) = Ok (L', s', f') -> f' = true.
Proof.
  induction xs as [|x xs IH]; intros L s L' s' f'.
  - by intros [= _ _ <-].
  - rewrite for_each_cons. intros ([[L1 s1] f1] & E1 & E2)%bind_Ok_inv.
    apply merge_step_flag in E1 as ->. by eapply IH.
Qed.

Lemma merge_pass_quiet xs : forall L s L' s',
  for_each merge_step xs (L, s, false) = Ok (L', s', false) ->
  L' = L /\ s' = s /\ Forall (fun x => apart x s) xs.
Proof.
  induction xs as [|x xs IH]; intros L s L' s'.
  - by intros [= <- <-].
  - rewrite for_each_cons. intros ([[L1 s1] f1] & E1 & E2)%bind_Ok_inv.
    destruct f1; [by apply merge_pass_flag in E2|].
    apply merge_step_quiet in E1 as (-> & -> & Hx).
    destruct (IH _ _ _ _ E2) as (-> & -> & Hxs). by repeat split; [..|constructor].
Qed.

Lemma list_remove_perm x (l l' : list Space) :
  list_remove x l = Ok l' -> l ≡ₚ x :: l'.
Proof.
  intros (l1 & l2 & -> & -> & _)%list_remove_Ok.
  by rewrite Permutation_middle.
Qed.

Section merged_rest.

(** The blocks [G] that were free, none of which holds the element [q] of
    the block being released. *)
Variables (G : list Space) (q : Z).
Hypothesis HG : forall g, g ∈ G -> 0 < g.2 /\ ~ in_block g q.

Lemma merge_step_rest x L s f L' s' f' :
  in_block s q ->
  (exists rest, L ≡ₚ s :: rest /\ Forall (fun g => g ∈ G) rest) ->
  merge_step x (L, s, f) = Ok (L', s', f') ->
  in_block s' q /\
  exists rest', L' ≡ₚ s' :: rest' /\ Forall (fun g => g ∈ G) rest'.
Proof using HG.
  assert (Hone : forall L0 s0 l1 l2 (c : Space),
            in_block s0 q ->
            (exists rest, L0 ≡ₚ s0 :: rest /\ Forall (fun g => g ∈ G) rest) ->
            list_remove s0 L0 = Ok l1 -> list_remove x l1 = Ok l2 ->
            ((x.1 + x.2 = s0.1 /\ c = (x.1, x.2 + s0.2)) \/
             (x.1 = s0.1 + s0.2 /\ c = (s0.1, x.2 + s0.2))) ->
            0 < x.2 /\ in_block c q /\
            exists rest', l2 ++ [c] ≡ₚ c :: rest' /\
                          Forall (fun g => g ∈ G) rest').
  { intros L0 s0 l1 l2 c Hq (rest & Hperm & Hrest) R1 R2 Hadj.
    apply list_remove_perm in R1. apply list_remove_perm in R2.
    assert (Hl1 : l1 ≡ₚ rest).
    { apply (Permutation_cons_inv (a := s0)). by rewrite <- R1. }
    assert (Hx : x ∈ G).
    { rewrite list.Forall_forall in Hrest. apply Hrest.
      rewrite <- Hl1, R2. apply elem_of_cons. by left. }
    destruct (HG x Hx) as [Hxpos _].
    split; [done|]. split.
    { unfold in_block in *. destruct Hadj as [[? ->]|[? ->]]; simpl; lia. }
    exists l2. split; [by rewrite Permutation_app_comm|].
    apply list.Forall_forall. intros g Hg.
    rewrite list.Forall_forall in Hrest. apply Hrest.
    rewrite <- Hl1, R2. apply elem_of_cons. by right. }
  intros Hq Hrest. unfold merge_step.
  intros ([[L1 s2] f1] & Hfirst & Hsecond)%bind_Ok_inv.
  destruct (x.1 + x.2 =? s.1) eqn:T1.
  - apply Z.eqb_eq in T1.
    apply bind_Ok_inv in Hfirst as (l1 & R1 & Hfirst).
    apply bind_Ok_inv in Hfirst as (l2 & R2 & Hfirst). simplify_eq.
    destruct (Hone L s l1 l2 (x.1, x.2 + s.2) Hq Hrest R1 R2)
      as (Hxpos & Hq' & Hrest'); [by left|].
    destruct (x.1 =? _) eqn:T2.
    + apply Z.eqb_eq in T2. cbn [fst snd] in T2.
      unfold in_block in Hq. lia.
    + by simplify_eq.
  - simplify_eq. destruct (x.1 =? s2.1 + s2.2) eqn:T2; [|by simplify_eq].
    apply Z.eqb_eq in T2.
    apply bind_Ok_inv in Hsecond as (l1 & R1 & Hsecond).
    apply bind_Ok_inv in Hsecond as (l2 & R2 & Hsecond). simplify_eq.
    destruct (Hone L1 s2 l1 l2 (s2.1, x.2 + s2.2) Hq Hrest R1 R2)
      as (Hxpos & Hq' & Hrest'); [by right|].
    done.
Qed.

Lemma merge_pass_rest xs : forall L s f L' s' f',
  in_block s q ->
  (exists rest, L ≡ₚ s :: rest /\ Forall (fun g => g ∈ G) rest) ->
  for_each merge_step xs (L, s, f) = Ok (L', s', f') ->
  in_block s' q /\
  exists rest', L' ≡ₚ s' :: rest' /\ Forall (fun g => g ∈ G) rest'.
Proof using HG.
  induction xs as [|x xs IH]; intros L s f L' s' f' Hq Hrest.
  - by intros [= <- <- <-].
  - rewrite for_each_cons. intros ([[L1 s1] f1] & E1 & E2)%bind_Ok_inv.
    destruct (merge_step_rest _ _ _ _ _ _ _ Hq Hrest E1) as [Hq1 Hrest1].
    by eapply IH.
Qed.

Lemma coalesce_rest n : forall L s L',
  in_block s q ->
  (exists rest, L ≡ₚ s :: rest /\ Forall (fun g => g ∈ G) rest) ->
  coalesce n L s = Ok L' ->
  exists s' rest', in_block s' q /\ L' ≡ₚ s' :: rest' /\
    Forall (fun g => g ∈ G) rest' /\ Forall (fun x => apart x s') L'.
Proof using HG.
  induction n as [|n IH]; intros L s L' Hq Hrest; [done|].
  cbn [coalesce]. intros ([[L1 s1] f1] & E1 & E2)%bind_Ok_inv.
  destruct f1.
  - destruct (merge_pass_rest _ _ _ _ _ _ _ Hq Hrest E1) as [Hq1 Hrest1].
    by eapply IH.
  - injection E2 as <-.
    apply merge_pass_quiet in E1 as (-> & -> & Hquiet).
    destruct Hrest as (rest & Hperm & Hrest). by exists s, rest.
Qed.

End merged_rest.

(** Releasing a block into a settled free list leaves it settled. *)
Lemma release_settled G b G' :
  Forall (fun g => 0 < g.2) G ->
  (forall g, g ∈ G -> ~ in_block g b.1) ->
  settled G -> 0 < b.2 ->
  release G b = Ok G' -> settled G'.
Proof.
  intros Hpos Hq Hset Hb Hrel. unfold release in Hrel.
  destruct (coalesce_rest G b.1) with (4 := Hrel)
    as (s' & rest' & Hq' & Hperm & Hrest & Hquiet).
  - intros g Hg. split; [|by apply Hq].
    rewrite list.Forall_forall in Hpos. by apply Hpos.
  - unfold in_block. lia.
  - exists G. split; [by rewrite Permutation_app_comm|].
    by apply list.Forall_forall.
  - rewrite list.Forall_forall in Hquiet, Hrest.
    intros x y Hx Hy.
    pose proof (Hquiet x Hx) as [Hx1 Hx2]. pose proof (Hquiet y Hy) as [Hy1 Hy2].
    rewrite Hperm in Hx, Hy.
    apply elem_of_cons in Hx as [->|Hx]; [unfold in_block in Hq'; lia|].
    apply elem_of_cons in Hy as [->|Hy]; [done|].
    apply Hset; by apply Hrest.
Qed.

(** ** The elements of a chain *)

Lemma cover_perm l1 l2 p : l1 ≡ₚ l2 -> cover l1 p = cover l2 p.
Proof. intros H. unfold cover. by rewrite H. Qed.

Lemma chain_size_nonneg sizes : Forall (fun s => 0 < s) sizes -> 0 <= chain_size sizes.
Proof.
  induction 1 as [|s sizes Hs _ IH]; [done|].
  unfold chain_size in *. cbn [foldr]. lia.
Qed.

Lemma chain_cover sizes : forall a p,
  Forall (fun s => 0 < s) sizes ->
  cover (chain a sizes) p = holds (a, chain_size sizes) p.
Proof.
  induction sizes as [|s sizes IH]; intros a p Hpos.
  - cbn [chain]. rewrite cover_nil. unfold holds, in_block, chain_size.
    cbn [foldr fst snd]. case_decide; [lia|done].
  - apply list.Forall_cons in Hpos as [Hs Hpos]. cbn [chain].
    rewrite cover_cons, IH by done.
    change (chain_size (s :: sizes)) with (s + chain_size sizes).
    pose proof (chain_size_nonneg _ Hpos).
    rewrite in_block_union by lia. done.
Qed.

Lemma chain_blocks sizes : forall a b,
  0 <= a -> Forall (fun s => 0 < s) sizes -> b ∈ chain a sizes ->
  0 <= b.1 /\ 0 < b.2.
Proof.
  induction sizes as [|s sizes IH]; intros a b Ha Hpos.
  - by intros ?%elem_of_nil.
  - apply list.Forall_cons in Hpos as [Hs Hpos]. cbn [chain].
    intros [->|Hb]%elem_of_cons; [done|].
    apply (IH (a + s)); [lia|done|done].
Qed.

Lemma chain_piece a sizes b :
  0 <= a -> Forall (fun s => 0 < s) sizes -> b ∈ chain a sizes ->
  piece (chain a sizes) b /\ sane b.
Proof.
  intros Ha Hpos Hb. destruct (chain_blocks _ _ _ Ha Hpos Hb) as [H1 H2].
  split; [|split; lia]. split; [done|]. split; by exists b.
Qed.

(** A clean, settled free list that covers exactly the elements of one
    block of positive size is that block. *)
Lemma pieces_whole a n G :
  0 < n -> clean G -> settled G ->
  (forall p, cover G p = holds (a, n) p) -> G = [(a, n)].
Proof.
  intros Hn [Hpos Hone] Hset Hcov.
  assert (Hin : forall p, a <= p < a + n -> cover G p = 1%nat).
  { intros p Hp. rewrite Hcov. by apply holds_in. }
  assert (Hout : forall p, ~ a <= p < a + n -> cover G p = 0%nat).
  { intros p Hp. rewrite Hcov. unfold holds. by rewrite decide_False. }
  assert (Hblock : forall g p, g ∈ G -> in_block g p -> a <= p < a + n).
  { intros g p Hg Hp. destruct (decide (a <= p < a + n)) as [|Hno]; [done|].
    assert (0 < cover G p)%nat by (apply cover_pos; eauto).
    rewrite (Hout p Hno) in *. lia. }
  assert (Hgpos : forall g, g ∈ G -> 0 < g.2).
  { intros g Hg. rewrite list.Forall_forall in Hpos. by apply Hpos. }
  destruct (proj1 (cover_pos G a)) as (f & Hf & Hfa);
    [rewrite Hin; lia|].
  apply list_elem_of_split in Hf as (l1 & l2 & ->).
  assert (Hothers : forall p, in_block f p ->
            cover l1 p = 0%nat /\ cover l2 p = 0%nat).
  { intros p Hp. specialize (Hone p).
    rewrite cover_app, cover_cons, (holds_in _ _ Hp) in Hone. lia. }
  assert (Hf : f ∈ l1 ++ f :: l2)
    by (apply elem_of_app; right; apply elem_of_cons; auto).
  pose proof (Hgpos f Hf) as Hfpos.
  assert (Hf1 : f.1 = a).
  { assert (a <= f.1 < a + n); [|unfold in_block in Hfa; lia].
    apply (Hblock f f.1 Hf). unfold in_block. lia. }
  assert (Hf2 : f.1 + f.2 = a + n).
  { assert (f.1 + f.2 <= a + n).
    { assert (a <= f.1 + f.2 - 1 < a + n); [|lia].
      apply (Hblock f _ Hf). unfold in_block. lia. }
    destruct (decide (f.1 + f.2 = a + n)) as [|Hne]; [done|]. exfalso.
    destruct (proj1 (cover_pos (l1 ++ f :: l2) (f.1 + f.2)))
      as (g & Hg & Hge); [rewrite Hin; lia|].
    assert (Hgf : g ∈ l1 \/ g ∈ l2).
    { apply elem_of_app in Hg as [?|[->|?]%elem_of_cons]; auto.
      unfold in_block in Hge. lia. }
    assert (Hadj : f.1 + f.2 <> g.1) by (by apply Hset).
    assert (Hp : in_block f (f.1 + f.2 - 1)) by (unfold in_block; lia).
    assert (Hgp : in_block g (f.1 + f.2 - 1))
      by (unfold in_block in *; lia).
    destruct (Hothers _ Hp) as [H1 H2].
    destruct Hgf as [Hg1|Hg2].
    - assert (0 < cover l1 (f.1 + f.2 - 1))%nat by (apply cover_pos; eauto).
      lia.
    - assert (0 < cover l2 (f.1 + f.2 - 1))%nat by (apply cover_pos; eauto).
      lia. }
  assert (Hfeq : f = (a, n)).
  { destruct f as [f1 f2]. simpl in *. f_equal; lia. }
  assert (Hnone : forall g, g ∈ l1 \/ g ∈ l2 -> False).
  { intros g Hg.
    assert (Hgin : g ∈ l1 ++ f :: l2).
    { apply elem_of_app. destruct Hg; [by left|right].
      apply elem_of_cons. by right. }
    pose proof (Hgpos g Hgin) as Hgp.
    assert (Hg1 : in_block g g.1) by (unfold in_block; lia).
    pose proof (Hblock g g.1 Hgin Hg1) as Hrange.
    assert (Hfg : in_block f g.1) by (unfold in_block; lia).
    destruct (Hothers _ Hfg) as [H1 H2].
    destruct Hg as [Hg|Hg].
    - assert (0 < cover l1 g.1)%nat by (apply cover_pos; eauto). lia.
    - assert (0 < cover l2 g.1)%nat by (apply cover_pos; eauto). lia. }
  destruct l1 as [|g l1].
  2:{ exfalso. apply (Hnone g). left. apply elem_of_cons. by left. }
  destruct l2 as [|g l2].
  2:{ exfalso. apply (Hnone g). right. apply elem_of_cons. by left. }
  by rewrite Hfeq.
Qed.

(** ** Releasing the blocks of a chain in any order *)

Section chain_release.

Variables (fl : list Space) (a : Z) (sizes : list Z).
Hypothesis Ha : 0 <= a.
Hypothesis Hsizes : Forall (fun s => 0 < s) sizes.
Hypothesis Hfl : Forall (fun c => Forall (apart c) (chain a sizes)) fl.

Lemma release_piece G D b order :
  D ++ b :: order ≡ₚ chain a sizes ->
  pieces_inv (chain a sizes) G D ->
  exists G', release (fl ++ G) b = Ok (fl ++ G') /\
             pieces_inv (chain a sizes) G' (D ++ [b]).
Proof using Ha Hsizes Hfl.
  intros Hperm ([Hpos Hone] & Hsane & Hpieces & Hset & Hcov).
  assert (Hb : b ∈ chain a sizes).
  { rewrite <- Hperm. apply elem_of_app. right. apply elem_of_cons. by left. }
  destruct (chain_piece _ _ _ Ha Hsizes Hb) as [Hbp Hbs].
  assert (Hbpos : 0 < b.2) by apply Hbp.
  assert (Hfree : forall p, in_block b p -> cover G p = 0%nat).
  { intros p Hp. rewrite Hcov.
    pose proof (cover_perm _ _ p Hperm) as Hc.
    rewrite cover_app, cover_cons, (holds_in _ _ Hp), chain_cover in Hc by done.
    unfold holds in Hc. case_decide; lia. }
  destruct (coalesce_clean (S (length (G ++ [b]))) (G ++ [b]) b)
    as (G' & HG' & Hclean'); [lia| |by apply elem_of_app; right;
                                     apply list_elem_of_singleton|].
  { split.
    - apply Forall_app. split; [done|]. by constructor.
    - intros p. rewrite cover_app, cover_cons, cover_nil. unfold holds.
      case_decide as Hin; [rewrite (Hfree p Hin); lia|].
      specialize (Hone p). lia. }
  assert (Hrel : release G b = Ok G') by done.
  exists G'. split.
  { rewrite (release_prefix (chain a sizes)) by done. by rewrite Hrel. }
  destruct (release_cover _ _ _ Hrel Hsane Hbs) as [Hsane' Hcov'].
  split; [done|]. split; [done|]. split; [|split].
  - eapply (release_Forall (piece (chain a sizes))); [|exact Hrel|done|done].
    intros u v c Hu Hv. by apply piece_join.
  - eapply (release_settled G b); [done| |done|done|done].
    intros g Hg Hgb.
    assert (0 < cover G b.1)%nat by (apply cover_pos; eauto).
    rewrite Hfree in *; [lia|]. unfold in_block. lia.
  - intros p. rewrite Hcov', Hcov, cover_app, cover_cons, cover_nil. lia.
Qed.

Lemma release_all_pieces order : forall D G,
  D ++ order ≡ₚ chain a sizes ->
  pieces_inv (chain a sizes) G D ->
  exists G', release_all order (fl ++ G) = Ok (fl ++ G') /\
             pieces_inv (chain a sizes) G' (D ++ order).
Proof using Ha Hsizes Hfl.
  induction order as [|b order IH]; intros D G Hperm Hinv.
  - exists G. by rewrite app_nil_r.
  - destruct (release_piece G D b order Hperm Hinv) as (G1 & E1 & Hinv1).
    destruct (IH (D ++ [b]) G1) as (G' & E' & Hinv'); [|done|].
    { by rewrite <- app_assoc. }
    exists G'. unfold release_all in *. rewrite for_each_cons, E1, bind_Ok.
    split; [done|]. by rewrite <- app_assoc in Hinv'.
Qed.

(** Released in any order, the blocks of the chain end as one block behind
    the blocks that were free. *)
Lemma release_all_chain order :
  sizes <> [] -> order ≡ₚ chain a sizes ->
  release_all order fl = Ok (fl ++ [(a, chain_size sizes)]).
Proof using Ha Hsizes Hfl.
  intros Hne Hperm.
  destruct (release_all_pieces order [] []) as (G' & E & Hinv); [done| |].
  { split; [split; [constructor|intros p; rewrite cover_nil; lia]|].
    split; [constructor|]. split; [constructor|].
    split; [by intros x y ?%elem_of_nil|done]. }
  rewrite app_nil_r in E. rewrite E. do 2 f_equal.
  destruct Hinv as (Hclean & _ & _ & Hset & Hcov).
  apply pieces_whole; [|done|done|].
  - destruct sizes as [|s ss]; [done|].
    apply list.Forall_cons in Hsizes as [Hs Hss].
    pose proof (chain_size_nonneg _ Hss).
    change (chain_size (s :: ss)) with (s + chain_size ss). lia.
  - intros p. rewrite Hcov. cbn [app].
    by rewrite (cover_perm _ _ p Hperm), chain_cover.
Qed.

End chain_release.

(** ** A request of exactly the size of a free block *)




(** Two adjacent blocks, in either order. *)
Lemma release_two_adjacent (fl : list Space) (a s t : Z) :
  0 <= a -> 0 < s -> 0 < t ->
  Forall (fun c => apart c (a, s) /\ apart c (a + s, t)) fl ->
  release_all [(a, s); (a + s, t)] fl = Ok (fl ++ [(a, s + t)]) /\
  release_all [(a + s, t); (a, s)] fl = Ok (fl ++ [(a, s + t)]).
Proof.
  intros Ha Hs Ht Hfl.
  assert (Hap : Forall (fun c => Forall (apart c) (chain a [s; t])) fl).
  { eapply list.Forall_impl; [exact Hfl|]. intros c [H1 H2].
    cbn [chain]. constructor; [done|]. constructor; [done|]. constructor. }
  assert (Hpos : Forall (fun s => 0 < s) [s; t]) by (by repeat constructor).
  replace (s + t) with (chain_size [s; t])
    by (unfold chain_size; cbn [foldr]; lia).
  split; apply release_all_chain; try done.
  cbn [chain]. apply perm_swap.
Qed.



Section shadowed_facts.
Import Shadowed.

(** C3 (as stated) fails: the graph input [P] is named ["append"]. The
    seeding stores it at offset 0, so that [layout.append] is its
    allocation from then on. When [Y] is requested the free list is empty
    and the layout's size is 4, yet [Y] is not stored at offset 4: the call
    [layout.append(var)] raises [TypeError], and so does the pass. *)
Lemma general_allocation_hidden_append :
  (st ← initial_state graph variables;
   Ok (offset_in (layout st) P, layout_size (layout st), free_list st))
  = Ok (Some 0, 4, []) /\
  (st ← initial_state graph variables; allocate_general Y st)
  = Raise TypeError /\
  allocate_variables graph variables = Raise TypeError /\
  ~ (exists st st', initial_state graph variables = Ok st /\
                    allocate_general Y st = Ok st' /\
                    offset_in (layout st') Y = Some 4).
Proof.
  repeat (split; [vm_compute; reflexivity|]).
  intros (st & st' & Hst & Hst' & _).
  assert (Hrun : (st ← initial_state graph variables; allocate_general Y st)
                 = Raise TypeError) by (vm_compute; reflexivity).
  rewrite Hst, bind_Ok, Hst' in Hrun. discriminate.
Qed.

End shadowed_facts.
